(** * Homework 9 toolkit: MinHeap, Queue, Stack, LinkedList, Graph

    A shallow embedding of the TypeScript sources
    (MinHeap, Queue, Stack/MinMaxStack, LinkedList, Graph with DFS, BFS and
    dijkstra) together with the properties stated about them.

    Conventions of the embedding.
    - A JavaScript array is a [list] in index order: [push] appends at the
      end, [pop] removes the last element, [a[i]] is the lookup [a !! i].
    - JavaScript numbers that the code only adds and compares (edge weights,
      comparator results, counters) are integers [Z].
    - [null]/[undefined] results are [None]; each definition says which of the
      two the source produces.
    - Loops that the source writes as [while], and the recursion of the
      depth-first search, run on a fuel argument; a call whose fuel runs out
      is [Timeout]. The loops of the heap take their fuel from the array
      and are shown never to stop for lack of it. *)

From Stdlib Require Import ZArith Lia Permutation Sorted.
From stdpp Require Import base list strings.

Open Scope Z_scope.
Open Scope nat_scope.

(** ** Outcomes of a call *)

(** A call returns a value, throws (a [TypeError] on reading a property of
    [undefined]), or is still running when the budget of the model ends. *)
Inductive outcome (A : Type) : Type :=
| Done (a : A)
| Throws
| Timeout.
Arguments Done {A} a.
Arguments Throws {A}.
Arguments Timeout {A}.

(** ** MinHeap *)

Module MinHeap.
Section Defs.
Context {T : Type}.
Variable compare : T -> T -> Z.

(** Indices are positions of the array, hence naturals. [parent] is
    [Math.floor((index - 1) / 2)]; the heap applies it to an index other
    than 0 only (the guard of [heapifyUp]), where the division of naturals
    is that floor. At 0 the source gives -1, the model 0. *)
Definition parent (index : nat) : nat := (index - 1) / 2.
Definition leftChild (index : nat) : nat := 2 * index + 1.
Definition rightChild (index : nat) : nat := 2 * index + 2.

(** [[h[i], h[j]] = [h[j], h[i]]]: both reads happen before the two
    writes, [h[i]] is written first. *)
Definition swap (h : list T) (i j : nat) : list T :=
  match h !! i, h !! j with
  | Some x, Some y => <[j := x]> (<[i := y]> h)
  | _, _ => h
  end.

(** [compare(h[i], h[j]) < 0] and [compare(h[i], h[j]) > 0]; the source
    only evaluates them at indices inside the array. *)
Definition less_at (h : list T) (i j : nat) : bool :=
  match h !! i, h !! j with
  | Some a, Some b => bool_decide (compare a b < 0)%Z
  | _, _ => false
  end.

Definition greater_at (h : list T) (i j : nat) : bool :=
  match h !! i, h !! j with
  | Some a, Some b => bool_decide (0 < compare a b)%Z
  | _, _ => false
  end.

(** The [while] loop of [heapifyUp]. *)
Fixpoint heapifyUp_loop (fuel : nat) (h : list T) (index : nat) : list T :=
  match fuel with
  | 0 => h
  | S fuel' =>
      if negb (index =? 0) && greater_at h (parent index) index
      then heapifyUp_loop fuel' (swap h (parent index) index) (parent index)
      else h
  end.

Definition heapifyUp (h : list T) (index : nat) : list T :=
  heapifyUp_loop index h index.

(** One pass of the [while (true)] loop of [heapifyDown]: the index the
    element moves to ([currMin]); the loop breaks when it is [index].
    [currMin] is declared before the loop and equals [index] at the start
    of every pass, [index] being set to it after each exchange. *)
Definition smallest (h : list T) (index : nat) : nat :=
  let heapSize := length h in
  let left := leftChild index in
  let right := rightChild index in
  let currMin := index in
  let currMin :=
    if (left <? heapSize) && less_at h left currMin then left else currMin in
  let currMin :=
    if (right <? heapSize) && less_at h right currMin then right else currMin in
  currMin.

Fixpoint heapifyDown_loop (fuel : nat) (h : list T) (index : nat) : list T :=
  match fuel with
  | 0 => h
  | S fuel' =>
      let currMin := smallest h index in
      if negb (currMin =? index)
      then heapifyDown_loop fuel' (swap h index currMin) currMin
      else h
  end.

Definition heapifyDown (h : list T) (index : nat) : list T :=
  heapifyDown_loop (length h - index) h index.

(** [new MinHeap(compare, args)]: with [args], a copy of it is heapified
    from index [floor(n/2) - 1] down to [0]. *)
Definition new (args : option (list T)) : list T :=
  match args with
  | Some a => fold_left heapifyDown (rev (seq 0 (length a / 2))) a
  | None => []
  end.

Definition insert (h : list T) (value : T) : list T :=
  let h := h ++ [value] in
  heapifyUp h (length h - 1).

(** [popMin]. The guard [if (!this.#heap) return null] never fires, an
    array being truthy. On the empty array [min] is [undefined] ([None]),
    the write [heap[0] = heap[-1]] stores [undefined] at index 0 and
    [pop()] removes it again, so the array is empty afterwards. *)
Definition popMin (h : list T) : option T * list T :=
  let min := h !! 0 in
  let h :=
    match last h with
    | Some l => removelast (<[0 := l]> h)
    | None => h
    end in
  (min, heapifyDown h 0).

Definition isEmpty (h : list T) : bool := negb (0 <? length h).

(** A sequence of calls on one heap: the values its [popMin] calls
    return on a non-empty heap, in call order, and the final heap. *)
Inductive op : Type :=
| Insert (value : T)
| PopMin.

Fixpoint run (ops : list op) (h : list T) : list T * list T :=
  match ops with
  | [] => ([], h)
  | Insert v :: ops' => run ops' (insert h v)
  | PopMin :: ops' =>
      let '(r, h') := popMin h in
      let '(out, h'') := run ops' h' in
      (match r with Some x => x :: out | None => out end, h'')
  end.

End Defs.
#[global] Arguments popMin : simpl never.
#[global] Arguments insert : simpl never.
#[global] Arguments heapifyDown : simpl never.
#[global] Arguments heapifyUp : simpl never.
End MinHeap.

(** The numeric comparator [(a, b) => a - b] of the example usages. *)
Definition numeric (a b : Z) : Z := (a - b)%Z.

(** ** Map and Set

    A JavaScript [Map] keeps its entries in insertion order; [set] on a
    present key replaces the value in place. A [Set] is the same for
    members. Keys are compared with [===] (no NaN among them). *)

Module JsMap.
Section Defs.
Context {K V : Type} `{EqDecision K}.

Fixpoint get (m : list (K * V)) (k : K) : option V :=
  match m with
  | [] => None
  | (k', v) :: m' => if decide (k' = k) then Some v else get m' k
  end.

Definition has (m : list (K * V)) (k : K) : bool :=
  match get m k with Some _ => true | None => false end.

Fixpoint set (m : list (K * V)) (k : K) (v : V) : list (K * V) :=
  match m with
  | [] => [(k, v)]
  | (k', v') :: m' =>
      if decide (k' = k) then (k', v) :: m' else (k', v') :: set m' k v
  end.

Definition keys (m : list (K * V)) : list K := map fst m.
Definition entries (m : list (K * V)) : list (K * V) := m.
End Defs.
End JsMap.

Module JsSet.
Section Defs.
Context {K : Type} `{EqDecision K}.

Definition has (s : list K) (k : K) : bool := bool_decide (k ∈ s).
Definition add (s : list K) (k : K) : list K :=
  if has s k then s else s ++ [k].
End Defs.
End JsSet.

(** ** Values used as graph nodes

    The searches test their start node with [!node]; a node type comes with
    its equality and with the truth value JavaScript gives each value. *)

Class JsKey (T : Type) := {
  key_eq_dec :: EqDecision T;
  truthy : T -> bool
}.

(** Strings: only the empty string is falsy. *)
#[export] Instance string_key : JsKey string :=
  {| truthy s := negb (bool_decide (s = EmptyString)) |}.

(** Numbers (integers here): only zero is falsy. *)
#[export] Instance number_key : JsKey Z :=
  {| truthy z := negb (bool_decide (z = 0%Z)) |}.

(** ** Queue *)

Module Queue.
Section Defs.
Context {A : Type}.

(** [items] is the chain of Nodes from [#head] following [next]; [#tail]
    is its last Node whenever the chain is not empty, and is overwritten by
    the next [enqueue] when it is. [_size] is the counter of the source. *)
Record t : Type := mk { items : list A; _size : Z }.

Definition empty : t := {| items := []; _size := 0 |}.

Definition enqueue (q : t) (value : A) : t :=
  {| items := items q ++ [value]; _size := (_size q + 1)%Z |}.

(** [null] ([None]) on the empty queue. *)
Definition dequeue (q : t) : option A * t :=
  match items q with
  | val :: rest => (Some val, {| items := rest; _size := (_size q - 1)%Z |})
  | [] => (None, q)
  end.

Definition new (args : list A) : t := fold_left enqueue args empty.
Definition size (q : t) : Z := _size q.
Definition peek (q : t) : option A := head (items q).
Definition isEmpty (q : t) : bool :=
  match items q with [] => true | _ => false end.
End Defs.
Arguments t : clear implicits.
End Queue.

(** ** Stack and MinMaxStack *)

Module Stack.
Section Defs.
Context {T : Type}.

(** [#stack], top at the end. Elements are values of [T], none of them
    [null] or [undefined]. *)
Definition new (initialValues : option (list T)) : list T :=
  default [] initialValues.

Definition push (s : list T) (x : T) : list T := s ++ [x].

(** [this.#stack.pop() ?? null] *)
Definition pop (s : list T) : option T * list T := (last s, removelast s).

Definition isEmpty (s : list T) : bool := bool_decide (length s = 0).
Definition peak (s : list T) : option T :=
  if negb (isEmpty s) then s !! (length s - 1) else None.
Definition size (s : list T) : nat := length s.

(** [[Symbol.iterator]]: the values that [next()] yields until it is
    done, [idx] running down from the last index over the copy
    [stack_items] of the array; [n] is [idx + 1]. Reading past the copy
    would yield [undefined] ([None]). *)
Fixpoint next_from (stack_items : list T) (n : nat) : list (option T) :=
  match n with
  | 0 => []
  | S idx => stack_items !! idx :: next_from stack_items idx
  end.

Definition iterator (s : list T) : list (option T) :=
  let stack_items := s in
  next_from stack_items (length s).
End Defs.
End Stack.

Module MinMaxStack.
Section Defs.
Context {T : Type}.
Variable _compare : T -> T -> Z.

Record t : Type := mk { stack : list T; minStack : list T; maxStack : list T }.

Definition isEmpty (s : t) : bool := Stack.isEmpty (stack s).

Definition getMin (s : t) : option T :=
  if negb (isEmpty s) then minStack s !! (length (minStack s) - 1) else None.

Definition getMax (s : t) : option T :=
  if negb (isEmpty s) then maxStack s !! (length (maxStack s) - 1) else None.

(** [this.#minStack.length === 0 || this._compare(value, this.getMin()!) < 0].
    The comparison is reached with a non-empty shadow stack only; [getMin()]
    is then [null] ([None]) only on an empty primary stack, which no call
    produces, [push] and the constructor filling the primary stack first;
    the model takes the comparison as false there. *)
Definition updateMinStack (s : t) (value : T) : t :=
  let smaller :=
    match getMin s with
    | Some m => bool_decide (_compare value m < 0)%Z
    | None => false
    end in
  if bool_decide (length (minStack s) = 0) || smaller
  then mk (stack s) (minStack s ++ [value]) (maxStack s)
  else mk (stack s) (minStack s ++ option_list (getMin s)) (maxStack s).

Definition updateMaxStack (s : t) (value : T) : t :=
  let greater :=
    match getMax s with
    | Some m => bool_decide (0 < _compare value m)%Z
    | None => false
    end in
  if bool_decide (length (maxStack s) = 0) || greater
  then mk (stack s) (minStack s) (maxStack s ++ [value])
  else mk (stack s) (minStack s) (maxStack s ++ option_list (getMax s)).

Definition new (initialValues : option (list T)) : t :=
  fold_left (fun s value => updateMaxStack (updateMinStack s value) value)
    (default [] initialValues)
    (mk (Stack.new initialValues) [] []).

Definition push (s : t) (value : T) : t :=
  let s := mk (Stack.push (stack s) value) (minStack s) (maxStack s) in
  let s := updateMinStack s value in
  updateMaxStack s value.

Definition pop (s : t) : option T * t :=
  let '(popped, st) := Stack.pop (stack s) in
  match popped with
  | Some _ => (popped, mk st (removelast (minStack s)) (removelast (maxStack s)))
  | None => (popped, mk st (minStack s) (maxStack s))
  end.

Inductive op : Type :=
| Push (value : T)
| Pop.

Definition step (s : t) (o : op) : t :=
  match o with
  | Push v => push s v
  | Pop => snd (pop s)
  end.
End Defs.
Arguments t : clear implicits.
Arguments op : clear implicits.
End MinMaxStack.

(** ** Graph *)

Module Graph.

Record GraphNode (T : Type) : Type := mkGraphNode { node : T; weight : Z }.
Arguments mkGraphNode {T} node weight.
Arguments node {T} _.
Arguments weight {T} _.

Record Edge (T : Type) : Type := mkEdge { from : T; to : T; edge_weight : Z }.
Arguments mkEdge {T} from to edge_weight.
Arguments from {T} _.
Arguments to {T} _.
Arguments edge_weight {T} _.

Section Defs.
Context {T : Type} `{JsKey T}.

(** [_adjacencyList : Map<T, GraphNode<T>[]>] *)
Definition adjacency : Type := list (T * list (GraphNode T)).

Definition new (initialGraph : option adjacency) : adjacency :=
  default [] initialGraph.

Definition getAllNodes (g : adjacency) : list T := JsMap.keys g.

Definition getAllEdges (g : adjacency) : list (Edge T) :=
  concat (map (fun '(n, connections) =>
                 map (fun adjNode => mkEdge n (node adjNode) (weight adjNode))
                     connections)
              (JsMap.entries g)).

Definition addNode (g : adjacency) (value : T) : bool * adjacency :=
  let nodeExists := JsMap.has g value in
  if negb nodeExists then (true, JsMap.set g value []) else (false, g).

(** [this._adjacencyList.get(k)?.push(e)] *)
Definition push_at (g : adjacency) (k : T) (e : GraphNode T) : adjacency :=
  match JsMap.get g k with
  | Some l => JsMap.set g k (l ++ [e])
  | None => g
  end.

(** [addEdge(from, to, weight = 1, undirected = true)]; an omitted
    argument is [None]. *)
Definition addEdge (g : adjacency) (from to : T)
    (weight : option Z) (undirected : option bool) : bool * adjacency :=
  let weight := default 1%Z weight in
  let undirected := default true undirected in
  let g := snd (addNode g from) in
  let g := snd (addNode g to) in
  let g := push_at g from (mkGraphNode to weight) in
  let g := if undirected then push_at g to (mkGraphNode from weight) else g in
  (true, g).

(** [undefined] ([None]) for an absent node. *)
Definition getNeighbors (g : adjacency) (n : T) : option (list (GraphNode T)) :=
  JsMap.get g n.

(** *** DepthFirstSearch

    [search] mutates the one [visited] set shared by all its calls; the
    model threads it. [fuel] bounds the depth of the recursion. A found
    path is an array, hence truthy in [if (path_found)]. *)
Fixpoint search (fuel : nat) (target : T) (graph : adjacency) (n : T)
    (path : list T) (visited : list T) : outcome (option (list T) * list T) :=
  match fuel with
  | 0 => Timeout
  | S fuel' =>
      if negb (truthy n) || JsSet.has visited n then Done (None, visited)
      else if decide (n = target) then Done (Some path, visited)
      else
        (fix each (ns : list (GraphNode T)) (visited : list T) :=
           match ns with
           | [] => Done (None, visited)
           | neighbor :: ns' =>
               if negb (JsSet.has visited (node neighbor)) then
                 match search fuel' target graph (node neighbor)
                         (path ++ [node neighbor]) visited with
                 | Done (Some path_found, visited) => Done (Some path_found, visited)
                 | Done (None, visited) => each ns' visited
                 | Throws => Throws
                 | Timeout => Timeout
                 end
               else each ns' visited
           end) (default [] (JsMap.get graph n)) (JsSet.add visited n)
  end.

Definition DepthFirstSearch (fuel : nat) (adjecencyList : adjacency)
    (startNode target : T) : outcome (option (list T)) :=
  let n := startNode in
  if negb (truthy n) then Done None
  else match search fuel target adjecencyList n [n] [] with
       | Done (r, _) => Done r
       | Throws => Throws
       | Timeout => Timeout
       end.

(** *** BreathFirstSearch *)

Record bfs_state : Type :=
  mk_bfs { visited : list T; queue : Queue.t (T * list T) }.

(** The [for] loop over the neighbors of the dequeued node. *)
Definition bfs_neighbors (path : list T) (ns : list (GraphNode T))
    (st : bfs_state) : bfs_state :=
  fold_left
    (fun st neighbor =>
       if negb (JsSet.has (visited st) (node neighbor))
       then mk_bfs (JsSet.add (visited st) (node neighbor))
                   (Queue.enqueue (queue st)
                      (node neighbor, path ++ [node neighbor]))
       else st)
    ns st.

(** One turn of [while (queue.size > 0)]: the next state, or the end of
    the call. Destructuring the [null] of an empty [dequeue] throws. *)
Definition bfs_step (adjecencyList : adjacency) (target : T) (st : bfs_state)
    : bfs_state + outcome (option (list T)) :=
  if bool_decide (0 < Queue.size (queue st))%Z then
    match Queue.dequeue (queue st) with
    | (Some (currNode, path), q) =>
        if decide (currNode = target) then inr (Done (Some path))
        else inl (bfs_neighbors path
                    (default [] (JsMap.get adjecencyList currNode))
                    (mk_bfs (visited st) q))
    | (None, _) => inr Throws
    end
  else inr (Done None).

Fixpoint bfs_loop (fuel : nat) (adjecencyList : adjacency) (target : T)
    (st : bfs_state) : outcome (option (list T)) :=
  match fuel with
  | 0 => Timeout
  | S fuel' =>
      match bfs_step adjecencyList target st with
      | inl st' => bfs_loop fuel' adjecencyList target st'
      | inr r => r
      end
  end.

Definition bfs_init (n : T) : bfs_state :=
  mk_bfs (JsSet.add [] n) (Queue.new [(n, [n])]).

Definition BreathFirstSearch (fuel : nat) (adjecencyList : adjacency)
    (startNode target : T) : outcome (option (list T)) :=
  let n := startNode in
  if negb (truthy n) then Done None
  else bfs_loop fuel adjecencyList target (bfs_init n).

(** The state at the start of turn [n] of the loop, while it runs. *)
Fixpoint bfs_state_at (n : nat) (adjecencyList : adjacency) (target : T)
    (st : bfs_state) : option bfs_state :=
  match n with
  | 0 => Some st
  | S n' =>
      match bfs_step adjecencyList target st with
      | inl st' => bfs_state_at n' adjecencyList target st'
      | inr _ => None
      end
  end.

(** *** dijkstra *)

(** A tentative distance: a number or [Infinity]. *)
Inductive distance : Type :=
| Fin (d : Z)
| Infinity.

Definition dist_add (a : distance) (w : Z) : distance :=
  match a with Fin d => Fin (d + w) | Infinity => Infinity end.

Definition dist_lt (a b : distance) : bool :=
  match a, b with
  | Fin x, Fin y => bool_decide (x < y)%Z
  | Fin _, Infinity => true
  | Infinity, _ => false
  end.

Definition compareNodes (a b : GraphNode T) : Z :=
  if bool_decide (weight b < weight a)%Z then 1%Z
  else if bool_decide (weight a < weight b)%Z then (-1)%Z
  else 0%Z.

Definition nodeMap_t : Type := list (T * (distance * option T)).

(** The [for] loop over the neighbors of the selected node.
    [nodeMap.get(k)!] on an absent key is [undefined], and reading its
    component throws. *)
Fixpoint relax (visited : list T) (selectedNode : GraphNode T)
    (neighbors : list (GraphNode T)) (nodeMap : nodeMap_t)
    (p_queue : list (GraphNode T)) : outcome (nodeMap_t * list (GraphNode T)) :=
  match neighbors with
  | [] => Done (nodeMap, p_queue)
  | neighbor :: rest =>
      if JsSet.has visited (node neighbor)
      then relax visited selectedNode rest nodeMap p_queue
      else
        match JsMap.get nodeMap (node neighbor) with
        | None => Throws
        | Some (curr_weight, _) =>
            match JsMap.get nodeMap (node selectedNode) with
            | None => Throws
            | Some (d, _) =>
                let totalWeight := dist_add d (weight neighbor) in
                if dist_lt totalWeight curr_weight
                then relax visited selectedNode rest
                       (JsMap.set nodeMap (node neighbor)
                          (totalWeight, Some (node selectedNode)))
                       (MinHeap.insert compareNodes p_queue neighbor)
                else relax visited selectedNode rest nodeMap p_queue
            end
        end
  end.

(** [while (!p_queue.isEmpty())] *)
Fixpoint dijkstra_loop (fuel : nat) (graph : adjacency) (visited : list T)
    (nodeMap : nodeMap_t) (p_queue : list (GraphNode T)) : outcome nodeMap_t :=
  match fuel with
  | 0 => Timeout
  | S fuel' =>
      if MinHeap.isEmpty p_queue then Done nodeMap
      else
        match MinHeap.popMin compareNodes p_queue with
        | (Some selectedNode, p_queue) =>
            let visited := JsSet.add visited (node selectedNode) in
            let neighbors := getNeighbors graph (node selectedNode) in
            match relax visited selectedNode (default [] neighbors)
                    nodeMap p_queue with
            | Done (nodeMap, p_queue) =>
                dijkstra_loop fuel' graph visited nodeMap p_queue
            | Throws => Throws
            | Timeout => Timeout
            end
        | (None, _) => Throws
        end
  end.

(** [while (currNode !== null)]: the walk along the predecessors. *)
Fixpoint walk_back (fuel : nat) (nodeMap : nodeMap_t) (currNode : option T)
    (path : list T) : outcome (list T) :=
  match currNode with
  | None => Done path
  | Some c =>
      match fuel with
      | 0 => Timeout
      | S fuel' =>
          match JsMap.get nodeMap c with
          | Some (_, pred) => walk_back fuel' nodeMap pred (path ++ [c])
          | None => Throws
          end
      end
  end.

Definition dijkstra (fuel : nat) (graph : adjacency) (from to : T)
    : outcome (option (list T)) :=
  let negativeEdges :=
    existsb (fun edge => bool_decide (edge_weight edge < 0)%Z) (getAllEdges graph) in
  if negativeEdges then Done None
  else
    let visited : list T := [] in
    let nodeMap : nodeMap_t :=
      fold_left
        (fun m n => JsMap.set m n (if decide (n = from) then Fin 0 else Infinity, None))
        (getAllNodes graph) [] in
    let p_queue := MinHeap.new compareNodes None in
    let p_queue := MinHeap.insert compareNodes p_queue (mkGraphNode from 0%Z) in
    match dijkstra_loop fuel graph visited nodeMap p_queue with
    | Done nodeMap =>
        match walk_back fuel nodeMap (Some to) [] with
        | Done path => Done (Some (rev path))
        | Throws => Throws
        | Timeout => Timeout
        end
    | Throws => Throws
    | Timeout => Timeout
    end.

(** A path of a graph: a non-empty list of nodes, each next one a
    neighbor of the one before; its weight adds the weight of the first
    adjacency entry leading to each next node. *)
Definition neighbors_of (g : adjacency) (u : T) : list T :=
  map node (default [] (JsMap.get g u)).

Inductive path_to (g : adjacency) (start : T) : list T -> T -> Prop :=
| path_start : path_to g start [start] start
| path_step p u v :
    path_to g start p u -> v ∈ neighbors_of g u -> path_to g start (p ++ [v]) v.

Definition edge_weight_of (g : adjacency) (u v : T) : option Z :=
  weight <$> find (fun e => bool_decide (node e = v)) (default [] (JsMap.get g u)).

Fixpoint path_weight (g : adjacency) (p : list T) : option Z :=
  match p with
  | [] => None
  | [_] => Some 0%Z
  | u :: (v :: _) as p' =>
      match edge_weight_of g u v, path_weight g p' with
      | Some w, Some r => Some (w + r)%Z
      | _, _ => None
      end
  end.

End Defs.

(** The graph of the example usage. *)
Definition cityMap : list (string * list (GraphNode string)) :=
  let add u v w g := snd (addEdge g u v (Some w) None) in
  add "E" "Z" 3%Z (add "D" "Z" 6%Z (add "D" "E" 2%Z (add "C" "E" 10%Z
  (add "C" "D" 8%Z (add "B" "D" 5%Z (add "B" "C" 1%Z (add "A" "C" 2%Z
  (add "A" "B" 4%Z (new None))))))))).

End Graph.

(** ** The depth-first search of [Stack.ts], with a Stack in place of the
    recursion *)

Module StackSearch.
Section Defs.
Context {T : Type} `{JsKey T}.
Import Graph.

(** The [for] loop over the neighbors of the visited node. *)
Definition push_neighbors (path : list T) (ns : list (GraphNode T))
    (visited : list T) (stack : list (T * list T)) : list (T * list T) :=
  fold_left
    (fun stack neighbor =>
       if negb (JsSet.has visited (node neighbor))
       then Stack.push stack (node neighbor, path ++ [node neighbor])
       else stack)
    ns stack.

(** [while (!stack.isEmpty())]. Destructuring the [null] of an empty
    [pop] throws. *)
Fixpoint DFS_loop (fuel : nat) (graph : adjacency) (target : T)
    (stack : list (T * list T)) (visited : list T)
    : outcome (option (list T)) :=
  match fuel with
  | 0 => Timeout
  | S fuel' =>
      if Stack.isEmpty stack then Done None
      else
        match Stack.pop stack with
        | (Some (node, path), stack) =>
            if JsSet.has visited node
            then DFS_loop fuel' graph target stack visited
            else
              let visited := JsSet.add visited node in
              if decide (node = target) then Done (Some path)
              else
                DFS_loop fuel' graph target
                  (push_neighbors path (default [] (getNeighbors graph node))
                     visited stack)
                  visited
        | (None, _) => Throws
        end
  end.

Definition DFS (fuel : nat) (graph : adjacency) (start target : T)
    : outcome (option (list T)) :=
  let stack := Stack.new (Some [(start, [start])]) in
  let visited : list T := [] in
  DFS_loop fuel graph target stack visited.
End Defs.
End StackSearch.

(** ** LinkedList *)

Module LinkedList.
Section Defs.
Context {T : Type} `{EqDecision T}.

(** The identity of a Node object: its position in the store of all
    allocated Nodes. *)
Definition ref : Type := nat.

(** Modelled from the spec: the class [Node] of [Node.js], which is not
    among the sources: a cell [{ data, next }] whose [next] is another Node
    or [null]; [new Node(value)] has [next] equal to [null]. *)
Record Node : Type := mkNode { data : T; next : option ref }.

Definition store : Type := list Node.

Definition alloc (s : store) (value : T) : ref * store :=
  (length s, s ++ [mkNode value None]).

(** [n.next] for a Node or [null]; [null.next] throws. *)
Definition next_of (s : store) (n : ref) : option ref :=
  n' ← s !! n; next n'.

(** [n.next = v] *)
Definition set_next (s : store) (n : ref) (v : option ref) : store :=
  match s !! n with
  | Some c => <[n := mkNode (data c) v]> s
  | None => s
  end.

Record t : Type := mk { _head : option ref; _tail : option ref; _size : Z }.

Definition empty : t := mk None None 0.

Definition insert (s : store) (l : t) (value : T) : outcome (store * t) :=
  let '(newNode, s) := alloc s value in
  match _head l with
  | None => Done (s, mk (Some newNode) (Some newNode) (_size l + 1))
  | Some _ =>
      match _tail l with
      | Some tl => Done (set_next s tl (Some newNode),
                         mk (_head l) (Some newNode) (_size l + 1))
      | None => Throws
      end
  end.

(** [new LinkedList(...args)] *)
Fixpoint new (s : store) (l : t) (args : list T) : outcome (store * t) :=
  match args with
  | [] => Done (s, l)
  | value :: rest =>
      match insert s l value with
      | Done (s, l) => new s l rest
      | Throws => Throws
      | Timeout => Timeout
      end
  end.

(** The scan of [delete] and [deleteBy] from [curr]:
    [while (curr.next !== null)]. *)
Fixpoint delete_scan (fuel : nat) (matches : T -> bool) (s : store) (l : t)
    (curr : ref) : outcome (bool * store * t) :=
  match fuel with
  | 0 => Timeout
  | S fuel' =>
      match s !! curr with
      | None => Throws
      | Some c =>
          match next c with
          | None => Done (false, s, l)
          | Some nx =>
              match s !! nx with
              | None => Throws
              | Some n =>
                  if matches (data n) then
                    let s := set_next s curr (next n) in
                    let l := match next n with
                             | None => mk (_head l) (Some curr) (_size l)
                             | Some _ => l
                             end in
                    Done (true, s, mk (_head l) (_tail l) (_size l - 1))
                  else delete_scan fuel' matches s l nx
              end
          end
      end
  end.

Definition deleteBy (fuel : nat) (s : store) (l : t) (filterFn : T -> bool)
    : outcome (bool * store * t) :=
  match _head l with
  | None => Done (false, s, l)
  | Some h =>
      match s !! h with
      | None => Throws
      | Some hd =>
          if filterFn (data hd) then
            let l := mk (next hd) (_tail l) (_size l) in
            let l := match _head l with
                     | None => mk (_head l) (_head l) (_size l)
                     | Some _ => l
                     end in
            Done (true, s, mk (_head l) (_tail l) (_size l - 1))
          else delete_scan fuel filterFn s l h
      end
  end.

Definition delete (fuel : nat) (s : store) (l : t) (value : T)
    : outcome (bool * store * t) :=
  deleteBy fuel s l (fun d => bool_decide (d = value)).

(** [while (curr.next && curr.next.next) curr = curr.next] *)
Fixpoint pop_scan (fuel : nat) (s : store) (curr : ref) : outcome ref :=
  match fuel with
  | 0 => Timeout
  | S fuel' =>
      match s !! curr with
      | None => Throws
      | Some c =>
          match next c with
          | None => Done curr
          | Some nx =>
              match s !! nx with
              | None => Throws
              | Some n =>
                  match next n with
                  | None => Done curr
                  | Some _ => pop_scan fuel' s nx
                  end
              end
          end
      end
  end.

(** [pop()]: the value of the tail, [undefined] ([None]) on an empty
    list. *)
Definition pop (fuel : nat) (s : store) (l : t) : outcome (option T * store * t) :=
  match _tail l, _head l with
  | Some tl, Some h =>
      let tail := data <$> s !! tl in
      match pop_scan fuel s h with
      | Done curr =>
          let s := set_next s curr None in
          Done (tail, s, mk (_head l) (Some curr) (_size l - 1))
      | Throws => Throws
      | Timeout => Timeout
      end
  | _, _ => Done (None, s, l)
  end.

(** [shift()]: the removed Node, [undefined] ([None]) on an empty list. *)
Definition shift (s : store) (l : t) : outcome (option ref * store * t) :=
  match _head l with
  | None => Done (None, s, l)
  | Some h =>
      let shifted := h in
      Done (Some shifted, s, mk (next_of s h) (_tail l) (_size l - 1))
  end.

(** The first loop of [cycle]: [while (fast && fast.next)]; the result is
    [met] with the final [fast]. *)
Fixpoint cycle_meet (fuel : nat) (s : store) (slow fast : option ref)
    : outcome (bool * option ref) :=
  match fuel with
  | 0 => Timeout
  | S fuel' =>
      match fast with
      | None => Done (false, fast)
      | Some f =>
          match next_of s f with
          | None => Done (false, fast)
          | Some fn =>
              match slow with
              | None => Throws
              | Some sl =>
                  let slow := next_of s sl in
                  let fast := next_of s fn in
                  if bool_decide (slow = fast) then Done (true, fast)
                  else cycle_meet fuel' s slow fast
              end
          end
      end
  end.

(** The second loop of [cycle]: [while (slow !== fast)]. *)
Fixpoint cycle_entry (fuel : nat) (s : store) (slow fast : option ref)
    : outcome (option ref) :=
  match fuel with
  | 0 => Timeout
  | S fuel' =>
      if bool_decide (slow = fast) then Done slow
      else
        match slow, fast with
        | Some sl, Some f => cycle_entry fuel' s (next_of s sl) (next_of s f)
        | _, _ => Throws
        end
  end.

(** [cycle(root)]: the Node where the cycle begins, or [null]. *)
Definition cycle (fuel : nat) (s : store) (root : option ref)
    : outcome (option ref) :=
  match root with
  | None => Done None
  | Some _ =>
      match cycle_meet fuel s root root with
      | Done (false, _) => Done None
      | Done (true, fast) => cycle_entry fuel s root fast
      | Throws => Throws
      | Timeout => Timeout
      end
  end.

(** The loop of [from]: [while (tail.next)]; the result is the store,
    [tail] and [count]. *)
Fixpoint from_walk (fuel : nat) (s : store) (cycle : option ref)
    (visited : bool) (tail : ref) (count : Z) : outcome (store * ref * Z) :=
  match fuel with
  | 0 => Timeout
  | S fuel' =>
      match next_of s tail with
      | None => Done (s, tail, count)
      | Some nx =>
          if bool_decide (cycle = Some nx) then
            if visited then Done (set_next s tail None, tail, count)
            else from_walk fuel' s cycle true nx (count + 1)
          else from_walk fuel' s cycle visited nx (count + 1)
      end
  end.

(** [LinkedList.from(root)] *)
Definition from (fuel : nat) (s : store) (root : ref) : outcome (store * t) :=
  match cycle fuel s (Some root) with
  | Done cycle =>
      let visited := false in
      match from_walk fuel s cycle visited root 1 with
      | Done (s, tail, count) => Done (s, mk (Some root) (Some tail) count)
      | Throws => Throws
      | Timeout => Timeout
      end
  | Throws => Throws
  | Timeout => Timeout
  end.

(** The Nodes reached from [n] following [next], as the iterator and
    [toString] visit them; [None] when the walk does not end within [fuel]
    steps. *)
Fixpoint reachable (fuel : nat) (s : store) (n : option ref) : option (list ref) :=
  match n with
  | None => Some []
  | Some r =>
      match fuel with
      | 0 => None
      | S fuel' => (r ::.) <$> reachable fuel' s (next_of s r)
      end
  end.

(** The values of the list in order. *)
Definition values (fuel : nat) (s : store) (l : t) : option (list T) :=
  rs ← reachable fuel s (_head l);
  mapM (fun r => data <$> s !! r) rs.

(** [peek()] and [peekFirst()]: [this._tail?.data], [this._head?.data];
    [undefined] ([None]) when the reference is [null]. *)
Definition peek (s : store) (l : t) : option T :=
  tl ← _tail l; data <$> s !! tl.

Definition peekFirst (s : store) (l : t) : option T :=
  h ← _head l; data <$> s !! h.

Definition isEmpty (l : t) : bool := bool_decide (_size l = 0%Z).

(** The loop of [search]: [while (curr !== null)]. *)
Fixpoint search_loop (fuel : nat) (value : T) (s : store)
    (curr : option ref) : outcome bool :=
  match curr with
  | None => Done false
  | Some c =>
      match fuel with
      | 0 => Timeout
      | S fuel' =>
          match s !! c with
          | None => Throws
          | Some n =>
              if bool_decide (data n = value) then Done true
              else search_loop fuel' value s (next n)
          end
      end
  end.

Definition search (fuel : nat) (s : store) (l : t) (value : T) : outcome bool :=
  search_loop fuel value s (_head l).

(** The loop of [find]; the first value that satisfies [predicate], [null]
    ([None]) when the chain ends without one. *)
Fixpoint find_loop (fuel : nat) (predicate : T -> bool) (s : store)
    (curr : option ref) : outcome (option T) :=
  match curr with
  | None => Done None
  | Some c =>
      match fuel with
      | 0 => Timeout
      | S fuel' =>
          match s !! c with
          | None => Throws
          | Some n =>
              if predicate (data n) then Done (Some (data n))
              else find_loop fuel' predicate s (next n)
          end
      end
  end.

Definition find (fuel : nat) (s : store) (l : t) (predicate : T -> bool)
    : outcome (option T) :=
  find_loop fuel predicate s (_head l).

End Defs.
Arguments Node : clear implicits.
Arguments store : clear implicits.
End LinkedList.

(** ** Queue, on its Nodes

    The class [Queue] as the source has it: [#head], [#tail] and [_size]
    over the Nodes of the store. The module [Queue] above is its reading as
    a list of items; [queue_models] below relates the two. *)

Module QueueNodes.
Section Defs.
Context {T : Type}.

Record t : Type := mk { _head : option LinkedList.ref; _tail : option LinkedList.ref; _size : Z }.

Definition empty : t := mk None None 0.

(** [this.#tail!.next = newNode] throws when [#tail] is [null]. *)
Definition enqueue (s : LinkedList.store T) (q : t) (value : T) : outcome (LinkedList.store T * t) :=
  let '(newNode, s) := LinkedList.alloc s value in
  match _head q with
  | None => Done (s, mk (Some newNode) (Some newNode) (_size q + 1))
  | Some _ =>
      match _tail q with
      | Some tl => Done (LinkedList.set_next s tl (Some newNode),
                         mk (_head q) (Some newNode) (_size q + 1))
      | None => Throws
      end
  end.

(** [new Queue(...args)] *)
Fixpoint new (s : LinkedList.store T) (q : t) (args : list T) : outcome (LinkedList.store T * t) :=
  match args with
  | [] => Done (s, q)
  | val :: rest =>
      match enqueue s q val with
      | Done (s, q) => new s q rest
      | Throws => Throws
      | Timeout => Timeout
      end
  end.

Definition size (q : t) : Z := _size q.

(** [null] ([None]) on the empty queue. *)
Definition dequeue (s : LinkedList.store T) (q : t) : outcome (option T * t) :=
  match _head q with
  | Some h =>
      match s !! h with
      | Some hd =>
          let val := LinkedList.data hd in
          Done (Some val, mk (LinkedList.next hd) (_tail q) (_size q - 1))
      | None => Throws
      end
  | None => Done (None, q)
  end.

Definition peek (s : LinkedList.store T) (q : t) : outcome (option T) :=
  match _head q with
  | Some h =>
      match s !! h with
      | Some hd => Done (Some (LinkedList.data hd))
      | None => Throws
      end
  | None => Done None
  end.

Definition isEmpty (q : t) : bool := bool_decide (_head q = None).

(** A sequence of calls on one queue, with the values returned by the
    [dequeue] calls in order. *)
Inductive op : Type := Enqueue (value : T) | Dequeue.

Fixpoint run (ops : list op) (s : LinkedList.store T) (q : t)
    : outcome (list (option T) * LinkedList.store T * t) :=
  match ops with
  | [] => Done ([], s, q)
  | Enqueue value :: ops' =>
      match enqueue s q value with
      | Done (s, q) => run ops' s q
      | Throws => Throws
      | Timeout => Timeout
      end
  | Dequeue :: ops' =>
      match dequeue s q with
      | Done (val, q) =>
          match run ops' s q with
          | Done (out, s, q) => Done (val :: out, s, q)
          | Throws => Throws
          | Timeout => Timeout
          end
      | Throws => Throws
      | Timeout => Timeout
      end
  end.
End Defs.
Arguments t : clear implicits.
Arguments op : clear implicits.
End QueueNodes.

(** * Vocabulary of the statements and invariants *)

(** ** Comparators

    What the heap and the min/max stack need of a comparator that is a
    total order: the signs of [compare a b] and [compare b a] are opposite,
    and "not after" ([compare a b <= 0]) is transitive. *)

Record total_order {T : Type} (compare : T -> T -> Z) : Prop := {
  cmp_flip : forall a b, (0 < compare a b)%Z <-> (compare b a < 0)%Z;
  cmp_trans : forall a b c,
    (compare a b <= 0)%Z -> (compare b c <= 0)%Z -> (compare a c <= 0)%Z
}.

Section Order.
Context {T : Type} (compare : T -> T -> Z).

Definition not_after (a b : T) : Prop := (compare a b <= 0)%Z.

(** [m] is a least, [M] a greatest element of [l]. *)
Definition least (m : T) (l : list T) : Prop :=
  m ∈ l /\ forall y, y ∈ l -> (compare m y <= 0)%Z.

Definition greatest (M : T) (l : list T) : Prop :=
  M ∈ l /\ forall y, y ∈ l -> (compare y M <= 0)%Z.
End Order.

(** ** MinHeap: heap order *)

Section HeapOrder.
Context {T : Type} (compare : T -> T -> Z).
Import MinHeap.

(** The element at [p], if any, is not after the element at [c], if any. *)
Definition ordered_at (h : list T) (p c : nat) : Prop :=
  forall x y, h !! p = Some x -> h !! c = Some y -> (compare x y <= 0)%Z.

(** Heap order on the links whose parent index is at least [k]; with
    [k = 0] the invariant of the heap:
    [compare(heap[parent(i)], heap[i]) <= 0] for every index [i > 0]. *)
Definition heap_from (k : nat) (h : list T) : Prop :=
  forall c, 0 < c -> k <= parent c -> ordered_at h (parent c) c.

Definition heap_ordered (h : list T) : Prop := heap_from 0 h.

(** The state of [heapifyDown] when it stands at [i]: heap order from [k]
    on holds on all links except those below [i], and the parent of [i]
    is not after the children of [i]. *)
Definition sink_inv (k : nat) (h : list T) (i : nat) : Prop :=
  (forall c, 0 < c -> k <= parent c -> parent c <> i -> ordered_at h (parent c) c) /\
  (0 < i -> k <= parent i ->
   forall c, 0 < c -> parent c = i -> ordered_at h (parent i) c).

(** The state of [heapifyUp] when it stands at [i]: heap order holds on all
    links except the one above [i], and the parent of [i] is not after the
    children of [i]. *)
Definition swim_inv (h : list T) (i : nat) : Prop :=
  (forall c, 0 < c -> c <> i -> ordered_at h (parent c) c) /\
  (0 < i -> forall c, 0 < c -> parent c = i -> ordered_at h (parent i) c).
End HeapOrder.

(** ** MinMaxStack: what the shadow stacks record *)

Section Shadow.
Context {T : Type} (compare : T -> T -> Z).

(** The shadow stacks record, at each depth, a least and a greatest element
    of the primary stack up to that depth. *)
Inductive shadowed : list T -> list T -> list T -> Prop :=
| shadowed_nil : shadowed [] [] []
| shadowed_snoc s mn mx x m M :
    shadowed s mn mx ->
    least compare m (s ++ [x]) -> greatest compare M (s ++ [x]) ->
    shadowed (s ++ [x]) (mn ++ [m]) (mx ++ [M]).

Definition tracked (s : MinMaxStack.t T) : Prop :=
  shadowed (MinMaxStack.stack s) (MinMaxStack.minStack s) (MinMaxStack.maxStack s).
End Shadow.

(** ** BreathFirstSearch: results and the state of the loop *)

Section BfsSpec.
Context {T : Type} `{JsKey T}.
Import Graph.
Variable adj : @adjacency T.
Variable start target : T.

(** What a result of the search has to be: a path from [start] to [target]
    with the least number of nodes, or [null] when there is no path. *)
Definition bfs_result_ok (r : option (list T)) : Prop :=
  match r with
  | Some p =>
      path_to adj start p target /\
      forall p', path_to adj start p' target -> length p <= length p'
  | None => forall p', ~ path_to adj start p' target
  end.

(** The neighbors that one pass of the [for] loop enqueues: those not yet
    in [visited], each once. *)
Fixpoint fresh (vis : list T) (ns : list T) : list T :=
  match ns with
  | [] => []
  | n :: rest =>
      if JsSet.has vis n then fresh vis rest else n :: fresh (vis ++ [n]) rest
  end.

(** The queue entries of these neighbors, reached through [path]. *)
Definition entries_of (path : list T) (new : list T) : list (T * list T) :=
  map (fun n => (n, path ++ [n])) new.

(** The state of the loop: [done] are the nodes dequeued so far, the
    queue holds first the entries [q1] of the level [k] being processed
    (their paths have [k] nodes) and then the entries [q2] of the next
    level. *)
Record bfs_inv (k : nat) (done : list T) (q1 q2 : list (T * list T))
    (st : bfs_state) : Prop := {
  inv_items : Queue.items (queue st) = q1 ++ q2;
  inv_size : Queue._size (queue st) = Z.of_nat (length (q1 ++ q2));
  inv_visited : visited st = done ++ map fst (q1 ++ q2);
  inv_nodup : NoDup (visited st);
  inv_level : 1 <= k;
  inv_q1 : Forall (fun e => path_to adj start (snd e) (fst e) /\ length (snd e) = k) q1;
  inv_q2 : Forall (fun e => path_to adj start (snd e) (fst e) /\ length (snd e) = S k) q2;
  inv_done : forall u, u ∈ done ->
    u <> target /\ forall w, w ∈ neighbors_of adj u -> w ∈ visited st;
  inv_below : forall p w, path_to adj start p w -> length p < k -> w ∈ done;
  inv_at : forall p w, path_to adj start p w -> length p = k ->
    w ∈ done \/ w ∈ map fst q1;
  inv_cand : forall v, v ∈ visited st -> v = start \/ v ∈ map to (getAllEdges adj)
}.
End BfsSpec.

(** ** The inputs of the examples *)

(** The route [dijkstra] finds on the city graph, and the distance of each
    city from "A". *)
Definition city_route : list string := ["A"; "C"; "B"; "D"; "E"; "Z"]%string.

Definition city_dist (v : string) : Z :=
  if decide (v = "A"%string) then 0
  else if decide (v = "C"%string) then 2
  else if decide (v = "B"%string) then 3
  else if decide (v = "D"%string) then 8
  else if decide (v = "E"%string) then 10
  else 13.

(** A graph whose only edge, from "a" to "b", has weight -1. *)
Definition negative_graph : list (string * list (Graph.GraphNode string)) :=
  snd (Graph.addEdge (Graph.new None) "a" "b" (Some (-1)%Z) (Some false)).

(** The ring [n0 -> n1 -> n2 -> n0] with values 1, 2, 3. *)
Definition ring3 : LinkedList.store Z :=
  [LinkedList.mkNode 1%Z (Some 1); LinkedList.mkNode 2%Z (Some 2);
   LinkedList.mkNode 3%Z (Some 0)].

(** The chain of the example usage: [root -> n2 -> n3 -> n4 -> n2]. *)
Definition rho4 : LinkedList.store Z :=
  [LinkedList.mkNode 1%Z (Some 1); LinkedList.mkNode 2%Z (Some 2);
   LinkedList.mkNode 3%Z (Some 3); LinkedList.mkNode 4%Z (Some 1)].

(** ** LinkedList: the list a chain of Nodes stands for *)

Section ListRep.
Context {T : Type}.
Import LinkedList.

(** Following [next] from [n] visits the Nodes [rs] in order and then
    arrives at [m]. *)
Fixpoint seg (s : store T) (n : option ref) (rs : list ref) (m : option ref)
    : Prop :=
  match rs with
  | [] => n = m
  | r :: rs' => n = Some r /\ exists nd, s !! r = Some nd /\ seg s (next nd) rs' m
  end.

(** A chain that ends in [null]. *)
Definition chain (s : store T) (n : option ref) (rs : list ref) : Prop :=
  seg s n rs None.

(** The Nodes [rs] hold the values [vs]. *)
Definition data_of (s : store T) (rs : list ref) (vs : list T) : Prop :=
  Forall2 (fun r v => data <$> s !! r = Some v) rs vs.

(** The list object [l] stands for the values [vs]: its head starts a
    chain of Nodes holding them, its size is their number and, when there is
    a Node, its tail is the last one. (On an empty list the tail is not
    looked at by any operation; [shift] leaves the removed Node there.) *)
Definition list_rep (s : store T) (l : t) (vs : list T) : Prop :=
  exists rs, chain s (_head l) rs /\ data_of s rs vs /\
             _size l = Z.of_nat (length vs) /\
             (rs <> [] -> _tail l = last rs).

(** [vs] without its first element that satisfies [f], if there is one. *)
Fixpoint remove_first (f : T -> bool) (vs : list T) : option (list T) :=
  match vs with
  | [] => None
  | v :: rest => if f v then Some rest else (v ::.) <$> remove_first f rest
  end.
End ListRep.

(** The list 1, 2, 3 as three Nodes in allocation order. *)
Definition store123 : LinkedList.store Z :=
  [LinkedList.mkNode 1%Z (Some 1); LinkedList.mkNode 2%Z (Some 2);
   LinkedList.mkNode 3%Z None].

Definition list123 : LinkedList.t := LinkedList.mk (Some 0) (Some 2) 3.

(** ** Graphs built by the methods of the class *)

Section GraphShape.
Context {T : Type} `{JsKey T}.
Import Graph.

(** The graphs that [new Graph()] followed by [addNode] and [addEdge]
    calls produces. *)
Inductive built : @adjacency T -> Prop :=
| built_new : built (new None)
| built_addNode g value : built g -> built (snd (addNode g value))
| built_addEdge g from to weight undirected :
    built g -> built (snd (addEdge g from to weight undirected)).

(** The same, with every [addEdge] call undirected (the flag omitted or
    [true]). *)
Inductive built_undirected : @adjacency T -> Prop :=
| undirected_new : built_undirected (new None)
| undirected_addNode g value :
    built_undirected g -> built_undirected (snd (addNode g value))
| undirected_addEdge g from to weight undirected :
    built_undirected g -> default true undirected = true ->
    built_undirected (snd (addEdge g from to weight undirected)).

(** Both ends of every edge are nodes of the graph. *)
Definition closed (g : @adjacency T) : Prop :=
  forall e, e ∈ getAllEdges g ->
            from e ∈ getAllNodes g /\ to e ∈ getAllNodes g.

Definition reverse_edge (e : Edge T) : Edge T :=
  mkEdge (to e) (from e) (edge_weight e).

(** The edges that one [addEdge] call adds. *)
Definition added_edges (from to : T) (weight : option Z)
    (undirected : option bool) : list (Edge T) :=
  mkEdge from to (default 1%Z weight)
  :: (if default true undirected
      then [mkEdge to from (default 1%Z weight)] else []).
End GraphShape.

(** ** Depth-first search *)

Section DfsSpec.
Context {T : Type} `{JsKey T}.
Import Graph.
Variable adj : @adjacency T.
Variable start target : T.

(** What a result of the recursive search has to be. The search turns
    back at a falsy node, so the paths it can find are those whose nodes
    are all truthy: it returns one of them, or [null] when there is
    none. *)
Definition dfs_result_ok (r : option (list T)) : Prop :=
  match r with
  | Some p => path_to adj start p target /\ Forall (fun v => truthy v = true) p
  | None => forall p', path_to adj start p' target ->
                       ~ Forall (fun v => truthy v = true) p'
  end.

(** The [for] loop of [search] over the neighbors [ns] of a node reached
    through [path], on its own. *)
Definition search_each (fuel' : nat) (path : list T)
    : list (GraphNode T) -> list T -> outcome (option (list T) * list T) :=
  fix each (ns : list (GraphNode T)) (visited : list T) :=
    match ns with
    | [] => Done (None, visited)
    | neighbor :: ns' =>
        if negb (JsSet.has visited (node neighbor)) then
          match search fuel' target adj (node neighbor)
                  (path ++ [node neighbor]) visited with
          | Done (Some path_found, visited) => Done (Some path_found, visited)
          | Done (None, visited) => each ns' visited
          | Throws => Throws
          | Timeout => Timeout
          end
        else each ns' visited
    end.

(** The nodes a search from [start] can meet. *)
Definition candidates : list T := start :: map to (getAllEdges adj).

(** What [visited] holds when a call of [search] or a pass of its loop,
    entered with [vis], ends with [vis'] without a path: every node added
    is not the target, and its truthy neighbors are in [vis']. *)
Definition explored (vis vis' : list T) : Prop :=
  forall u, u ∈ vis' -> u ∉ vis ->
    u <> target /\
    forall w, w ∈ neighbors_of adj u -> truthy w = true -> w ∈ vis'.

(** What a call of [search], or a pass of its loop, entered with [vis]
    delivers: a path to the target, or a [visited] set that has grown by
    explored nodes and holds the truthy ones of the nodes [reached]. *)
Definition delivers (vis : list T) (reached : list T)
    (res : outcome (option (list T) * list T)) : Prop :=
  exists r vis',
    res = Done (r, vis') /\ NoDup vis' /\
    (forall x, x ∈ vis' -> x ∈ candidates) /\
    (forall x, x ∈ vis -> x ∈ vis') /\
    match r with
    | Some p => path_to adj start p target /\
                Forall (fun v => truthy v = true) p
    | None =>
        (forall w, w ∈ reached -> truthy w = true -> w ∈ vis') /\
        explored vis vis'
    end.
End DfsSpec.

(** ** The search with a Stack *)

Section StackSearchSpec.
Context {T : Type} `{JsKey T}.
Import Graph.
Variable adj : @adjacency T.
Variable start target : T.

(** What a result of the search has to be: a path from [start] to
    [target], or [null] when there is none. *)
Definition path_result_ok (r : option (list T)) : Prop :=
  match r with
  | Some p => path_to adj start p target
  | None => forall p', ~ path_to adj start p' target
  end.

(** The number of adjacency entries of the nodes not yet visited: a bound
    on the pushes still to come. *)
Definition pushes_left (visited : list T) (g : @adjacency T) : nat :=
  sum_list (map (fun '(k, l) => if bool_decide (k ∈ visited) then 0
                                else length l) g).

(** The state of the loop: every entry of the stack is a node with a
    path to it; a visited node is not the target and each of its neighbors
    is visited or on the stack; [start] is visited or on the stack. *)
Record dfs_inv (stack : list (T * list T)) (visited : list T) : Prop := {
  dfs_paths : Forall (fun e => path_to adj start (snd e) (fst e)) stack;
  dfs_visited : forall u, u ∈ visited ->
    u <> target /\
    forall w, w ∈ neighbors_of adj u -> w ∈ visited \/ w ∈ map fst stack;
  dfs_start : start ∈ visited \/ start ∈ map fst stack
}.
End StackSearchSpec.

(** ** Stacks *)

(** The values returned by [n] calls of [pop] on a stack. *)
Fixpoint pops {T : Type} (n : nat) (s : list T) : list (option T) :=
  match n with
  | 0 => []
  | S n' => fst (Stack.pop s) :: pops n' (snd (Stack.pop s))
  end.

(** ** dijkstra: the state of its loop *)

Section DijkstraSpec.
Context {T : Type} `{JsKey T}.
Import Graph.
Variable g : @adjacency T.
Variable src : T.

(** The adjacency entry [e] of the visited node [u] needs no further
    look: its node is visited, or its recorded distance is not above the
    distance of [u] plus the weight of [e]. *)
Definition settled (visited : list T) (m : nodeMap_t) (u : T)
    (e : GraphNode T) : Prop :=
  node e ∈ visited \/
  exists du pu dv pv,
    JsMap.get m u = Some (Fin du, pu) /\
    JsMap.get m (node e) = Some (Fin dv, pv) /\ (dv <= du + weight e)%Z.

(** From [m] to [m'] every entry stays, no distance grows, and the
    entries of the visited nodes are the same. *)
Definition lowered (visited : list T) (m m' : nodeMap_t) : Prop :=
  forall n d p, JsMap.get m n = Some (d, p) ->
    exists d' p', JsMap.get m' n = Some (d', p') /\ dist_lt d d' = false /\
                  (n ∈ visited -> d' = d /\ p' = p).

(** The state of the loop. [nodeMap] has an entry for each node of the
    graph, with a distance that is not negative, and [src] keeps distance 0
    and no predecessor. A predecessor is a visited node, visited before the
    node itself, that has the node as a neighbor. A node with a distance is
    visited or in the queue; a node of the queue or visited is [src] or has
    a predecessor. The entries of the nodes [R] are settled. *)
Record dj_inv (R visited : list T) (m : nodeMap_t) (h : list (GraphNode T))
    : Prop := {
  dj_keys : forall n, n ∈ getAllNodes g <-> is_Some (JsMap.get m n);
  dj_nonneg : forall n d p, JsMap.get m n = Some (Fin d, p) -> (0 <= d)%Z;
  dj_root : forall d p, JsMap.get m src = Some (d, p) -> d = Fin 0 /\ p = None;
  dj_inf : forall n p, JsMap.get m n = Some (Infinity, p) -> p = None;
  dj_pred : forall n d p, JsMap.get m n = Some (d, Some p) ->
    n ∈ neighbors_of g p /\
    exists i, visited !! i = Some p /\
              forall j, visited !! j = Some n -> i < j;
  dj_finite : forall n d p, JsMap.get m n = Some (Fin d, p) ->
    n ∈ visited \/ n ∈ map node h;
  dj_heap : forall x, x ∈ h ->
    node x = src \/ exists d p, JsMap.get m (node x) = Some (d, Some p);
  dj_visited : forall u, u ∈ visited ->
    u = src \/ exists d p, JsMap.get m u = Some (d, Some p);
  dj_nodup : NoDup visited;
  dj_src : src ∈ visited \/ src ∈ map node h;
  dj_sub : forall u, u ∈ R -> u ∈ visited;
  dj_settled : forall u e, u ∈ R -> e ∈ default [] (JsMap.get g u) ->
    settled visited m u e
}.

(** What [dijkstra] has to return for a target that is a node: a path from
    [src] to it, or the target alone when the graph has no path. *)
Definition dijkstra_result_ok (dst : T) (p : list T) : Prop :=
  path_to g src p dst \/
  (p = [dst] /\ forall p', ~ path_to g src p' dst).
End DijkstraSpec.

(** ** LinkedList: chains that run into a cycle *)

Section Lasso.
Context {T : Type}.
Import LinkedList.

(** Following [next] from [root] visits the distinct Nodes [rs] and then
    arrives again at the Node at index [mu] of [rs], where the cycle
    begins: [mu] Nodes lead to the cycle, the others are on it. *)
Definition lasso (s : store T) (root : ref) (rs : list ref) (mu : nat) : Prop :=
  seg s (Some root) rs (rs !! mu) /\ NoDup rs /\ mu < length rs.

(** The index in [rs] of the Node reached after [k] steps from the root,
    for a cycle of [lam] Nodes. *)
Definition lasso_pos (mu lam k : nat) : nat :=
  if k <? mu then k else mu + (k - mu) mod lam.
End Lasso.

(** The chain of the example usage as a lasso. *)
Definition rho4_nodes : list LinkedList.ref := [0; 1; 2; 3].

(** A graph with a detour: A - M - N - T with weights 2, 2, 2 and
    A - P - T with weights 3, 1, built as in the example usage. *)
Definition detour : list (string * list (Graph.GraphNode string)) :=
  let add u v w g := snd (Graph.addEdge g u v (Some w) None) in
  add "P" "T" 1%Z (add "A" "P" 3%Z (add "N" "T" 2%Z (add "M" "N" 2%Z
  (add "A" "M" 2%Z (Graph.new None))))).

(** ** Queues

    The queue object [q] stands for the values [vs], front first: as for a
    list, with [#head], [#tail] and [_size] in the places of [_head],
    [_tail] and [_size]. *)

Definition queue_rep {T : Type} (s : LinkedList.store T) (q : QueueNodes.t)
    (vs : list T) : Prop :=
  list_rep s (LinkedList.mk (QueueNodes._head q) (QueueNodes._tail q)
                (QueueNodes._size q)) vs.

(** The list reading [a] of a queue agrees with the queue object [q]. *)
Definition queue_models {T : Type} (s : LinkedList.store T) (q : QueueNodes.t)
    (a : Queue.t T) : Prop :=
  queue_rep s q (Queue.items a) /\ Queue._size a = QueueNodes._size q.

(** The values given to the [enqueue] calls of a sequence. *)
Fixpoint enqueued {T : Type} (ops : list (QueueNodes.op T)) : list T :=
  match ops with
  | [] => []
  | QueueNodes.Enqueue v :: ops' => v :: enqueued ops'
  | QueueNodes.Dequeue :: ops' => enqueued ops'
  end.

(** The values returned by [dequeue] calls, without the [null]s. *)
Definition dequeued {T : Type} (out : list (option T)) : list T :=
  omap id out.

Definition queue123 : QueueNodes.t := QueueNodes.mk (Some 0) (Some 2) 3.

(** The values given to the [insert] calls of a sequence of heap
    operations. *)
Fixpoint inserted {T : Type} (ops : list (@MinHeap.op T)) : list T :=
  match ops with
  | [] => []
  | MinHeap.Insert v :: ops' => v :: inserted ops'
  | MinHeap.PopMin :: ops' => inserted ops'
  end.

(** * Properties *)

(** ** dijkstra *)

Section DijkstraFacts.
Context {T : Type} `{JsKey T}.
Import Graph.

(** More fuel does not change the result of a loop that has ended. *)
Lemma dijkstra_loop_mono (n m : nat) (g : adjacency) (vis : list T)
    (nm : nodeMap_t) (pq : list (GraphNode T)) (r : nodeMap_t) :
  dijkstra_loop n g vis nm pq = Done r -> n <= m ->
  dijkstra_loop m g vis nm pq = Done r.
Proof.
  revert m vis nm pq. induction n as [|n IH]; intros m vis nm pq Hr Hle.
  - discriminate.
  - destruct m as [|m]; [lia|]. cbn [dijkstra_loop] in *.
    destruct (MinHeap.isEmpty pq); [exact Hr|].
    destruct (MinHeap.popMin compareNodes pq) as [[sel|] pq']; [|exact Hr].
    destruct (relax _ _ _ _ _) as [[nm' pq'']| |]; try discriminate.
    apply IH; [exact Hr|lia].
Qed.

Lemma walk_back_mono (n m : nat) (nm : nodeMap_t) (c : option T)
    (p r : list T) :
  walk_back n nm c p = Done r -> n <= m -> walk_back m nm c p = Done r.
Proof.
  revert m c p. induction n as [|n IH]; intros m c p Hr Hle.
  - destruct c; [discriminate|]. destruct m; exact Hr.
  - destruct m as [|m]; [lia|]. destruct c as [c|]; [|exact Hr]. simpl in *.
    destruct (JsMap.get nm c) as [[d pred]|]; [|discriminate].
    apply IH; [exact Hr|lia].
Qed.

Lemma dijkstra_mono (n m : nat) (g : adjacency) (a b : T)
    (r : option (list T)) :
  dijkstra n g a b = Done r -> n <= m -> dijkstra m g a b = Done r.
Proof.
  unfold dijkstra. intros Hr Hle.
  destruct (existsb _ _); [exact Hr|].
  destruct (dijkstra_loop n _ _ _ _) as [nm| |] eqn:Hloop; try discriminate.
  rewrite (dijkstra_loop_mono _ _ _ _ _ _ _ Hloop Hle).
  destruct (walk_back n nm (Some b) []) as [p| |] eqn:Hw; try discriminate.
  rewrite (walk_back_mono _ _ _ _ _ _ Hw Hle). exact Hr.
Qed.

(** A path ends in the node it leads to. *)
Lemma path_to_last (g : adjacency) (a : T) (p : list T) (v : T) :
  path_to g a p v -> exists q, p = q ++ [v].
Proof. destruct 1; [exists []; reflexivity | eauto]. Qed.

Lemma path_weight_cons (g : adjacency) (x y : T) (r : list T) :
  path_weight g (x :: y :: r) =
  match edge_weight_of g x y, path_weight g (y :: r) with
  | Some w, Some s => Some (w + s)%Z
  | _, _ => None
  end.
Proof. reflexivity. Qed.

Lemma path_weight_snoc (g : adjacency) (q : list T) (u v : T) (w e : Z) :
  path_weight g (q ++ [u]) = Some w -> edge_weight_of g u v = Some e ->
  path_weight g ((q ++ [u]) ++ [v]) = Some (w + e)%Z.
Proof.
  revert w. induction q as [|x q IH]; intros w Hw He.
  - simpl in *. rewrite He. injection Hw as <-. f_equal. lia.
  - change (path_weight g (x :: (q ++ [u])) = Some w) in Hw.
    change (path_weight g (x :: ((q ++ [u]) ++ [v])) = Some (w + e)%Z).
    destruct (q ++ [u]) as [|y r] eqn:E; [destruct q; discriminate|].
    change ((y :: r) ++ [v]) with (y :: (r ++ [v])) in *.
    rewrite path_weight_cons in *.
    destruct (edge_weight_of g x y) as [wxy|]; [|discriminate].
    destruct (path_weight g (y :: r)) as [s|]; [|discriminate].
    injection Hw as <-.
    rewrite (IH s eq_refl He). f_equal. lia.
Qed.
End DijkstraFacts.

Section CityMap.
Import Graph.

Lemma city_edge (u v : string) :
  v ∈ neighbors_of cityMap u ->
  exists e, edge_weight_of cityMap u v = Some e /\ (city_dist v <= city_dist u + e)%Z.
Proof.
  unfold neighbors_of, edge_weight_of.
  set (c := cityMap). vm_compute in c. subst c. cbn [JsMap.get].
  repeat case_decide; subst; cbn.
  all: intros Hv; repeat (apply elem_of_cons in Hv as [->|Hv]);
    try (by apply elem_of_nil in Hv).
  all: eexists; split; [vm_compute; reflexivity | by vm_compute].
Qed.

(** Every path from "A" weighs at least the distance of its end. *)
Lemma city_path_bound (p : list string) (v : string) :
  path_to cityMap "A"%string p v ->
  exists w, path_weight cityMap p = Some w /\ (city_dist v <= w)%Z.
Proof.
  induction 1 as [|p u v Hp [w [Hw Hle]] Hv].
  - exists 0%Z. split; [reflexivity | by vm_compute].
  - destruct (city_edge u v Hv) as [e [He Hd]].
    destruct (path_to_last _ _ _ _ Hp) as [q ->].
    exists (w + e)%Z. split; [by apply path_weight_snoc | lia].
Qed.

Lemma city_route_path : path_to cityMap "A"%string city_route "Z"%string.
Proof.
  unfold city_route.
  change (path_to cityMap "A" ((((([ "A" ] ++ ["C"]) ++ ["B"]) ++ ["D"]) ++ ["E"]) ++ ["Z"]) "Z")%string.
  repeat (eapply path_step; [|shelve]).
  apply path_start.
  Unshelve. all: vm_compute; repeat constructor.
Qed.
End CityMap.

Section DijkstraClaims.
Import Graph.

Lemma city_run : dijkstra 11 cityMap "A"%string "Z"%string = Done (Some city_route).
Proof. vm_compute. reflexivity. Qed.

Lemma city_route_weight : path_weight cityMap city_route = Some 13%Z.
Proof. vm_compute. reflexivity. Qed.

Lemma dijkstra_unique {T : Type} `{JsKey T} (n m : nat) (g : adjacency)
    (a b : T) (r1 r2 : option (list T)) :
  dijkstra n g a b = Done r1 -> dijkstra m g a b = Done r2 -> r1 = r2.
Proof.
  intros H1 H2.
  pose proof (dijkstra_mono _ (max n m) _ _ _ _ H1 (Nat.le_max_l _ _)) as H3.
  pose proof (dijkstra_mono _ (max n m) _ _ _ _ H2 (Nat.le_max_r _ _)) as H4.
  congruence.
Qed.

(** C1, as stated, fails: no run of [dijkstra] on the city graph returns
    a route from "A" to "Z" of total weight 11. *)
Lemma C1_city_route_weight_is_not_11 :
  ~ exists (fuel : nat) (p : list string),
      dijkstra fuel cityMap "A"%string "Z"%string = Done (Some p) /\
      path_weight cityMap p = Some 11%Z.
Proof.
  intros (fuel & p & Hrun & Hw).
  pose proof (dijkstra_unique _ _ _ _ _ _ _ Hrun city_run) as Hp.
  injection Hp as ->.
  rewrite city_route_weight in Hw. discriminate Hw.
Qed.

(** C1, amended: on the city graph [dijkstra] from "A" to "Z" returns the
    route A, C, B, D, E, Z; it is a path of the graph, its total weight is
    13, and no path from "A" to "Z" weighs less. *)
Theorem C1_city_route (fuel : nat) :
  11 <= fuel ->
  dijkstra fuel cityMap "A"%string "Z"%string = Done (Some city_route) /\
  path_to cityMap "A"%string city_route "Z"%string /\
  path_weight cityMap city_route = Some 13%Z /\
  (forall p, path_to cityMap "A"%string p "Z"%string ->
             exists w, path_weight cityMap p = Some w /\ (13 <= w)%Z).
Proof.
  intros Hfuel. split; [|split; [|split]].
  - exact (dijkstra_mono _ _ _ _ _ _ city_run Hfuel).
  - exact city_route_path.
  - exact city_route_weight.
  - intros p Hp. exact (city_path_bound p _ Hp).
Qed.

Lemma C1_city_route_witness :
  dijkstra 11 cityMap "A"%string "Z"%string = Done (Some city_route) /\
  path_to cityMap "A"%string city_route "Z"%string /\
  path_weight cityMap city_route = Some 13%Z /\
  (forall p, path_to cityMap "A"%string p "Z"%string ->
             exists w, path_weight cityMap p = Some w /\ (13 <= w)%Z).
Proof. apply (C1_city_route 11). lia. Defined.

(** C2: on a graph with an edge of negative weight [dijkstra] returns
    [null] for every pair of nodes, before any search. *)
Theorem C2_dijkstra_negative_edge {T : Type} `{JsKey T} (fuel : nat)
    (g : adjacency) (a b : T) (e : Edge T) :
  e ∈ getAllEdges g -> (edge_weight e < 0)%Z ->
  dijkstra fuel g a b = Done None.
Proof.
  intros Hin Hneg. unfold dijkstra.
  assert (existsb (fun edge => bool_decide (edge_weight edge < 0)%Z)
            (getAllEdges g) = true) as ->; [|reflexivity].
  apply existsb_exists. exists e. split.
  - by apply list_elem_of_In.
  - by apply bool_decide_eq_true.
Qed.

Lemma C2_dijkstra_negative_edge_witness :
  dijkstra 0 negative_graph "a"%string "b"%string = Done None.
Proof.
  apply (C2_dijkstra_negative_edge 0 negative_graph "a" "b" (mkEdge "a" "b" (-1)))%string.
  - vm_compute. constructor.
  - reflexivity.
Defined.
End DijkstraClaims.

(** ** Graph: edges and the truthiness guard of the searches *)

Section MapFacts.
Context {K V : Type} `{EqDecision K}.

Lemma get_set_eq (m : list (K * V)) (k : K) (v : V) :
  JsMap.get (JsMap.set m k v) k = Some v.
Proof.
  induction m as [|[k' v'] m IH]; simpl.
  - by rewrite decide_True.
  - destruct (decide (k' = k)) as [->|Hne]; simpl.
    + by rewrite decide_True.
    + by rewrite decide_False.
Qed.

Lemma get_set_ne (m : list (K * V)) (k k' : K) (v : V) :
  k <> k' -> JsMap.get (JsMap.set m k v) k' = JsMap.get m k'.
Proof.
  intros Hne. induction m as [|[k0 v0] m IH]; simpl.
  - by rewrite decide_False.
  - destruct (decide (k0 = k)) as [->|Hne0]; simpl.
    + by rewrite !decide_False.
    + destruct (decide (k0 = k')); [reflexivity | exact IH].
Qed.

Lemma get_keys (m : list (K * V)) (k : K) (v : V) :
  JsMap.get m k = Some v -> k ∈ JsMap.keys m.
Proof.
  induction m as [|[k0 v0] m IH]; simpl; [discriminate|].
  destruct (decide (k0 = k)) as [->|Hne]; intros Hg.
  - constructor.
  - constructor. by apply IH.
Qed.
End MapFacts.

Section GraphClaims.
Context {T : Type} `{JsKey T}.
Import Graph.

Lemma addNode_present (g : adjacency) (x : T) :
  exists l, JsMap.get (snd (addNode g x)) x = Some l.
Proof.
  unfold addNode, JsMap.has.
  destruct (JsMap.get g x) as [l|] eqn:Hg; simpl.
  - eauto.
  - exists []. apply get_set_eq.
Qed.

Lemma addNode_keeps (g : adjacency) (x y : T) (l : list (GraphNode T)) :
  JsMap.get g y = Some l -> JsMap.get (snd (addNode g x)) y = Some l.
Proof.
  unfold addNode, JsMap.has. intros Hy.
  destruct (JsMap.get g x) as [l'|] eqn:Hg; simpl; [exact Hy|].
  rewrite get_set_ne; [exact Hy|]. intros ->. congruence.
Qed.

Lemma push_at_here (g : adjacency) (k : T) (e : GraphNode T)
    (l : list (GraphNode T)) :
  JsMap.get g k = Some l -> JsMap.get (push_at g k e) k = Some (l ++ [e]).
Proof. unfold push_at. intros ->. apply get_set_eq. Qed.

Lemma push_at_grows (g : adjacency) (k k' : T) (e : GraphNode T)
    (l : list (GraphNode T)) :
  JsMap.get g k' = Some l ->
  exists l', JsMap.get (push_at g k e) k' = Some l' /\ forall x, x ∈ l -> x ∈ l'.
Proof.
  intros Hk'. destruct (decide (k = k')) as [->|Hne].
  - exists (l ++ [e]). split; [by apply push_at_here|].
    intros x Hx. apply elem_of_app. by left.
  - exists l. split; [|done]. unfold push_at.
    destruct (JsMap.get g k); [|exact Hk']. by rewrite get_set_ne.
Qed.

(** C8: after [addEdge(u, v, w)] with the undirected flag left at its
    default, the neighbors of [u] contain [{node: v, weight: w}], those of
    [v] contain [{node: u, weight: w}], and both are nodes of the graph
    ([w] is 1 when the weight is omitted). *)
Theorem C8_addEdge_undirected (g : adjacency) (u v : T) (w : option Z) :
  let g' := snd (addEdge g u v w None) in
  (exists lu, getNeighbors g' u = Some lu /\
              mkGraphNode v (default 1%Z w) ∈ lu) /\
  (exists lv, getNeighbors g' v = Some lv /\
              mkGraphNode u (default 1%Z w) ∈ lv) /\
  u ∈ getAllNodes g' /\ v ∈ getAllNodes g'.
Proof.
  cbn zeta. unfold addEdge, getNeighbors, getAllNodes. cbn [snd default].
  set (g1 := snd (addNode g u)).
  set (g2 := snd (addNode g1 v)).
  destruct (addNode_present g u) as [l1 Hl1]. fold g1 in Hl1.
  pose proof (addNode_keeps g1 v u l1 Hl1) as Hu2. fold g2 in Hu2.
  destruct (addNode_present g1 v) as [l2 Hv2]. fold g2 in Hv2.
  set (eu := mkGraphNode v (default 1%Z w)).
  set (ev := mkGraphNode u (default 1%Z w)).
  pose proof (push_at_here g2 u eu l1 Hu2) as Hu3.
  destruct (push_at_grows g2 u v eu l2 Hv2) as (l2' & Hv3 & Hsub2).
  set (g3 := push_at g2 u eu) in *.
  pose proof (push_at_here g3 v ev l2' Hv3) as Hv4.
  destruct (push_at_grows g3 v u ev (l1 ++ [eu]) Hu3) as (l1' & Hu4 & Hsub1).
  assert (eu ∈ l1') as Heu.
  { apply Hsub1, elem_of_app. right. constructor. }
  assert (ev ∈ l2' ++ [ev]) as Hev.
  { apply elem_of_app. right. constructor. }
  split; [eauto|]. split; [eauto|].
  split; eapply get_keys; eassumption.
Qed.

(** C10: a falsy start node makes both searches return [null] at once,
    whatever the adjacency list and the target, the start node being
    tested with [!node]. *)
Theorem C10_falsy_start_returns_null (fuel : nat) (adj : adjacency)
    (start target : T) :
  truthy start = false ->
  DepthFirstSearch fuel adj start target = Done None /\
  BreathFirstSearch fuel adj start target = Done None.
Proof.
  intros Hfalsy. unfold DepthFirstSearch, BreathFirstSearch.
  rewrite Hfalsy. split; reflexivity.
Qed.
End GraphClaims.

(** The number 0 as start and target, present in the adjacency list. *)
Lemma C10_falsy_start_returns_null_witness :
  Graph.DepthFirstSearch 5 [(0%Z, [])] 0%Z 0%Z = Done None /\
  Graph.BreathFirstSearch 5 [(0%Z, [])] 0%Z 0%Z = Done None.
Proof. apply (C10_falsy_start_returns_null 5 [(0%Z, [])] 0%Z 0%Z). reflexivity. Defined.

(** The empty string behaves alike, while a truthy start that is the
    target is found. *)
Example falsy_empty_string :
  Graph.BreathFirstSearch 5 [(""%string, [])] ""%string ""%string = Done None /\
  Graph.BreathFirstSearch 5 [("a"%string, [])] "a"%string "a"%string
    = Done (Some ["a"%string]).
Proof. split; reflexivity. Qed.

(** ** LinkedList *)

Section LinkedListClaims.
Import LinkedList.

(** C4, at the ring whose entry is the root itself: [cycle] finds the
    root, [from] ends and cuts the ring after its last node, the list
    has the three elements 1, 2, 3 and its tail is the third node, but the
    recorded size is 6. *)
Theorem C4_from_ring_size :
  cycle 10 ring3 (Some 0) = Done (Some 0) /\
  exists s l,
    from 10 ring3 0 = Done (s, l) /\
    reachable 10 s (_head l) = Some [0; 1; 2] /\
    values 10 s l = Some [1; 2; 3]%Z /\
    _tail l = Some 2 /\ next_of s 2 = None /\
    _size l = 6%Z.
Proof.
  split; [reflexivity|].
  eexists _, _. split; [vm_compute; reflexivity|].
  repeat split; reflexivity.
Qed.

(** When the entry of the cycle is not the root, as in the example
    usage, the size is the number of elements. *)
Example from_rho4 :
  cycle 10 rho4 (Some 0) = Done (Some 1) /\
  exists s l,
    from 10 rho4 0 = Done (s, l) /\
    values 10 s l = Some [1; 2; 3; 4]%Z /\
    _tail l = Some 3 /\ next_of s 3 = None /\ _size l = 4%Z.
Proof.
  split; [reflexivity|].
  eexists _, _. split; [vm_compute; reflexivity|].
  repeat split; reflexivity.
Qed.

(** C5, at a one-element list: after [pop()] the size is 0 while the
    head still reaches the node that was to be removed; after a [shift()]
    that empties the list the head is [null] and the tail still is the
    removed node. *)
Theorem C5_pop_and_shift_on_single :
  exists s l,
    new [] empty [7%Z] = Done (s, l) /\
    _size l = 1%Z /\ reachable 5 s (_head l) = Some [0] /\
    (exists s' l',
        pop 5 s l = Done (Some 7%Z, s', l') /\
        _size l' = 0%Z /\ reachable 5 s' (_head l') = Some [0] /\
        values 5 s' l' = Some [7%Z]) /\
    (exists s' l',
        shift s l = Done (Some 0, s', l') /\
        _size l' = 0%Z /\ _head l' = None /\ _tail l' = Some 0).
Proof.
  eexists _, _. split; [vm_compute; reflexivity|].
  split; [reflexivity|]. split; [reflexivity|]. split.
  - eexists _, _. split; [vm_compute; reflexivity|]. repeat split; reflexivity.
  - eexists _, _. split; [vm_compute; reflexivity|]. repeat split; reflexivity.
Qed.

(** [delete] of the only element does reset the tail. *)
Example delete_single :
  delete 5 [mkNode 7%Z None] (mk (Some 0) (Some 0) 1) 7%Z
  = Done (true, [mkNode 7%Z None], mk None None 0).
Proof. reflexivity. Qed.
End LinkedListClaims.


Lemma numeric_total_order : total_order numeric.
Proof. split; unfold numeric; intros; lia. Qed.

Section ComparatorFacts.
Context {T : Type} (compare : T -> T -> Z) (Hto : total_order compare).

Lemma cmp_refl (a : T) : (compare a a <= 0)%Z.
Proof.
  destruct (Z_lt_le_dec 0 (compare a a)) as [Hpos|Hle]; [|exact Hle].
  apply (cmp_flip _ Hto) in Hpos. lia.
Qed.

Lemma cmp_not_lt (a b : T) : ~ (compare a b < 0)%Z -> (compare b a <= 0)%Z.
Proof.
  intros Hn. destruct (Z_lt_le_dec 0 (compare b a)) as [Hpos|Hle]; [|exact Hle].
  apply (cmp_flip _ Hto) in Hpos. contradiction.
Qed.

Lemma cmp_not_gt (a b : T) : ~ (0 < compare a b)%Z -> (compare a b <= 0)%Z.
Proof. lia. Qed.

Lemma cmp_gt_le (a b : T) : (0 < compare a b)%Z -> (compare b a <= 0)%Z.
Proof. intros Hpos. apply (cmp_flip _ Hto) in Hpos. lia. Qed.

End ComparatorFacts.

(** ** MinMaxStack *)

Section MinMaxFacts.
Context {T : Type} (compare : T -> T -> Z) (Hto : total_order compare).
Import MinMaxStack.
Local Abbreviation shadowed := (shadowed compare).
Local Abbreviation tracked := (tracked compare).

Lemma shadowed_length (s mn mx : list T) :
  shadowed s mn mx -> length mn = length s /\ length mx = length s.
Proof.
  induction 1 as [|s mn mx x m M _ [IH1 IH2] _ _]; [done|].
  rewrite !length_app. simpl. lia.
Qed.

Lemma top_snoc (l : list T) (x : T) : (l ++ [x]) !! (length (l ++ [x]) - 1) = Some x.
Proof.
  rewrite length_app. simpl.
  replace (length l + 1 - 1) with (length l) by lia.
  by rewrite list_lookup_middle.
Qed.

Lemma least_push_smaller (s : list T) (m x : T) :
  least compare m s -> (compare x m < 0)%Z -> least compare x (s ++ [x]).
Proof.
  intros [_ Hm] Hlt. split.
  - apply elem_of_app. right. constructor.
  - intros y [Hy|Hy]%elem_of_app.
    + apply (cmp_trans _ Hto) with m; [lia | by apply Hm].
    + apply list_elem_of_singleton in Hy as ->. by apply cmp_refl.
Qed.

Lemma least_push_keep (s : list T) (m x : T) :
  least compare m s -> ~ (compare x m < 0)%Z -> least compare m (s ++ [x]).
Proof.
  intros [Hin Hm] Hn. split.
  - apply elem_of_app. by left.
  - intros y [Hy|Hy]%elem_of_app; [by apply Hm|].
    apply list_elem_of_singleton in Hy as ->. by apply cmp_not_lt.
Qed.

Lemma greatest_push_greater (s : list T) (M x : T) :
  greatest compare M s -> (0 < compare x M)%Z -> greatest compare x (s ++ [x]).
Proof.
  intros [_ HM] Hgt. split.
  - apply elem_of_app. right. constructor.
  - intros y [Hy|Hy]%elem_of_app.
    + apply (cmp_trans _ Hto) with M; [by apply HM | by apply cmp_gt_le].
    + apply list_elem_of_singleton in Hy as ->. by apply cmp_refl.
Qed.

Lemma greatest_push_keep (s : list T) (M x : T) :
  greatest compare M s -> ~ (0 < compare x M)%Z -> greatest compare M (s ++ [x]).
Proof.
  intros [Hin HM] Hn. split.
  - apply elem_of_app. by left.
  - intros y [Hy|Hy]%elem_of_app; [by apply HM|].
    apply list_elem_of_singleton in Hy as ->. lia.
Qed.

Lemma least_single (x : T) : least compare x ([] ++ [x]).
Proof.
  split; [constructor|]. intros y Hy.
  apply list_elem_of_singleton in Hy as ->. by apply cmp_refl.
Qed.

Lemma greatest_single (x : T) : greatest compare x ([] ++ [x]).
Proof.
  split; [constructor|]. intros y Hy.
  apply list_elem_of_singleton in Hy as ->. by apply cmp_refl.
Qed.

(** The two updates push a least and a greatest element of the prefix
    extended by the value, whenever the primary stack is not empty. *)
Lemma update_shadowed (st pre mn mx : list T) (x : T) :
  st <> [] -> shadowed pre mn mx ->
  exists m M,
    updateMaxStack compare (updateMinStack compare (mk st mn mx) x) x
      = mk st (mn ++ [m]) (mx ++ [M]) /\
    least compare m (pre ++ [x]) /\ greatest compare M (pre ++ [x]).
Proof.
  intros Hne Hsh.
  assert (Stack.isEmpty st = false) as Hemp.
  { unfold Stack.isEmpty. apply bool_decide_eq_false. by destruct st. }
  destruct Hsh as [|s mn mx x0 m0 M0 Hsh Hm0 HM0].
  - exists x, x. split; [reflexivity|]. split; [apply least_single | apply greatest_single].
  - assert (getMin (mk st (mn ++ [m0]) (mx ++ [M0])) = Some m0) as Hmin.
    { unfold getMin, isEmpty. cbn [stack minStack]. rewrite Hemp. apply top_snoc. }
    assert (forall mn', getMax (mk st mn' (mx ++ [M0])) = Some M0) as Hmax.
    { intros mn'. unfold getMax, isEmpty. cbn [stack maxStack]. rewrite Hemp. apply top_snoc. }
    assert (bool_decide (length (mn ++ [m0]) = 0) = false) as Hl1.
    { apply bool_decide_eq_false. rewrite length_app. simpl. lia. }
    assert (bool_decide (length (mx ++ [M0]) = 0) = false) as Hl2.
    { apply bool_decide_eq_false. rewrite length_app. simpl. lia. }
    unfold updateMinStack. rewrite Hmin. cbn [stack minStack maxStack]. rewrite Hl1.
    cbn [orb option_list].
    destruct (bool_decide (compare x m0 < 0)%Z) eqn:Hlt;
      [apply bool_decide_eq_true in Hlt | apply bool_decide_eq_false in Hlt];
      unfold updateMaxStack; rewrite Hmax; cbn [stack minStack maxStack]; rewrite Hl2;
      cbn [orb option_list];
      (destruct (bool_decide (0 < compare x M0)%Z) eqn:Hgt;
       [apply bool_decide_eq_true in Hgt | apply bool_decide_eq_false in Hgt]).
    + exists x, x. eauto using least_push_smaller, greatest_push_greater.
    + exists x, M0. eauto using least_push_smaller, greatest_push_keep.
    + exists m0, x. eauto using least_push_keep, greatest_push_greater.
    + exists m0, M0. eauto using least_push_keep, greatest_push_keep.
Qed.

Lemma new_tracked (initialValues : option (list T)) :
  tracked (new compare initialValues).
Proof.
  unfold new, Stack.new. set (l := default [] initialValues). clearbody l.
  assert (forall rest pre mn mx,
    l = pre ++ rest -> shadowed pre mn mx ->
    tracked (fold_left (fun s value => updateMaxStack compare (updateMinStack compare s value) value)
               rest (mk l mn mx))) as Hgen.
  { induction rest as [|x rest IH]; intros pre mn mx Hl Hsh.
    - simpl. rewrite app_nil_r in Hl. subst. exact Hsh.
    - simpl.
      destruct (update_shadowed l pre mn mx x) as (m & M & -> & Hm & HM);
        [subst; by destruct pre | exact Hsh |].
      apply (IH (pre ++ [x])); [by rewrite <- app_assoc|].
      by constructor. }
  apply (Hgen l []); [reflexivity | constructor].
Qed.

Lemma push_tracked (s : t T) (value : T) : tracked s -> tracked (push compare s value).
Proof.
  destruct s as [st mn mx]. unfold tracked, push, Stack.push. cbn [stack minStack maxStack].
  intros Hsh.
  destruct (update_shadowed (st ++ [value]) st mn mx value) as (m & M & -> & Hm & HM);
    [by destruct st | exact Hsh |].
  by constructor.
Qed.

Lemma pop_tracked (s : t T) : tracked s -> tracked (snd (pop s)).
Proof.
  destruct s as [st mn mx]. unfold tracked, pop, Stack.pop. cbn [stack minStack maxStack].
  intros Hsh. destruct Hsh as [|s mn mx x m M Hsh _ _].
  - simpl. constructor.
  - rewrite last_snoc. cbn [snd stack minStack maxStack].
    by rewrite !removelast_last.
Qed.

Lemma step_tracked (s : t T) (o : op T) : tracked s -> tracked (step compare s o).
Proof. destruct o; [apply push_tracked | apply pop_tracked]. Qed.

Lemma run_tracked (ops : list (op T)) (s : t T) :
  tracked s -> tracked (fold_left (step compare) ops s).
Proof.
  revert s. induction ops as [|o ops IH]; intros s Hs; [exact Hs|].
  simpl. by apply IH, step_tracked.
Qed.

Lemma tracked_reads (s : t T) :
  tracked s ->
  length (minStack s) = length (stack s) /\
  length (maxStack s) = length (stack s) /\
  (stack s = [] -> getMin s = None /\ getMax s = None) /\
  (stack s <> [] ->
   exists m M, getMin s = Some m /\ least compare m (stack s) /\
               getMax s = Some M /\ greatest compare M (stack s)).
Proof.
  intros Hs. destruct (shadowed_length _ _ _ Hs) as [L1 L2].
  split; [exact L1|]. split; [exact L2|].
  destruct s as [st mn mx]. unfold tracked in Hs. cbn [stack minStack maxStack] in *.
  destruct Hs as [|s mn mx x m M Hsh Hm HM].
  - split; [done|]. intros Hne. by destruct Hne.
  - split; [intros Hnil; by destruct s|]. intros _.
    exists m, M. unfold getMin, getMax, isEmpty, Stack.isEmpty. cbn [stack minStack maxStack].
    rewrite bool_decide_eq_false_2 by (rewrite length_app; simpl; lia).
    cbn [negb]. by rewrite !top_snoc.
Qed.

(** C7: after a [MinMaxStack] is constructed and any sequence of [push]
    and [pop] calls is made, both shadow stacks are as deep as the primary
    stack, [getMin()] and [getMax()] are [null] when it is empty, and
    otherwise a least and a greatest of the elements present. *)
Theorem C7_minmax_tracks (initialValues : option (list T)) (ops : list (op T)) :
  let s := fold_left (step compare) ops (new compare initialValues) in
  length (minStack s) = length (stack s) /\
  length (maxStack s) = length (stack s) /\
  (stack s = [] -> getMin s = None /\ getMax s = None) /\
  (stack s <> [] ->
   exists m M, getMin s = Some m /\ least compare m (stack s) /\
               getMax s = Some M /\ greatest compare M (stack s)).
Proof. cbn zeta. apply tracked_reads, run_tracked, new_tracked. Qed.
End MinMaxFacts.

Lemma C7_minmax_tracks_witness :
  let s := fold_left (MinMaxStack.step numeric)
             [MinMaxStack.Push 5; MinMaxStack.Push 3; MinMaxStack.Push 7;
              MinMaxStack.Push 4; MinMaxStack.Pop]%Z
             (MinMaxStack.new numeric None) in
  length (MinMaxStack.minStack s) = length (MinMaxStack.stack s) /\
  length (MinMaxStack.maxStack s) = length (MinMaxStack.stack s) /\
  (MinMaxStack.stack s = [] ->
   MinMaxStack.getMin s = None /\ MinMaxStack.getMax s = None) /\
  (MinMaxStack.stack s <> [] ->
   exists m M, MinMaxStack.getMin s = Some m /\ least numeric m (MinMaxStack.stack s) /\
               MinMaxStack.getMax s = Some M /\ greatest numeric M (MinMaxStack.stack s)).
Proof. apply (C7_minmax_tracks numeric numeric_total_order). Defined.

(** The example usage: 5, 3, 7, 4 pushed, then one [pop]. *)
Example minmax_example :
  let s := fold_left (MinMaxStack.step numeric)
             [MinMaxStack.Push 5; MinMaxStack.Push 3; MinMaxStack.Push 7;
              MinMaxStack.Push 4]%Z
             (MinMaxStack.new numeric None) in
  MinMaxStack.getMin s = Some 3%Z /\ MinMaxStack.getMax s = Some 7%Z /\
  MinMaxStack.getMin (snd (MinMaxStack.pop s)) = Some 3%Z /\
  MinMaxStack.getMax (snd (MinMaxStack.pop s)) = Some 7%Z.
Proof. repeat split; reflexivity. Qed.


(** ** MinHeap *)

Section HeapIndex.
Import MinHeap.

Lemma parent_children (c i : nat) :
  0 < c -> (parent c = i <-> c = leftChild i \/ c = rightChild i).
Proof.
  unfold parent, leftChild, rightChild. intros Hc.
  pose proof (Nat.div_mod_eq (c - 1) 2) as Hd.
  pose proof (Nat.mod_upper_bound (c - 1) 2) as Hm.
  lia.
Qed.

Lemma parent_lt (c : nat) : 0 < c -> parent c < c.
Proof.
  unfold parent. intros Hc.
  pose proof (Nat.div_mod_eq (c - 1) 2) as Hd. lia.
Qed.
End HeapIndex.

Section SwapFacts.
Context {T : Type}.
Import MinHeap.

Lemma swap_length (h : list T) (i j : nat) : length (swap h i j) = length h.
Proof.
  unfold swap. destruct (h !! i), (h !! j); try reflexivity.
  by rewrite !length_insert.
Qed.

(** Inside the array [swap] exchanges the two positions and leaves the
    others. *)
Lemma swap_lookup (h : list T) (i j k : nat) :
  i < length h -> j < length h ->
  swap h i j !! k =
    if decide (k = i) then h !! j else if decide (k = j) then h !! i else h !! k.
Proof.
  intros Hi Hj. unfold swap.
  destruct (lookup_lt_is_Some_2 h i Hi) as [x Hx].
  destruct (lookup_lt_is_Some_2 h j Hj) as [y Hy].
  rewrite Hx, Hy.
  destruct (decide (k = j)) as [->|Hkj].
  - rewrite list_lookup_insert_eq by (by rewrite length_insert).
    destruct (decide (j = i)) as [->|]; congruence.
  - rewrite list_lookup_insert_ne by done.
    destruct (decide (k = i)) as [->|Hki].
    + by rewrite list_lookup_insert_eq.
    + by rewrite list_lookup_insert_ne.
Qed.

Lemma swap_perm (h : list T) (i j : nat) : swap h i j ≡ₚ h.
Proof.
  destruct (decide (i < length h)) as [Hi|Hi];
    [|unfold swap; rewrite (lookup_ge_None_2 h i) by lia; reflexivity].
  destruct (decide (j < length h)) as [Hj|Hj];
    [|unfold swap; rewrite (lookup_ge_None_2 h j) by lia; by destruct (h !! i)].
  apply Permutation_inj. split; [apply swap_length|].
  exists (fun k => if decide (k = i) then j else if decide (k = j) then i else k).
  split.
  - intros a b. repeat case_decide; intros; subst; congruence.
  - intros k. rewrite swap_lookup by done. repeat case_decide; subst; congruence.
Qed.
End SwapFacts.

Section HeapFacts.
Context {T : Type} (compare : T -> T -> Z) (Hto : total_order compare).
Import MinHeap.
Local Abbreviation ordered_at := (ordered_at compare).
Local Abbreviation heap_from := (heap_from compare).
Local Abbreviation heap_ordered := (heap_ordered compare).
Local Abbreviation sink_inv := (sink_inv compare).
Local Abbreviation swim_inv := (swim_inv compare).
Local Abbreviation not_after := (not_after compare).

Local Ltac cmp_facts :=
  repeat match goal with
  | Hn : ~ (compare ?a ?b < 0)%Z |- _ =>
      lazymatch goal with
      | _ : (compare b a <= 0)%Z |- _ => fail
      | _ => pose proof (cmp_not_lt compare Hto a b Hn)
      end
  | Hl : (compare ?a ?b < 0)%Z |- _ =>
      lazymatch goal with
      | _ : (compare a b <= 0)%Z |- _ => fail
      | _ => assert (compare a b <= 0)%Z by lia
      end
  end.

Local Ltac cmp_solve :=
  cmp_facts;
  first [ assumption
        | apply (cmp_refl compare Hto)
        | eapply (cmp_trans compare Hto); eassumption ].

Lemma smallest_cases (h : list T) (i : nat) :
  smallest compare h i = i \/
  ((smallest compare h i = leftChild i \/ smallest compare h i = rightChild i) /\
   smallest compare h i < length h).
Proof.
  unfold smallest.
  destruct (Nat.ltb_spec (leftChild i) (length h)) as [Hl|Hl];
    destruct (Nat.ltb_spec (rightChild i) (length h)) as [Hr|Hr]; cbn [andb];
    repeat match goal with |- context [less_at ?c ?a ?b ?d] => destruct (less_at c a b d) end;
    auto.
Qed.

(** The index chosen by one pass holds an element not after the elements
    at [i] and at its two children. *)
Lemma smallest_least (h : list T) (i j : nat) :
  j = i \/ j = leftChild i \/ j = rightChild i ->
  ordered_at h (smallest compare h i) j.
Proof.
  intros Hj x y. unfold smallest, less_at.
  assert (leftChild i <> i /\ rightChild i <> i /\ leftChild i <> rightChild i)
    as (Hli & Hri & Hlr) by (unfold leftChild, rightChild; lia).
  destruct (Nat.ltb_spec (leftChild i) (length h)) as [Hl|Hl];
    [|apply lookup_ge_None_2 in Hl];
    (destruct (Nat.ltb_spec (rightChild i) (length h)) as [Hr|Hr];
     [|apply lookup_ge_None_2 in Hr]);
    cbn [andb];
    destruct (h !! i) as [xi|] eqn:Ei;
    destruct (h !! leftChild i) as [xl|] eqn:El;
    destruct (h !! rightChild i) as [xr|] eqn:Er; try discriminate;
    repeat case_bool_decide;
    rewrite ?Ei, ?El, ?Er; repeat case_bool_decide;
    destruct Hj as [-> | [-> | ->] ]; rewrite ?Ei, ?El, ?Er;
    intros; simplify_eq; cmp_solve.
Qed.

(** *** heapifyDown *)

Lemma sink_inv_done (k : nat) (h : list T) (i : nat) :
  sink_inv k h i -> smallest compare h i = i -> heap_from k h.
Proof.
  intros [Ha _] Hs c Hc Hk.
  destruct (decide (parent c = i)) as [Hp|Hp]; [|by apply Ha].
  rewrite Hp. rewrite <- Hs. apply smallest_least.
  right. by apply parent_children.
Qed.

Lemma sink_inv_step (k : nat) (h : list T) (i : nat) :
  k <= i -> sink_inv k h i -> smallest compare h i <> i ->
  sink_inv k (swap h i (smallest compare h i)) (smallest compare h i).
Proof.
  intros Hki [Ha Hb] Hne.
  pose proof (smallest_least h i) as Hleast.
  destruct (smallest_cases h i) as [?|[Hc Hlen]]; [done|].
  set (m := smallest compare h i) in *.
  assert (0 < m /\ parent m = i /\ i < m) as (Hm0 & Hpm & Him).
  { assert (0 < m) by (unfold leftChild, rightChild in Hc; lia).
    split; [done|]. split; [by apply parent_children|].
    unfold leftChild, rightChild in Hc; lia. }
  assert (i < length h) as Hilen by lia.
  split.
  - intros c Hc0 Hkc Hpc x y.
    pose proof (parent_lt c Hc0) as Hplt.
    destruct (decide (parent c = i)) as [Hpi|Hpi].
    + assert (c <> i) by lia.
      destruct (decide (c = m)) as [Hcm|Hcm].
      * rewrite !swap_lookup by done.
        rewrite (decide_True (P := parent c = i)) by done.
        rewrite (decide_False (P := c = i)) by done.
        rewrite (decide_True (P := c = m)) by done.
        apply Hleast. by left.
      * rewrite !swap_lookup by done.
        rewrite (decide_True (P := parent c = i)) by done.
        rewrite (decide_False (P := c = i)) by done.
        rewrite (decide_False (P := c = m)) by done.
        apply Hleast. right. by apply parent_children.
    + destruct (decide (c = i)) as [Hci|Hci].
      * rewrite !swap_lookup by done.
        rewrite (decide_False (P := parent c = i)) by done.
        rewrite (decide_False (P := parent c = m)) by done.
        rewrite (decide_True (P := c = i)) by done.
        subst c. apply Hb; done.
      * assert (c <> m) by congruence.
        rewrite !swap_lookup by done.
        rewrite (decide_False (P := parent c = i)) by done.
        rewrite (decide_False (P := parent c = m)) by done.
        rewrite (decide_False (P := c = i)) by done.
        rewrite (decide_False (P := c = m)) by done. by apply Ha.
  - intros _ _ c Hc0 Hpc x y.
    pose proof (parent_lt c Hc0) as Hplt.
    rewrite !swap_lookup by done.
    rewrite Hpm. rewrite (decide_True (P := i = i)) by done.
    rewrite (decide_False (P := c = i)) by lia.
    rewrite (decide_False (P := c = m)) by lia.
    rewrite <- Hpc. apply Ha; [done | lia | lia].
Qed.

Lemma heapifyDown_loop_heap (fuel k : nat) (h : list T) (i : nat) :
  k <= i -> length h - i <= fuel -> sink_inv k h i ->
  heap_from k (heapifyDown_loop compare fuel h i).
Proof.
  revert h i. induction fuel as [|fuel IH]; intros h i Hki Hfuel Hinv.
  - simpl. apply (sink_inv_done k h i Hinv).
    destruct (smallest_cases h i) as [?|[_ Hlen]]; [done|].
    destruct (smallest_cases h i) as [?|[Hc _]]; [done|].
    unfold leftChild, rightChild in Hc. lia.
  - simpl. destruct (Nat.eqb_spec (smallest compare h i) i) as [Heq|Hne]; simpl.
    + by apply (sink_inv_done k h i).
    + destruct (smallest_cases h i) as [?|[Hc Hlen]]; [done|].
      assert (i < smallest compare h i)
        by (unfold leftChild, rightChild in Hc; lia).
      apply IH; [lia | rewrite swap_length; lia | by apply sink_inv_step].
Qed.

Lemma heapifyDown_heap (k : nat) (h : list T) (i : nat) :
  k <= i -> sink_inv k h i -> heap_from k (heapifyDown compare h i).
Proof. intros ? ?. by apply heapifyDown_loop_heap. Qed.

Lemma smallest_out_of_range (h : list T) (i : nat) :
  length h <= i -> smallest compare h i = i.
Proof.
  intros Hi. destruct (smallest_cases h i) as [?|[Hc Hlen]]; [done|].
  unfold leftChild, rightChild in Hc. lia.
Qed.

(** The budget [length h - index] of [heapifyDown] is never what stops the
    loop: any larger budget gives the same array. *)
Lemma heapifyDown_loop_stable (fuel1 fuel2 : nat) (h : list T) (i : nat) :
  length h - i <= fuel1 -> length h - i <= fuel2 ->
  heapifyDown_loop compare fuel1 h i = heapifyDown_loop compare fuel2 h i.
Proof.
  revert fuel2 h i.
  induction fuel1 as [|fuel1 IH]; intros [|fuel2] h i H1 H2; simpl; try done.
  - rewrite smallest_out_of_range by lia. by rewrite Nat.eqb_refl.
  - rewrite smallest_out_of_range by lia. by rewrite Nat.eqb_refl.
  - destruct (Nat.eqb_spec (smallest compare h i) i) as [Heq|Hne]; simpl; [done|].
    destruct (smallest_cases h i) as [?|[Hc Hlen]]; [done|].
    assert (i < smallest compare h i)
      by (unfold leftChild, rightChild in Hc; lia).
    apply IH; rewrite swap_length; lia.
Qed.

Lemma heapifyDown_loop_fuel (fuel : nat) (h : list T) (i : nat) :
  length h - i <= fuel ->
  heapifyDown_loop compare fuel h i = heapifyDown compare h i.
Proof. intros Hfuel. by apply heapifyDown_loop_stable. Qed.

Lemma heapifyDown_loop_perm (fuel : nat) (h : list T) (i : nat) :
  heapifyDown_loop compare fuel h i ≡ₚ h.
Proof.
  revert h i. induction fuel as [|fuel IH]; intros h i; [done|].
  simpl. destruct (negb _); [|done]. rewrite IH. apply swap_perm.
Qed.

Lemma heapifyDown_perm (h : list T) (i : nat) : heapifyDown compare h i ≡ₚ h.
Proof. apply heapifyDown_loop_perm. Qed.

(** *** heapifyUp *)

Lemma greater_at_true (h : list T) (i j : nat) :
  greater_at compare h i j = true ->
  exists x y, h !! i = Some x /\ h !! j = Some y /\ (0 < compare x y)%Z.
Proof.
  unfold greater_at. destruct (h !! i) as [x|], (h !! j) as [y|]; try discriminate.
  intros Hgt%bool_decide_eq_true. eauto.
Qed.

Lemma greater_at_false (h : list T) (i j : nat) :
  greater_at compare h i j = false -> ordered_at h i j.
Proof.
  unfold greater_at. intros Hgt x y Hx Hy. rewrite Hx, Hy in Hgt.
  apply bool_decide_eq_false in Hgt. lia.
Qed.

Lemma swim_inv_done (h : list T) (i : nat) :
  swim_inv h i ->
  negb (i =? 0) && greater_at compare h (parent i) i = false ->
  heap_ordered h.
Proof.
  intros [Ha _] Hstop c Hc _.
  destruct (decide (c = i)) as [->|Hne]; [|by apply Ha].
  destruct (Nat.eqb_spec i 0) as [->|_]; [lia|].
  by apply greater_at_false.
Qed.

Lemma swim_inv_step (h : list T) (i : nat) :
  swim_inv h i -> i <> 0 -> greater_at compare h (parent i) i = true ->
  swim_inv (swap h (parent i) i) (parent i).
Proof.
  intros [Ha Hb] Hi0 (xp & xi & Hxp & Hxi & Hgt)%greater_at_true.
  assert (0 < i) as Hipos by lia.
  pose proof (parent_lt i Hipos) as Hpi.
  pose proof (lookup_lt_Some _ _ _ Hxp) as Hplen.
  pose proof (lookup_lt_Some _ _ _ Hxi) as Hilen.
  assert (compare xi xp <= 0)%Z as Hip by (by apply (cmp_gt_le compare Hto)).
  split.
  - intros c Hc0 Hcp x y.
    pose proof (parent_lt c Hc0) as Hplt.
    destruct (decide (c = i)) as [Hci|Hci];
      [|destruct (decide (parent c = parent i)) as [Hpp|Hpp];
        [|destruct (decide (parent c = i)) as [Hpci|Hpci]]];
      rewrite !swap_lookup by done; repeat case_decide; try (exfalso; lia);
      try (exfalso; congruence).
    + rewrite Hxi, Hxp. by intros [= <-] [= <-].
    + rewrite Hxi. intros [= <-] Hy.
      apply (cmp_trans compare Hto) with xp; [done|].
      apply (Ha c Hc0 Hci); [by rewrite Hpp | done].
    + rewrite Hxp. intros [= <-] Hy.
      apply (Hb Hipos c Hc0 Hpci); done.
    + by apply Ha.
  - intros Hp0 c Hc0 Hpc x y.
    pose proof (parent_lt c Hc0) as Hplt.
    pose proof (parent_lt (parent i) Hp0) as Hpplt.
    assert (forall z, h !! parent (parent i) = Some z -> (compare z xp <= 0)%Z) as Hxxp.
    { intros z Hz. apply (Ha (parent i) Hp0); [lia | done | done]. }
    destruct (decide (c = i)) as [Hci|Hci];
      rewrite !swap_lookup by done; repeat case_decide; try (exfalso; lia);
      try (exfalso; congruence).
    + rewrite Hxp. intros Hx [= <-]. by apply Hxxp.
    + intros Hx Hy. apply (cmp_trans compare Hto) with xp; [by apply Hxxp|].
      apply (Ha c Hc0 Hci); [by rewrite Hpc | done].
Qed.

Lemma heapifyUp_loop_heap (fuel : nat) (h : list T) (i : nat) :
  i <= fuel -> swim_inv h i -> heap_ordered (heapifyUp_loop compare fuel h i).
Proof.
  revert h i. induction fuel as [|fuel IH]; intros h i Hfuel Hinv.
  - simpl. apply (swim_inv_done h i Hinv).
    by replace i with 0 by lia.
  - simpl. destruct (negb (i =? 0) && greater_at compare h (parent i) i) eqn:Hgo.
    + apply andb_true_iff in Hgo as [Hi0 Hgt].
      apply negb_true_iff, Nat.eqb_neq in Hi0.
      pose proof (parent_lt i ltac:(lia)).
      apply IH; [lia | by apply swim_inv_step].
    + by apply (swim_inv_done h i).
Qed.

(** The budget [index] of [heapifyUp] is never what stops the loop. *)
Lemma heapifyUp_loop_stable (fuel1 fuel2 : nat) (h : list T) (i : nat) :
  i <= fuel1 -> i <= fuel2 ->
  heapifyUp_loop compare fuel1 h i = heapifyUp_loop compare fuel2 h i.
Proof.
  revert fuel2 h i.
  induction fuel1 as [|fuel1 IH]; intros [|fuel2] h i H1 H2; simpl; try done.
  - by replace i with 0 by lia.
  - by replace i with 0 by lia.
  - destruct (Nat.eqb_spec i 0) as [->|Hi0]; simpl; [done|].
    destruct (greater_at compare h (parent i) i); [|done].
    pose proof (parent_lt i ltac:(lia)).
    apply IH; lia.
Qed.

Lemma heapifyUp_loop_perm (fuel : nat) (h : list T) (i : nat) :
  heapifyUp_loop compare fuel h i ≡ₚ h.
Proof.
  revert h i. induction fuel as [|fuel IH]; intros h i; [done|].
  simpl. destruct (_ && _); [|done]. rewrite IH. apply swap_perm.
Qed.

(** *** The operations keep the heap order and the elements *)

Lemma heap_ordered_nil : heap_ordered [].
Proof. intros c _ _ x y Hx. by rewrite lookup_nil in Hx. Qed.

Lemma insert_heap (h : list T) (value : T) :
  heap_ordered h -> heap_ordered (insert compare h value).
Proof.
  intros Hh. unfold insert, heapifyUp. apply heapifyUp_loop_heap; [done|].
  rewrite length_app. simpl.
  replace (length h + 1 - 1) with (length h) by lia.
  split.
  - intros c Hc0 Hcl x y Hx Hy.
    pose proof (parent_lt c Hc0) as Hplt.
    destruct (decide (c < length h)) as [Hlt|Hge].
    + rewrite lookup_app_l in Hx, Hy by lia. by apply (Hh c Hc0 ltac:(lia)).
    + apply lookup_lt_Some in Hy. rewrite length_app in Hy. simpl in Hy. lia.
  - intros _ c Hc0 Hpc x y _ Hy.
    pose proof (parent_lt c Hc0) as Hplt.
    apply lookup_lt_Some in Hy. rewrite length_app in Hy. simpl in Hy. lia.
Qed.

Lemma insert_perm (h : list T) (value : T) :
  insert compare h value ≡ₚ value :: h.
Proof.
  unfold insert, heapifyUp. rewrite heapifyUp_loop_perm.
  by rewrite Permutation_app_comm.
Qed.

Lemma new_heap (args : option (list T)) : heap_ordered (new compare args).
Proof.
  destruct args as [a|]; [|apply heap_ordered_nil]. unfold new.
  assert (forall n h, heap_from n h ->
            heap_ordered (fold_left (heapifyDown compare) (rev (seq 0 n)) h)) as Hbuild.
  { induction n as [|n IH]; intros h Hh; [exact Hh|].
    rewrite seq_S, rev_app_distr. simpl. apply IH.
    apply heapifyDown_heap; [done|]. split.
    - intros c Hc0 Hk Hne. apply Hh; [done | lia].
    - intros Hn0 Hk. pose proof (parent_lt n Hn0). lia. }
  apply Hbuild. intros c Hc0 Hk x y _ Hy.
  apply lookup_lt_Some in Hy.
  unfold parent in Hk.
  pose proof (Nat.div_mod_eq (length a) 2).
  pose proof (Nat.mod_upper_bound (length a) 2).
  pose proof (Nat.div_mod_eq (c - 1) 2).
  pose proof (Nat.mod_upper_bound (c - 1) 2).
  lia.
Qed.

Lemma new_perm (a : list T) : new compare (Some a) ≡ₚ a.
Proof.
  unfold new. generalize (rev (seq 0 (length a / 2))). intros l. revert a.
  induction l as [|i l IH]; intros a; [done|].
  simpl. rewrite IH. apply heapifyDown_perm.
Qed.

(** [popMin] on a non-empty heap: the root comes out, the rest stays a
    heap with the other elements. *)
Lemma popMin_nonempty (x : T) (t : list T) :
  exists h', popMin compare (x :: t) = (Some x, h') /\
             x :: t ≡ₚ x :: h' /\
             (heap_ordered (x :: t) -> heap_ordered h').
Proof.
  unfold popMin. cbn [lookup list_lookup].
  destruct (last (x :: t)) as [l|] eqn:Hlast;
    [|by apply last_None in Hlast].
  cbn [insert list_insert].
  eexists. split; [reflexivity|].
  destruct (decide (t = [])) as [->|Hne].
  - simpl. split; [done|]. intros _. apply heap_ordered_nil.
  - destruct (exists_last Hne) as (t' & l' & ->).
    rewrite last_cons, last_snoc in Hlast. injection Hlast as <-.
    change (<[0:=l']> (x :: t' ++ [l'])) with ((l' :: t') ++ [l']).
    rewrite removelast_last. split.
    + rewrite heapifyDown_perm. constructor.
      by rewrite Permutation_app_comm.
    + intros Hh. apply heapifyDown_heap; [done|]. split.
      * intros c Hc0 _ Hp0 a b Ha Hb.
        pose proof (parent_lt c Hc0) as Hplt.
        pose proof (lookup_lt_Some _ _ _ Hb) as Hclen. simpl in Hclen.
        destruct (parent c) as [|p] eqn:Hp; [done|].
        destruct c as [|c]; [lia|].
        simpl in Ha, Hb.
        apply (Hh (S c) Hc0 ltac:(lia)); rewrite ?Hp; simpl.
        -- by rewrite lookup_app_l by lia.
        -- by rewrite lookup_app_l by lia.
      * intros Hlt. lia.
Qed.

Lemma popMin_empty : popMin compare [] = (None, []).
Proof. reflexivity. Qed.

(** The root of a heap is not after any of its elements. *)
Lemma root_least (h : list T) (x : T) :
  heap_ordered h -> h !! 0 = Some x -> least compare x h.
Proof.
  intros Hh Hx. split; [by apply list_elem_of_lookup; exists 0|].
  intros y [i Hy]%list_elem_of_lookup. revert y Hy.
  induction i as [i IH] using lt_wf_ind. intros y Hy.
  destruct (decide (i = 0)) as [->|Hi].
  - rewrite Hx in Hy. injection Hy as <-. by apply cmp_refl.
  - pose proof (parent_lt i ltac:(lia)) as Hp.
    pose proof (lookup_lt_Some _ _ _ Hy) as Hlen.
    destruct (lookup_lt_is_Some_2 h (parent i) ltac:(lia)) as [z Hz].
    apply (cmp_trans compare Hto) with z; [by apply (IH (parent i))|].
    apply (Hh i ltac:(lia) ltac:(lia)); done.
Qed.

(** Every heap reached from the constructor by [insert] and [popMin]
    calls is heap ordered. *)
Lemma popMin_heap (h : list T) :
  heap_ordered h -> heap_ordered (snd (popMin compare h)).
Proof.
  destruct h as [|x t]; [intros _; apply heap_ordered_nil|].
  intros Hh. destruct (popMin_nonempty x t) as (h' & -> & _ & Hh'). by apply Hh'.
Qed.

Lemma run_heap (ops : list op) (h : list T) :
  heap_ordered h -> heap_ordered (snd (run compare ops h)).
Proof.
  revert h. induction ops as [|[v|] ops IH]; intros h Hh.
  - exact Hh.
  - cbn [run]. by apply IH, insert_heap.
  - cbn [run]. pose proof (popMin_heap h Hh) as Hp.
    destruct (popMin compare h) as [r h']. cbn [snd] in Hp.
    specialize (IH h' Hp). destruct (run compare ops h') as [out h'']. exact IH.
Qed.

(** Successive [popMin] calls on a heap return a non-decreasing sequence
    of elements of the heap. *)
Lemma pops_sorted (k : nat) (h : list T) :
  heap_ordered h ->
  Sorted not_after (fst (run compare (repeat PopMin k) h)) /\
  (forall y, y ∈ fst (run compare (repeat PopMin k) h) -> y ∈ h).
Proof.
  revert h. induction k as [|k IH]; intros h Hh.
  - simpl. split; [constructor|]. intros y Hy. by apply elem_of_nil in Hy.
  - cbn [repeat run]. destruct h as [|x t].
    + rewrite popMin_empty.
      destruct (IH [] heap_ordered_nil) as [Hs Hin].
      destruct (run compare (repeat PopMin k) []) as [out h'']. done.
    + destruct (popMin_nonempty x t) as (h' & -> & Hperm & Hh').
      destruct (IH h' (Hh' Hh)) as [Hs Hin].
      destruct (run compare (repeat PopMin k) h') as [out h'']. cbn [fst] in *.
      assert (forall y, y ∈ out -> y ∈ x :: t) as Hsub.
      { intros y Hy. rewrite Hperm. right. by apply Hin. }
      split.
      * constructor; [done|].
        destruct out as [|y out]; constructor.
        apply (root_least (x :: t) x Hh eq_refl). apply Hsub. constructor.
      * intros y [->|Hy]%elem_of_cons; [constructor | by apply Hsub].
Qed.

(** C3, amended: on every heap reached from the constructor, with or
    without initial elements, by a sequence of [insert] and [popMin] calls,
    the values returned by [popMin] calls that follow one another with no
    [insert] between them are non-decreasing under the comparator. *)
Theorem C3_successive_pops_nondecreasing (args : option (list T))
    (ops : list op) (k : nat) :
  let h := snd (run compare ops (new compare args)) in
  Sorted not_after (fst (run compare (repeat PopMin k) h)).
Proof. cbn zeta. apply pops_sorted, run_heap, new_heap. Qed.

(** C9: on a heap reached from the constructor by [insert] and [popMin]
    calls, [popMin] returns the root, which is not after any element of the
    heap; on the empty heap it returns [undefined] and the heap stays
    empty. *)
Theorem C9_popMin_root_or_none (args : option (list T)) (ops : list op) :
  let h := snd (run compare ops (new compare args)) in
  (h = [] -> popMin compare h = (None, [])) /\
  (h <> [] ->
   exists x, h !! 0 = Some x /\ fst (popMin compare h) = Some x /\
             least compare x h).
Proof.
  cbn zeta. pose proof (run_heap ops _ (new_heap args)) as Hh.
  destruct (snd (run compare ops (new compare args))) as [|x t].
  - split; [intros _; apply popMin_empty | done].
  - split; [done|]. intros _. exists x. split; [done|].
    destruct (popMin_nonempty x t) as (h' & -> & _ & _).
    split; [done|]. by apply root_least.
Qed.
End HeapFacts.

(** The heap built from 5, 3, 8, 1: four [popMin] calls return
    1, 3, 5, 8. *)
Lemma C3_successive_pops_nondecreasing_witness :
  Sorted (not_after numeric)
    (fst (MinHeap.run numeric (repeat MinHeap.PopMin 4)
            (snd (MinHeap.run numeric []
                    (MinHeap.new numeric (Some [5; 3; 8; 1]%Z)))))) /\
  fst (MinHeap.run numeric (repeat MinHeap.PopMin 4)
         (MinHeap.new numeric (Some [5; 3; 8; 1]%Z))) = [1; 3; 5; 8]%Z.
Proof.
  split.
  - apply (C3_successive_pops_nondecreasing numeric numeric_total_order
             (Some [5; 3; 8; 1]%Z) [] 4).
  - reflexivity.
Defined.

(** C3, as stated, fails: in the example usage the heap built from
    5, 3, 8, 1 returns 1, then 0 and 7 are inserted, and the next [popMin]
    returns 0: the returned values 1, 0 decrease. *)
Lemma C3_pops_across_insert_decrease :
  total_order numeric /\
  fst (MinHeap.run numeric
         [MinHeap.PopMin; MinHeap.Insert 0%Z; MinHeap.Insert 7%Z; MinHeap.PopMin]
         (MinHeap.new numeric (Some [5; 3; 8; 1]%Z))) = [1; 0]%Z /\
  ~ Sorted (not_after numeric) [1; 0]%Z.
Proof.
  split; [exact numeric_total_order|]. split; [reflexivity|].
  intros Hs. inversion Hs as [|a l _ Hhd]; subst.
  inversion Hhd as [|b l' Hab]; subst.
  unfold not_after, numeric in Hab. lia.
Qed.

(** The heap built from 5, 3, 8, 1 returns 1, 3, 5, 8. *)
Example heap_5381 :
  MinHeap.new numeric (Some [5; 3; 8; 1]%Z) = [1; 3; 8; 5]%Z /\
  fst (MinHeap.run numeric (repeat MinHeap.PopMin 4)
         (MinHeap.new numeric (Some [5; 3; 8; 1]%Z))) = [1; 3; 5; 8]%Z.
Proof. split; reflexivity. Qed.

Lemma C9_popMin_root_or_none_witness :
  let h := snd (MinHeap.run numeric [MinHeap.Insert 0%Z]
                  (MinHeap.new numeric (Some [5; 3; 8; 1]%Z))) in
  (h = [] -> MinHeap.popMin numeric h = (None, [])) /\
  (h <> [] ->
   exists x, h !! 0 = Some x /\ fst (MinHeap.popMin numeric h) = Some x /\
             least numeric x h).
Proof.
  apply (C9_popMin_root_or_none numeric numeric_total_order
           (Some [5; 3; 8; 1]%Z) [MinHeap.Insert 0%Z]).
Defined.

(** On the empty heap, whatever the comparator. *)
Example popMin_on_empty :
  MinHeap.popMin numeric (MinHeap.new numeric None) = (None, []) /\
  MinHeap.isEmpty (snd (MinHeap.popMin numeric (MinHeap.new numeric None))) = true.
Proof. split; reflexivity. Qed.

(** ** BreathFirstSearch *)

Section BfsFacts.
Context {T : Type} `{JsKey T}.
Import Graph.
Variable adj : @adjacency T.
Variable start target : T.
Local Abbreviation bfs_inv := (bfs_inv adj start target).
Local Abbreviation bfs_result_ok := (bfs_result_ok adj start target).

Lemma entries_of_nodes (path new : list T) : map fst (entries_of path new) = new.
Proof. unfold entries_of. rewrite map_map. simpl. apply map_id. Qed.

Lemma bfs_neighbors_spec (path : list T) (ns : list (GraphNode T))
    (vis : list T) (qi : list (T * list T)) (sz : Z) :
  bfs_neighbors path ns (mk_bfs vis (Queue.mk qi sz)) =
  mk_bfs (vis ++ fresh vis (map node ns))
         (Queue.mk (qi ++ entries_of path (fresh vis (map node ns)))
                   (sz + Z.of_nat (length (fresh vis (map node ns))))).
Proof.
  unfold bfs_neighbors. revert vis qi sz.
  induction ns as [|n ns IH]; intros vis qi sz.
  - simpl. rewrite !app_nil_r. do 2 f_equal. lia.
  - cbn [fold_left map fresh visited queue].
    unfold JsSet.add. destruct (JsSet.has vis (node n)) eqn:Hhas; cbn [negb].
    + apply IH.
    + unfold Queue.enqueue. cbn [Queue.items Queue._size].
      rewrite IH. cbn [entries_of map length].
      rewrite <- !app_assoc. cbn [app]. do 2 f_equal. lia.
Qed.

Lemma fresh_sub (vis ns : list T) (n : T) : n ∈ fresh vis ns -> n ∈ ns.
Proof.
  revert vis. induction ns as [|m ns IH]; intros vis; simpl; [done|].
  destruct (JsSet.has vis m).
  - intros Hn. right. by apply (IH vis).
  - intros [->|Hn]%elem_of_cons; [left | right; by apply (IH (vis ++ [m]))].
Qed.

Lemma fresh_covers (vis ns : list T) (n : T) :
  n ∈ ns -> n ∈ vis ++ fresh vis ns.
Proof.
  revert vis. induction ns as [|m ns IH]; intros vis; simpl.
  - intros Hn. by apply elem_of_nil in Hn.
  - unfold JsSet.has. case_bool_decide as Hm.
    + intros [->|Hn]%elem_of_cons; [apply elem_of_app; by left | by apply IH].
    + intros [->|Hn]%elem_of_cons.
      * apply elem_of_app. right. left.
      * specialize (IH (vis ++ [m]) Hn). rewrite <- app_assoc in IH. exact IH.
Qed.

Lemma fresh_NoDup (vis ns : list T) : NoDup vis -> NoDup (vis ++ fresh vis ns).
Proof.
  revert vis. induction ns as [|m ns IH]; intros vis Hnd; simpl.
  - by rewrite app_nil_r.
  - unfold JsSet.has. case_bool_decide as Hm; [by apply IH|].
    change (m :: fresh (vis ++ [m]) ns) with ([m] ++ fresh (vis ++ [m]) ns).
    rewrite app_assoc. apply IH.
    apply NoDup_app. split; [done|]. split; [|apply NoDup_singleton].
    intros x Hx ->%list_elem_of_singleton. done.
Qed.

(** Paths of the adjacency list. *)
Lemma path_to_length (p : list T) (w : T) : path_to adj start p w -> 1 <= length p.
Proof. destruct 1; [done|]. rewrite length_app. simpl. lia. Qed.

Lemma path_to_inv (p : list T) (w : T) :
  path_to adj start p w ->
  (p = [start] /\ w = start) \/
  exists p0 u, p = p0 ++ [w] /\ path_to adj start p0 u /\ w ∈ neighbors_of adj u.
Proof. destruct 1; [by left | right; eauto]. Qed.

Lemma neighbors_candidates (u w : T) :
  w ∈ neighbors_of adj u -> w ∈ map to (getAllEdges adj).
Proof.
  unfold neighbors_of, getAllEdges, JsMap.entries.
  induction adj as [|[k l] g IH]; simpl; [intros Hw; by apply elem_of_nil in Hw|].
  rewrite map_app, map_map. simpl.
  intros Hw. apply elem_of_app.
  destruct (decide (k = u)); [left; exact Hw | right; by apply IH].
Qed.

Lemma bfs_init_eq (n : T) :
  bfs_init n = mk_bfs [n] (Queue.mk [(n, [n])] 1).
Proof.
  unfold bfs_init, JsSet.add, JsSet.has.
  by rewrite bool_decide_eq_false_2 by apply not_elem_of_nil.
Qed.

Lemma bfs_inv_init : bfs_inv 1 [] [(start, [start])] [] (bfs_init start).
Proof.
  rewrite bfs_init_eq. split; try done.
  - apply NoDup_singleton.
  - repeat constructor.
  - intros u Hu. by apply elem_of_nil in Hu.
  - intros p w Hp Hlen. apply path_to_length in Hp. lia.
  - intros p w Hp Hlen. right.
    destruct (path_to_inv p w Hp) as [[-> ->]|(p0 & u & -> & Hp0 & _)]; [constructor|].
    apply path_to_length in Hp0. rewrite length_app in Hlen. simpl in Hlen. lia.
  - intros v Hv. left. by apply list_elem_of_singleton in Hv.
Qed.

(** When the entries of the level are used up, the next level starts. *)
Lemma bfs_inv_relevel (k : nat) (done : list T) (q2 : list (T * list T))
    (st : bfs_state) :
  bfs_inv k done [] q2 st -> bfs_inv (S k) done q2 [] st.
Proof.
  intros [Hi Hs Hv Hnd Hk H1 H2 Hd Hb Ha Hc].
  split; try done; rewrite ?app_nil_r; try done.
  - lia.
  - intros p w Hp Hlen.
    destruct (decide (length p = k)) as [Heq|Hne]; [|apply (Hb p w Hp); lia].
    destruct (Ha p w Hp Heq) as [?|Hw]; [done | by apply elem_of_nil in Hw].
  - intros p w Hp Hlen.
    destruct (path_to_inv p w Hp) as [[-> ->]|(p0 & u & -> & Hp0 & Hw)];
      [simpl in Hlen; lia|].
    rewrite length_app in Hlen. simpl in Hlen.
    destruct (Ha p0 u Hp0 ltac:(lia)) as [Hu|Hu]; [|by apply elem_of_nil in Hu].
    destruct (Hd u Hu) as [_ Hnb]. specialize (Hnb w Hw).
    rewrite Hv in Hnb. simpl in Hnb. by apply elem_of_app in Hnb.
Qed.

(** With an empty queue every node that has a path from [start] has been
    dequeued, and none of them was the target. *)
Lemma bfs_inv_empty (k : nat) (done : list T) (st : bfs_state) :
  bfs_inv k done [] [] st -> forall p, ~ path_to adj start p target.
Proof.
  intros [Hi Hs Hv Hnd Hk H1 H2 Hd Hb Ha Hc].
  assert (forall p w, path_to adj start p w -> w ∈ done) as Hall.
  { induction 1 as [|p u v Hp IH Hv'].
    - destruct (decide (1 = k)) as [Heq|Hne].
      + destruct (Ha [start] start (path_start _ _) Heq) as [?|Hw];
          [done | by apply elem_of_nil in Hw].
      + apply (Hb [start] start (path_start _ _)). simpl. lia.
    - destruct (Hd u IH) as [_ Hnb]. specialize (Hnb v Hv').
      rewrite Hv in Hnb. simpl in Hnb. by rewrite app_nil_r in Hnb. }
  intros p Hp. by destruct (Hd target (Hall p target Hp)).
Qed.

(** One turn of the loop from a state whose level has an entry. *)
Lemma bfs_step_level (k : nat) (done : list T) (c : T) (pc : list T)
    (q1 q2 : list (T * list T)) (st : bfs_state) :
  bfs_inv k done ((c, pc) :: q1) q2 st ->
  match bfs_step adj target st with
  | inr (Done (Some p)) =>
      path_to adj start p target /\
      forall p', path_to adj start p' target -> length p <= length p'
  | inr _ => False
  | inl st' =>
      exists new,
        bfs_inv k (done ++ [c]) q1 (q2 ++ entries_of pc new) st' /\
        visited st' = visited st ++ new
  end.
Proof.
  intros [Hi Hs Hv Hnd Hk H1 H2 Hd Hb Ha Hc].
  destruct st as [vis [qi sz]]. cbn [visited queue Queue.items Queue._size] in *.
  unfold bfs_step, Queue.size, Queue.dequeue. cbn [queue Queue.items Queue._size visited].
  rewrite bool_decide_eq_true_2 by (rewrite Hs; simpl; lia).
  rewrite Hi. cbn [app].
  apply Forall_cons in H1 as [[Hpc Hlen] H1]. cbn [fst snd] in Hpc, Hlen.
  destruct (decide (c = target)) as [->|Hct].
  - split; [done|]. intros p' Hp'.
    destruct (decide (length p' < k)) as [Hlt|]; [|lia].
    by destruct (Hd target (Hb p' target Hp' Hlt)).
  - rewrite bfs_neighbors_spec.
    set (new := fresh vis (map node (default [] (JsMap.get adj c)))).
    exists new. split; [|done].
    assert (forall w, w ∈ new -> w ∈ neighbors_of adj c) as Hnew.
    { intros w Hw. by apply fresh_sub in Hw. }
    split; cbn [visited queue Queue.items Queue._size].
    + by rewrite <- app_assoc.
    + rewrite Hs. cbn [app length]. rewrite !length_app.
      unfold entries_of. rewrite length_map. lia.
    + rewrite Hv. rewrite !map_app, entries_of_nodes. simpl.
      rewrite <- !app_assoc. simpl. by rewrite <- ?app_assoc.
    + by apply fresh_NoDup.
    + done.
    + done.
    + apply Forall_app. split; [done|].
      apply Forall_forall. intros e (w & -> & Hw)%list_elem_of_fmap.
      cbn [fst snd]. split.
      * apply (path_step adj start pc c w); [done | by apply Hnew].
      * rewrite length_app. simpl. lia.
    + intros u [Hu|Hu]%elem_of_app.
      * destruct (Hd u Hu) as [Hne Hnb]. split; [done|].
        intros w Hw. apply elem_of_app. left. by apply Hnb.
      * apply list_elem_of_singleton in Hu as ->. split; [done|].
        intros w Hw. by apply fresh_covers.
    + intros p w Hp Hl. apply elem_of_app. left. by apply (Hb p w).
    + intros p w Hp Hl. destruct (Ha p w Hp Hl) as [Hw|Hw].
      * left. apply elem_of_app. by left.
      * simpl in Hw. apply elem_of_cons in Hw as [->|Hw]; [|by right].
        left. apply elem_of_app. right. constructor.
    + intros v [Hvv|Hvn]%elem_of_app; [by apply Hc|].
      right. by apply neighbors_candidates with c, Hnew.
Qed.

(** One turn of the loop from any state of the invariant. *)
Lemma bfs_step_inv (k : nat) (done : list T) (q1 q2 : list (T * list T))
    (st : bfs_state) :
  bfs_inv k done q1 q2 st ->
  match bfs_step adj target st with
  | inr (Done r) => bfs_result_ok r
  | inr _ => False
  | inl st' =>
      exists k' c q1' q2' new,
        bfs_inv k' (done ++ [c]) q1' q2' st' /\
        visited st' = visited st ++ new
  end.
Proof.
  intros Hinv. destruct q1 as [|[c pc] q1].
  - destruct q2 as [|[c pc] q2].
    + pose proof (bfs_inv_empty k done st Hinv) as Hnone.
      destruct Hinv as [Hi Hs _ _ _ _ _ _ _ _ _].
      unfold bfs_step, Queue.size. rewrite Hs. cbn [app length Z.of_nat].
      rewrite bool_decide_eq_false_2 by lia. exact Hnone.
    + apply bfs_inv_relevel in Hinv.
      pose proof (bfs_step_level _ _ _ _ _ _ _ Hinv) as Hstep.
      destruct (bfs_step adj target st) as [st'|[[p|]| |]]; try done.
      destruct Hstep as (new & Hinv' & Hvis). eauto 10.
  - pose proof (bfs_step_level _ _ _ _ _ _ _ Hinv) as Hstep.
    destruct (bfs_step adj target st) as [st'|[[p|]| |]]; try done.
    destruct Hstep as (new & Hinv' & Hvis). eauto 10.
Qed.

(** The nodes marked so far are distinct and all among the start node and
    the targets of the edges, which bounds the number of turns. *)
Lemma bfs_inv_bound (k : nat) (done : list T) (q1 q2 : list (T * list T))
    (st : bfs_state) :
  bfs_inv k done q1 q2 st ->
  length done + length (q1 ++ q2) <= 1 + length (getAllEdges adj).
Proof.
  intros [_ _ Hv Hnd _ _ _ _ _ _ Hc].
  assert (length (visited st) <= length (start :: map to (getAllEdges adj))) as Hle.
  { apply submseteq_length, NoDup_submseteq; [exact Hnd|].
    intros v Hv'. destruct (Hc v Hv') as [->|Hin]; [left | by right]. }
  rewrite Hv, length_app, length_map in Hle. simpl in Hle.
  rewrite length_map in Hle. lia.
Qed.

Lemma bfs_loop_correct (fuel k : nat) (done : list T)
    (q1 q2 : list (T * list T)) (st : bfs_state) :
  bfs_inv k done q1 q2 st ->
  2 + length (getAllEdges adj) <= fuel + length done ->
  exists r, bfs_loop fuel adj target st = Done r /\ bfs_result_ok r.
Proof.
  revert k done q1 q2 st.
  induction fuel as [|fuel IH]; intros k done q1 q2 st Hinv Hfuel.
  - pose proof (bfs_inv_bound _ _ _ _ _ Hinv). lia.
  - cbn [bfs_loop]. pose proof (bfs_step_inv _ _ _ _ _ Hinv) as Hstep.
    destruct (bfs_step adj target st) as [st'|[r| |]]; try done.
    + destruct Hstep as (k' & c & q1' & q2' & new & Hinv' & _).
      apply (IH _ _ _ _ _ Hinv'). rewrite length_app. simpl. lia.
    + eauto.
Qed.

Lemma bfs_state_at_inv (n k : nat) (done : list T)
    (q1 q2 : list (T * list T)) (st0 st : bfs_state) :
  bfs_inv k done q1 q2 st0 ->
  bfs_state_at n adj target st0 = Some st ->
  exists k' done' q1' q2',
    bfs_inv k' (done ++ done') q1' q2' st /\ length done' = n.
Proof.
  revert k done q1 q2 st0.
  induction n as [|n IH]; intros k done q1 q2 st0 Hinv Hat.
  - injection Hat as <-. exists k, [], q1, q2. by rewrite app_nil_r.
  - cbn [bfs_state_at] in Hat.
    pose proof (bfs_step_inv _ _ _ _ _ Hinv) as Hstep.
    destruct (bfs_step adj target st0) as [st'|]; [|done].
    destruct Hstep as (k' & c & q1' & q2' & new & Hinv' & _).
    destruct (IH _ _ _ _ _ Hinv' Hat) as (k'' & done' & q1'' & q2'' & Hinv'' & Hlen).
    exists k'', (c :: done'), q1'', q2''. split.
    + by rewrite <- app_assoc in Hinv''.
    + simpl. by rewrite Hlen.
Qed.

(** A turn that does not end the search dequeues one entry and enqueues
    the neighbors it marks, and only them. *)
Lemma bfs_step_enqueues (st st' : bfs_state) :
  bfs_step adj target st = inl st' ->
  exists c path rest new,
    Queue.items (queue st) = (c, path) :: rest /\
    Queue.items (queue st') = rest ++ entries_of path new /\
    visited st' = visited st ++ new.
Proof.
  destruct st as [vis [qi sz]].
  unfold bfs_step, Queue.size, Queue.dequeue.
  cbn [queue visited Queue.items Queue._size].
  case_bool_decide; [|done].
  destruct qi as [|[c path] rest]; [done|].
  destruct (decide (c = target)); [done|].
  intros [= <-]. rewrite bfs_neighbors_spec.
  cbn [queue visited Queue.items]. eauto 10.
Qed.

(** C6, amended: for a truthy start node and enough turns, the search
    returns a path from [start] to [target] with the least number of nodes,
    or [null] when the adjacency list has no path from [start] to [target].
    At the start of each turn of its loop the [visited] set lists, without
    repetition, the nodes dequeued so far followed by the nodes of the
    queue, and a turn appends to the queue exactly the nodes it appends to
    [visited]: no node enters the queue twice. *)
Theorem C6_bfs_shortest_path (fuel : nat) :
  truthy start = true ->
  2 + length (getAllEdges adj) <= fuel ->
  (exists r, BreathFirstSearch fuel adj start target = Done r /\
             bfs_result_ok r) /\
  (forall n st,
      bfs_state_at n adj target (bfs_init start) = Some st ->
      NoDup (visited st) /\
      (exists dequeued,
          length dequeued = n /\
          visited st = dequeued ++ map fst (Queue.items (queue st))) /\
      (forall st',
          bfs_step adj target st = inl st' ->
          exists c path rest new,
            Queue.items (queue st) = (c, path) :: rest /\
            Queue.items (queue st') = rest ++ entries_of path new /\
            visited st' = visited st ++ new)).
Proof.
  intros Htruthy Hfuel. split.
  - unfold BreathFirstSearch. rewrite Htruthy. cbn [negb].
    apply (bfs_loop_correct fuel _ _ _ _ _ bfs_inv_init). simpl. lia.
  - intros n st Hat.
    destruct (bfs_state_at_inv n _ _ _ _ _ _ bfs_inv_init Hat)
      as (k & done & q1 & q2 & [Hi _ Hv Hnd _ _ _ _ _ _ _] & Hlen).
    split; [exact Hnd|]. split.
    + exists done. split; [exact Hlen|]. rewrite Hv, Hi. reflexivity.
    + apply bfs_step_enqueues.
Qed.
End BfsFacts.

(** C6, as stated, fails at a falsy start node: in the adjacency list with
    the single node 0, the path [0] leads from 0 to 0, and the search returns
    [null]. *)
Lemma C6_bfs_falsy_start_finds_no_path :
  Graph.path_to [(0%Z, [])] 0%Z [0%Z] 0%Z /\
  forall fuel, Graph.BreathFirstSearch fuel [(0%Z, [])] 0%Z 0%Z = Done None.
Proof. split; [constructor | reflexivity]. Qed.

Lemma C6_bfs_shortest_path_witness :
  (exists r, Graph.BreathFirstSearch 20 Graph.cityMap "A"%string "Z"%string = Done r /\
             bfs_result_ok Graph.cityMap "A"%string "Z"%string r) /\
  (forall n st,
      Graph.bfs_state_at n Graph.cityMap "Z"%string (Graph.bfs_init "A"%string) = Some st ->
      NoDup (Graph.visited st) /\
      (exists dequeued,
          length dequeued = n /\
          Graph.visited st = dequeued ++ map fst (Queue.items (Graph.queue st))) /\
      (forall st',
          Graph.bfs_step Graph.cityMap "Z"%string st = inl st' ->
          exists c path rest new,
            Queue.items (Graph.queue st) = (c, path) :: rest /\
            Queue.items (Graph.queue st') = rest ++ entries_of path new /\
            Graph.visited st' = Graph.visited st ++ new)).
Proof.
  apply (C6_bfs_shortest_path Graph.cityMap "A"%string "Z"%string 20).
  - reflexivity.
  - vm_compute. lia.
Defined.

(** On the city graph the search returns a path of four nodes. *)
Example bfs_city :
  Graph.BreathFirstSearch 20 Graph.cityMap "A"%string "Z"%string
  = Done (Some ["A"; "B"; "D"; "Z"]%string).
Proof. vm_compute. reflexivity. Qed.


(** ** LinkedList: the operations on well-formed lists *)

Section ListFacts.
Context {T : Type} `{EqDecision T}.
Import LinkedList.

Lemma seg_app (s : store T) (n : option ref) (a b : list ref) (m : option ref) :
  seg s n (a ++ b) m <-> exists k, seg s n a k /\ seg s k b m.
Proof.
  revert n. induction a as [|r a IH]; intros n; simpl.
  - split; [intros Hb; by exists n | by intros (k & -> & Hb)].
  - split.
    + intros (-> & nd & Hnd & Hseg). apply IH in Hseg as (k & Ha & Hb).
      exists k. split; [|done]. split; [done|]. by exists nd.
    + intros (k & (-> & nd & Hnd & Ha) & Hb). split; [done|].
      exists nd. split; [done|]. apply IH. by exists k.
Qed.

(** A segment only depends on the Nodes it visits. *)
Lemma seg_frame (s s' : store T) (n : option ref) (rs : list ref) (m : option ref) :
  (forall r, r ∈ rs -> s' !! r = s !! r) -> seg s n rs m -> seg s' n rs m.
Proof.
  revert n. induction rs as [|r rs IH]; intros n Hsame; simpl; [done|].
  intros (-> & nd & Hnd & Hseg). split; [done|]. exists nd. split.
  - rewrite Hsame; [done | left].
  - apply IH; [|done]. intros r' Hr'. apply Hsame. by right.
Qed.

Lemma seg_valid (s : store T) (n : option ref) (rs : list ref) (m : option ref) :
  seg s n rs m -> forall r, r ∈ rs -> r < length s.
Proof.
  revert n. induction rs as [|r0 rs IH]; intros n; simpl.
  - intros _ r Hr. by apply elem_of_nil in Hr.
  - intros (-> & nd & Hnd & Hseg) r [->|Hr]%elem_of_cons.
    + by apply lookup_lt_Some in Hnd.
    + by apply (IH _ Hseg).
Qed.

Lemma chain_functional (s : store T) (n : option ref) (rs1 rs2 : list ref) :
  chain s n rs1 -> chain s n rs2 -> rs1 = rs2.
Proof.
  unfold chain. revert n rs2.
  induction rs1 as [|r rs1 IH]; intros n [|r2 rs2]; simpl; try done.
  - intros -> [? _]. done.
  - intros [-> _] ?. done.
  - intros (-> & nd & Hnd & H1) ([= <-] & nd2 & Hnd2 & H2).
    rewrite Hnd in Hnd2. injection Hnd2 as <-. f_equal. by apply (IH (next nd)).
Qed.

(** A chain that ends visits no Node twice. *)
Lemma chain_NoDup (s : store T) (n : option ref) (rs : list ref) :
  chain s n rs -> NoDup rs.
Proof.
  unfold chain. revert n. induction rs as [|r rs IH]; intros n; simpl.
  - intros _. constructor.
  - intros (-> & nd & Hnd & Hseg). constructor; [|by apply (IH _ Hseg)].
    intros (a & c & ->)%list_elem_of_split.
    pose proof Hseg as Hseg'.
    apply seg_app in Hseg' as (k & _ & Hk).
    assert (chain s (Some r) (r :: c)) as H1.
    { destruct Hk as (-> & Hk). split; [done | exact Hk]. }
    assert (chain s (Some r) (r :: a ++ r :: c)) as H2.
    { split; [done|]. by exists nd. }
    pose proof (chain_functional _ _ _ _ H1 H2) as Heq.
    apply (f_equal length) in Heq. simpl in Heq.
    rewrite length_app in Heq. simpl in Heq. lia.
Qed.

Lemma data_of_frame (s s' : store T) (rs : list ref) (vs : list T) :
  (forall r, r ∈ rs -> data <$> s' !! r = data <$> s !! r) ->
  data_of s rs vs -> data_of s' rs vs.
Proof.
  unfold data_of. intros Hsame Hd. induction Hd as [|r v rs vs Hr Hd IH]; [constructor|].
  constructor.
  - rewrite Hsame; [done | left].
  - apply IH. intros r' Hr'. apply Hsame. by right.
Qed.

Lemma data_of_length (s : store T) (rs : list ref) (vs : list T) :
  data_of s rs vs -> length rs = length vs.
Proof. apply Forall2_length. Qed.

Lemma set_next_lookup_ne (s : store T) (t r : ref) (v : option ref) :
  r <> t -> set_next s t v !! r = s !! r.
Proof.
  intros Hne. unfold set_next, store, ref in *. destruct (s !! t); [|done].
  by rewrite list_lookup_insert_ne.
Qed.

Lemma set_next_lookup_eq (s : store T) (t : ref) (v : option ref) (nd : Node T) :
  s !! t = Some nd -> set_next s t v !! t = Some (mkNode (data nd) v).
Proof.
  intros Hnd. unfold set_next, store, ref in *. rewrite Hnd.
  apply list_lookup_insert_eq. by apply lookup_lt_Some in Hnd.
Qed.

Lemma set_next_data (s : store T) (t r : ref) (v : option ref) :
  data <$> set_next s t v !! r = data <$> s !! r.
Proof.
  destruct (decide (r = t)) as [->|Hne]; [|by rewrite set_next_lookup_ne].
  destruct (s !! t) as [nd|] eqn:Hnd.
  - rewrite (set_next_lookup_eq _ _ _ _ Hnd). reflexivity.
  - unfold set_next, store, ref in *. rewrite ?Hnd. reflexivity.
Qed.

Lemma set_next_length (s : store T) (t : ref) (v : option ref) :
  length (set_next s t v) = length s.
Proof.
  unfold set_next, store, ref in *.
  destruct (s !! t); [apply length_insert | done].
Qed.

(** Redirecting the last Node of a segment. *)
Lemma seg_set_last (s : store T) (n : option ref) (rs : list ref) (t : ref)
    (m m' : option ref) :
  seg s n (rs ++ [t]) m -> t ∉ rs -> seg (set_next s t m') n (rs ++ [t]) m'.
Proof.
  intros Hseg Hnin. apply seg_app in Hseg as (k & Hrs & Ht).
  apply seg_app. exists k. split.
  - apply (seg_frame s); [|done]. intros r Hr.
    apply set_next_lookup_ne. intros ->. done.
  - simpl in *. destruct Ht as (-> & nd & Hnd & _). split; [done|].
    exists (mkNode (data nd) m'). split; [by apply set_next_lookup_eq | done].
Qed.

(** Allocation leaves the Nodes in place and puts the new one last. *)
Lemma alloc_lookup_old (s : store T) (nd : Node T) (r : ref) :
  r < length s -> (s ++ [nd]) !! r = s !! r.
Proof. unfold store, ref in *. apply lookup_app_l. Qed.

Lemma alloc_lookup_new (s : store T) (nd : Node T) :
  (s ++ [nd]) !! length s = Some nd.
Proof. unfold store, ref in *. by apply list_lookup_middle. Qed.

(** [insert] appends the value. *)
Lemma insert_rep (s : store T) (l : t) (vs : list T) (value : T) :
  list_rep s l vs ->
  exists s' l', insert s l value = Done (s', l') /\ list_rep s' l' (vs ++ [value]).
Proof.
  intros (rs & Hchain & Hdata & Hsize & Htail).
  pose proof (seg_valid _ _ _ _ Hchain) as Hvalid.
  pose proof (chain_NoDup _ _ _ Hchain) as Hnd.
  unfold insert, alloc.
  destruct l as [hd tl sz]. cbn [_head _tail _size] in *.
  destruct rs as [|t0 rs0 _] using rev_ind.
  - unfold chain in Hchain. simpl in Hchain. subst hd.
    apply Forall2_nil_inv_l in Hdata as ->.
    eexists _, _. split; [reflexivity|].
    exists [length s]. cbn [_head _tail _size]. split; [|split; [|split]].
    + split; [done|]. exists (mkNode value None).
      split; [apply alloc_lookup_new | done].
    + constructor; [|constructor]. by rewrite alloc_lookup_new.
    + simpl in *. lia.
    + done.
  - assert (exists h, hd = Some h) as [h ->].
    { unfold chain in Hchain. destruct rs0; simpl in Hchain;
        destruct Hchain as [-> _]; eauto. }
    rewrite (Htail ltac:(by destruct rs0)), last_snoc.
    eexists _, _. split; [reflexivity|].
    exists ((rs0 ++ [t0]) ++ [length s]). cbn [_head _tail _size].
    assert (t0 < length s) as Ht0.
    { apply Hvalid, elem_of_app. right. constructor. }
    apply NoDup_app in Hnd as (_ & Hdisj & _).
    split; [|split; [|split]].
    + apply seg_app. exists (Some (length s)). split.
      * apply seg_set_last with None.
        -- apply (seg_frame s); [|exact Hchain].
           intros r Hr. apply alloc_lookup_old. by apply Hvalid.
        -- intros Hin. apply (Hdisj _ Hin). constructor.
      * split; [done|]. exists (mkNode value None). split; [|done].
        rewrite set_next_lookup_ne by lia. apply alloc_lookup_new.
    + apply Forall2_app.
      * apply (data_of_frame s); [|done]. intros r Hr.
        rewrite set_next_data. by rewrite alloc_lookup_old by (by apply Hvalid).
      * constructor; [|constructor].
        rewrite set_next_data. by rewrite alloc_lookup_new.
    + rewrite length_app. simpl. lia.
    + intros _. by rewrite last_snoc.
Qed.

Lemma empty_rep (s : store T) : list_rep s empty [].
Proof.
  exists []. split; [reflexivity|]. split; [constructor|].
  split; [reflexivity | done].
Qed.

(** The constructor inserts its arguments in order. *)
Lemma new_rep (s : store T) (l : t) (vs args : list T) :
  list_rep s l vs ->
  exists s' l', new s l args = Done (s', l') /\ list_rep s' l' (vs ++ args).
Proof.
  revert s l vs. induction args as [|a args IH]; intros s l vs Hrep.
  - exists s, l. split; [done|]. by rewrite app_nil_r.
  - destruct (insert_rep s l vs a Hrep) as (s1 & l1 & Hins & Hrep1).
    destruct (IH s1 l1 _ Hrep1) as (s2 & l2 & Hnew & Hrep2).
    exists s2, l2. cbn [new]. rewrite Hins. split; [done|].
    by rewrite <- app_assoc in Hrep2.
Qed.

(** *** Reading a list *)

Lemma reachable_chain (fuel : nat) (s : store T) (n : option ref) (rs : list ref) :
  chain s n rs -> length rs <= fuel -> reachable fuel s n = Some rs.
Proof.
  unfold chain. revert fuel n. induction rs as [|r rs IH]; intros fuel n; simpl.
  - intros -> _. by destruct fuel.
  - intros (-> & nd & Hnd & Hseg) Hfuel. destruct fuel as [|fuel]; [lia|].
    simpl. unfold next_of. rewrite Hnd. simpl.
    by rewrite (IH fuel _ Hseg) by lia.
Qed.

Lemma values_rep (fuel : nat) (s : store T) (l : t) (vs : list T) :
  list_rep s l vs -> length vs <= fuel -> values fuel s l = Some vs.
Proof.
  intros (rs & Hchain & Hdata & _ & _) Hfuel. unfold values.
  rewrite (reachable_chain fuel s _ rs Hchain)
    by (by rewrite (data_of_length _ _ _ Hdata)).
  simpl. by apply mapM_Some.
Qed.

Lemma search_loop_spec (fuel : nat) (value : T) (s : store T) (n : option ref)
    (rs : list ref) (vs : list T) :
  chain s n rs -> data_of s rs vs -> length vs <= fuel ->
  search_loop fuel value s n = Done (bool_decide (value ∈ vs)).
Proof.
  unfold chain. intros Hchain Hdata. revert fuel n Hchain.
  induction Hdata as [|r v rs vs Hr Hdata IH]; intros fuel n Hchain Hfuel;
    simpl in Hchain.
  - subst n. rewrite bool_decide_eq_false_2 by apply not_elem_of_nil.
    by destruct fuel.
  - destruct Hchain as (-> & nd & Hnd & Hseg).
    destruct fuel as [|fuel]; [simpl in Hfuel; lia|].
    cbn [search_loop]. rewrite Hnd. rewrite Hnd in Hr. injection Hr as <-.
    destruct (bool_decide_reflect (data nd = value)) as [Heq|Heq].
    + subst. by rewrite bool_decide_eq_true_2 by left.
    + rewrite (IH fuel _ Hseg) by (simpl in Hfuel; lia). f_equal.
      apply bool_decide_ext. rewrite elem_of_cons.
      split; [intros ?; by right | intros [Hv|?]; [congruence | done]].
Qed.

Lemma find_loop_spec (fuel : nat) (f : T -> bool) (s : store T) (n : option ref)
    (rs : list ref) (vs : list T) :
  chain s n rs -> data_of s rs vs -> length vs <= fuel ->
  find_loop fuel f s n = Done (List.find f vs).
Proof.
  unfold chain. intros Hchain Hdata. revert fuel n Hchain.
  induction Hdata as [|r v rs vs Hr Hdata IH]; intros fuel n; simpl.
  - intros -> _. by destruct fuel.
  - intros (-> & nd & Hnd & Hseg) Hfuel. destruct fuel as [|fuel]; [lia|].
    simpl. rewrite Hnd. rewrite Hnd in Hr. injection Hr as <-.
    destruct (f (data nd)); [done|]. by apply IH; [|lia].
Qed.

(** *** Removing elements *)

Lemma shift_rep (s : store T) (l : t) (v : T) (vs : list T) :
  list_rep s l (v :: vs) ->
  exists h l', shift s l = Done (Some h, s, l') /\
               data <$> s !! h = Some v /\ list_rep s l' vs.
Proof.
  intros (rs & Hchain & Hdata & Hsize & Htail).
  destruct rs as [|r rs]; [by apply Forall2_nil_inv_l in Hdata|].
  apply Forall2_cons in Hdata as [Hr Hdata].
  unfold chain in Hchain. simpl in Hchain. destruct Hchain as (Hh & nd & Hnd & Hseg).
  unfold shift. rewrite Hh. eexists _, _. split; [reflexivity|].
  split; [done|]. exists rs. cbn [_head _tail _size].
  unfold next_of. rewrite Hnd. simpl. split; [done|]. split; [done|].
  split; [simpl in Hsize; lia|].
  intros Hne. rewrite (Htail ltac:(done)). by destruct rs.
Qed.

Lemma shift_empty (s : store T) (l : t) :
  list_rep s l [] -> shift s l = Done (None, s, l).
Proof.
  intros (rs & Hchain & Hdata & _ & _).
  apply Forall2_nil_inv_r in Hdata as ->.
  unfold chain in Hchain. simpl in Hchain. unfold shift. by rewrite Hchain.
Qed.

(** The scan of [delete] from a Node of the chain whose own value was
    looked at before. *)
Lemma delete_scan_spec (fuel : nat) (f : T -> bool) (s : store T) (l : t)
    (rpre : list ref) (curr : ref) (rpost : list ref)
    (vpre : list T) (vc : T) (vpost : list T) :
  chain s (_head l) (rpre ++ curr :: rpost) ->
  data_of s rpre vpre -> data_of s [curr] [vc] -> data_of s rpost vpost ->
  _size l = Z.of_nat (length (vpre ++ vc :: vpost)) ->
  _tail l = last (rpre ++ curr :: rpost) ->
  length vpost < fuel ->
  exists b s' l',
    delete_scan fuel f s l curr = Done (b, s', l') /\
    match remove_first f vpost with
    | Some vs' => b = true /\ list_rep s' l' (vpre ++ vc :: vs')
    | None => b = false /\ s' = s /\ l' = l
    end.
Proof.
  revert fuel rpre curr vpre vc vpost.
  induction rpost as [|nx rpost IH];
    intros fuel rpre curr vpre vc vpost Hchain Hpre Hc Hpost Hsize Htail Hfuel.
  - apply Forall2_nil_inv_l in Hpost as ->.
    destruct fuel as [|fuel]; [simpl in Hfuel; lia|].
    apply seg_app in Hchain as (k & _ & Hcurr). simpl in Hcurr.
    destruct Hcurr as (-> & nd & Hnd & Hnext).
    cbn [delete_scan]. rewrite Hnd. cbv beta iota. rewrite Hnext.
    eexists _, _, _. split; [reflexivity|]. done.
  - destruct vpost as [|vn vpost]; [by apply Forall2_nil_inv_r in Hpost|].
    apply Forall2_cons in Hpost as [Hvn Hpost].
    destruct fuel as [|fuel]; [lia|].
    pose proof (chain_NoDup _ _ _ Hchain) as Hnodup.
    pose proof Hchain as Hchain0.
    apply seg_app in Hchain as (k & Hsegpre & Hcurr). simpl in Hcurr.
    destruct Hcurr as (-> & nd & Hnd & Hnext & nn & Hnn & Hrest).
    cbn [delete_scan]. rewrite Hnd. cbv beta iota. rewrite Hnext, Hnn.
    cbv beta iota. rewrite Hnn in Hvn. injection Hvn as <-. cbn [remove_first].
    destruct (f (data nn)) eqn:Hf.
    + eexists _, _, _. split; [reflexivity|]. split; [done|].
      apply NoDup_app in Hnodup as (_ & Hdisj & Hnd2).
      apply NoDup_cons in Hnd2 as [Hcurr_post _].
      assert (curr ∉ rpost) as Hcp.
      { intros Hin. apply Hcurr_post. by right. }
      assert (curr ∉ rpre) as Hcpre.
      { intros Hin. apply (Hdisj _ Hin). left. }
      exists (rpre ++ curr :: rpost).
      assert (seg (set_next s curr (next nn)) (_head l) (rpre ++ curr :: rpost) None)
        as Hnewchain.
      { apply seg_app. exists (Some curr). split.
        - apply (seg_frame s); [|done]. intros r Hr.
          apply set_next_lookup_ne. intros ->. done.
        - split; [done|]. exists (mkNode (data nd) (next nn)).
          split; [by apply set_next_lookup_eq|]. cbn [next].
          apply (seg_frame s); [|done]. intros r Hr.
          apply set_next_lookup_ne. intros ->. done. }
      assert (data_of (set_next s curr (next nn)) (rpre ++ curr :: rpost)
                (vpre ++ vc :: vpost)) as Hnewdata.
      { apply (data_of_frame s); [intros; apply set_next_data|].
        apply Forall2_app; [done|]. apply Forall2_cons. split; [|done].
        by apply Forall2_cons in Hc as [? _]. }
      destruct (next nn) as [nnx|] eqn:Hnnx; cbn [_head _tail _size].
      * split; [done|]. split; [done|]. split.
        -- rewrite Hsize, !length_app. simpl. lia.
        -- intros _. rewrite Htail.
           destruct rpost as [|r1 rpost]; [simpl in Hrest; discriminate|].
           rewrite !last_app. simpl. done.
      * split; [done|]. split; [done|]. split.
        -- rewrite Hsize, !length_app. simpl. lia.
        -- intros _. destruct rpost as [|r1 rpost].
           ++ by rewrite last_snoc.
           ++ simpl in Hrest. by destruct Hrest.
    + assert (chain s (_head l) ((rpre ++ [curr]) ++ nx :: rpost)) as Hchain1
        by (by rewrite <- app_assoc).
      destruct (IH fuel (rpre ++ [curr]) nx (vpre ++ [vc]) (data nn) vpost Hchain1)
        as (b & s' & l' & Hscan & Hres).
      * apply Forall2_app; [done|]. by apply Forall2_cons in Hc as [? _]; constructor.
      * constructor; [by rewrite Hnn | constructor].
      * done.
      * rewrite Hsize, !length_app. simpl. rewrite ?length_app. simpl. lia.
      * by rewrite <- app_assoc.
      * simpl in Hfuel. lia.
      * exists b, s', l'. split; [exact Hscan|].
        destruct (remove_first f vpost) as [vs'|]; simpl; [|done].
        by rewrite <- app_assoc in Hres.
Qed.

(** [deleteBy] removes the first element that satisfies the predicate. *)
Lemma deleteBy_rep (fuel : nat) (s : store T) (l : t) (vs : list T)
    (f : T -> bool) :
  list_rep s l vs -> length vs <= fuel ->
  exists b s' l',
    deleteBy fuel s l f = Done (b, s', l') /\
    match remove_first f vs with
    | Some vs' => b = true /\ list_rep s' l' vs'
    | None => b = false /\ s' = s /\ l' = l
    end.
Proof.
  intros (rs & Hchain & Hdata & Hsize & Htail) Hfuel. unfold deleteBy.
  destruct rs as [|r rs].
  - apply Forall2_nil_inv_l in Hdata as ->.
    unfold chain in Hchain. simpl in Hchain. rewrite Hchain.
    eexists _, _, _. split; [reflexivity | done].
  - destruct vs as [|v vs]; [by apply Forall2_nil_inv_r in Hdata|].
    apply Forall2_cons in Hdata as [Hr Hdata].
    pose proof Hchain as Hchain0.
    unfold chain in Hchain. simpl in Hchain.
    destruct Hchain as (Hh & nd & Hnd & Hseg).
    rewrite Hh, Hnd. rewrite Hnd in Hr. injection Hr as <-. simpl.
    destruct (f (data nd)) eqn:Hf.
    + eexists _, _, _. split; [reflexivity|]. split; [done|].
      exists rs. destruct (next nd) as [nx|] eqn:Hnx; cbn [_head _tail _size].
      * split; [done|]. split; [done|]. split; [simpl in Hsize; lia|].
        intros Hne. rewrite (Htail ltac:(done)). by destruct rs.
      * split; [done|]. split; [done|]. split; [simpl in Hsize; lia|].
        intros Hne. destruct rs; [done|]. simpl in Hseg. by destruct Hseg.
    + destruct (delete_scan_spec fuel f s l [] r rs [] (data nd) vs)
        as (b & s' & l' & Hscan & Hres); try done.
      * constructor.
      * constructor; [by rewrite Hnd | constructor].
      * by apply Htail.
      * exists b, s', l'. split; [exact Hscan|].
        by destruct (remove_first f vs).
Qed.

(** The scan of [pop] stops at the Node before the last one. *)
Lemma pop_scan_spec (fuel : nat) (s : store T) (c : ref) (mid : list ref)
    (lastr : ref) :
  chain s (Some c) (c :: mid ++ [lastr]) -> length mid < fuel ->
  pop_scan fuel s c = Done (default c (last mid)).
Proof.
  unfold chain. revert fuel c. induction mid as [|m mid IH]; intros fuel c.
  - simpl. intros (_ & nd & Hnd & Hnext & nl & Hnl & Hend) Hfuel.
    destruct fuel as [|fuel]; [lia|]. cbn [pop_scan].
    rewrite Hnd. cbv beta iota. rewrite Hnext, Hnl. cbv beta iota.
    by rewrite Hend.
  - intros (_ & nd & Hnd & Hseg) Hfuel. destruct fuel as [|fuel]; [lia|].
    pose proof Hseg as Hseg0.
    simpl in Hseg. destruct Hseg as (Hnext & nm & Hnm & Hseg).
    cbn [pop_scan]. rewrite Hnd. cbv beta iota. rewrite Hnext, Hnm.
    cbv beta iota.
    assert (exists x, next nm = Some x) as [x Hx].
    { destruct mid; simpl in Hseg; destruct Hseg as [-> _]; eauto. }
    rewrite Hx. rewrite (IH fuel m); [| |simpl in Hfuel; lia].
    + destruct mid as [|r mid]; [reflexivity|].
      change (last (m :: r :: mid)) with (last (r :: mid)).
      destruct (proj2 (last_is_Some (r :: mid)) ltac:(done)) as [y ->].
      reflexivity.
    + simpl. split; [done|]. exists nm. split; [done|]. exact Hseg.
Qed.

(** [pop] on a list of two elements or more removes and returns the last
    one. *)
Lemma pop_rep (fuel : nat) (s : store T) (l : t) (vs : list T) (a b : T) :
  list_rep s l (vs ++ [a; b]) -> length vs < fuel ->
  exists s' l', pop fuel s l = Done (Some b, s', l') /\
                list_rep s' l' (vs ++ [a]).
Proof.
  intros (rs & Hchain & Hdata & Hsize & Htail) Hfuel.
  apply Forall2_app_inv_r in Hdata as (rinit & r2 & Hinit & H2 & ->).
  destruct r2 as [|ra r2]; [by apply Forall2_nil_inv_l in H2|].
  apply Forall2_cons in H2 as [Hra H2].
  destruct r2 as [|rb r2]; [by apply Forall2_nil_inv_l in H2|].
  apply Forall2_cons in H2 as [Hrb H2].
  apply Forall2_nil_inv_r in H2 as ->.
  pose proof (chain_NoDup _ _ _ Hchain) as Hnodup.
  assert (rinit ++ [ra; rb] = (rinit ++ [ra]) ++ [rb]) as Hsplit
    by (by rewrite <- app_assoc).
  rewrite Hsplit in Hchain, Hnodup, Htail.
  rewrite last_snoc in Htail. specialize (Htail ltac:(by destruct rinit)).
  destruct (rinit ++ [ra]) as [|h mid] eqn:Hhm; [by destruct rinit|].
  pose proof Hchain as Hchain0.
  unfold chain in Hchain. simpl in Hchain. destruct Hchain as (Hh & nd & Hnd & Hseg).
  unfold pop. rewrite Htail, Hh.
  assert (length mid = length rinit) as Hlen.
  { apply (f_equal length) in Hhm. rewrite length_app in Hhm. simpl in Hhm. lia. }
  rewrite (pop_scan_spec fuel s h mid rb);
    [| by rewrite Hh in Hchain0
     | rewrite Hlen, (Forall2_length _ _ _ Hinit); lia].
  assert (default h (last mid) = ra) as ->.
  { destruct mid as [|m mid] using rev_ind.
    - simpl. destruct rinit as [|? [|? ?]]; simplify_eq. done.
    - rewrite last_snoc. simpl.
      change (h :: mid ++ [m]) with ((h :: mid) ++ [m]) in Hhm.
      by apply app_inj_tail in Hhm as [_ ->]. }
  destruct (s !! rb) as [ndb|] eqn:Hndb; [|done]. simpl in Hrb.
  injection Hrb as <-.
  eexists _, _. split; [reflexivity|].
  exists (h :: mid). cbn [_head _tail _size].
  apply NoDup_app in Hnodup as (Hnd1 & Hdisj & _).
  rewrite Hh in Hchain0. rewrite <- Hhm in Hchain0, Hnd1 |- *.
  split; [|split; [|split]].
  - apply seg_set_last with (Some rb).
    + apply seg_app in Hchain0 as (k & Hk & Hrb').
      simpl in Hrb'. destruct Hrb' as (-> & _). exact Hk.
    + apply NoDup_app in Hnd1 as (_ & Hd & _). intros Hin.
      apply (Hd _ Hin). constructor.
  - apply (data_of_frame s); [intros; apply set_next_data|].
    apply Forall2_app; [done|]. constructor; [done | constructor].
  - rewrite Hsize, !length_app. simpl. lia.
  - intros _. by rewrite last_snoc.
Qed.

(** *** Chains without a cycle: [cycle] and [from] *)

Lemma seg_lookup_next (s : store T) (n : option ref) (rs : list ref)
    (m : option ref) (j : nat) (r : ref) :
  seg s n rs m -> rs !! j = Some r ->
  next_of s r = match rs !! S j with Some r' => Some r' | None => m end.
Proof.
  revert n j. induction rs as [|r0 rs IH]; intros n j; simpl; [done|].
  intros (-> & nd & Hnd & Hseg) Hj. destruct j as [|j].
  - injection Hj as <-. unfold next_of. rewrite Hnd. simpl.
    destruct rs as [|r1 rs]; simpl in *; [done | by destruct Hseg].
  - by apply (IH _ _ Hseg).
Qed.

Lemma chain_lookup_next (s : store T) (n : option ref) (rs : list ref)
    (j : nat) (r : ref) :
  chain s n rs -> rs !! j = Some r -> next_of s r = rs !! S j.
Proof.
  intros Hchain Hj. rewrite (seg_lookup_next _ _ _ _ _ _ Hchain Hj).
  by destruct (rs !! S j).
Qed.

(** On a chain that ends, the fast reference of [cycle] runs off the end
    before the slow one can meet it. *)
Lemma cycle_meet_chain (fuel : nat) (s : store T) (n : option ref)
    (rs : list ref) (i : nat) :
  chain s n rs -> 2 * i <= length rs + 1 -> length rs + 2 <= 2 * (i + fuel) ->
  (i = 0 \/ is_Some (rs !! i)) ->
  exists f, cycle_meet fuel s (match i with 0 => n | _ => rs !! i end)
              (match i with 0 => n | _ => rs !! (2 * i) end) = Done (false, f).
Proof.
  intros Hchain. pose proof (chain_NoDup _ _ _ Hchain) as Hnodup.
  assert (n = rs !! 0) as Hn0.
  { unfold chain in Hchain. destruct rs; simpl in Hchain; [done | by destruct Hchain]. }
  assert (forall i, match i with 0 => n | _ => rs !! i end = rs !! i) as Hpos.
  { intros [|k]; [done | done]. }
  revert i. induction fuel as [|fuel IH]; intros i Hi Hfuel Hsl; [lia|].
  assert (match i with 0 => n | _ => rs !! (2 * i) end = rs !! (2 * i)) as ->.
  { destruct i; [done | done]. }
  rewrite Hpos. cbn [cycle_meet].
  destruct (rs !! (2 * i)) as [f|] eqn:Hf; [|eauto].
  rewrite (chain_lookup_next _ _ _ _ _ Hchain Hf).
  destruct (rs !! S (2 * i)) as [fn|] eqn:Hfn; [|eauto].
  pose proof (lookup_lt_Some _ _ _ Hfn) as Hlen.
  destruct (lookup_lt_is_Some_2 rs i ltac:(lia)) as [sl Hsl'].
  rewrite Hsl'.
  rewrite (chain_lookup_next _ _ _ _ _ Hchain Hsl').
  rewrite (chain_lookup_next _ _ _ _ _ Hchain Hfn).
  destruct (lookup_lt_is_Some_2 rs (S i) ltac:(lia)) as [sl1 Hsl1].
  rewrite bool_decide_eq_false_2.
  - specialize (IH (S i) ltac:(lia) ltac:(lia) ltac:(right; eauto)).
    cbn [Nat.mul] in IH. replace (S i + (S i + 0)) with (S (S (2 * i))) in IH by lia.
    exact IH.
  - rewrite Hsl1. intros Heq. symmetry in Heq.
    pose proof (NoDup_lookup _ _ _ _ Hnodup Heq Hsl1). lia.
Qed.

Lemma from_walk_chain (fuel : nat) (s : store T) (t0 : ref) (rest : list ref)
    (visited : bool) (count : Z) :
  chain s (Some t0) (t0 :: rest) -> length rest < fuel ->
  from_walk fuel s None visited t0 count
  = Done (s, default t0 (last rest), (count + Z.of_nat (length rest))%Z).
Proof.
  unfold chain. revert fuel t0 count.
  induction rest as [|r rest IH]; intros fuel t0 count.
  - simpl. intros (_ & nd & Hnd & Hnext) Hfuel. destruct fuel as [|fuel]; [lia|].
    cbn [from_walk]. unfold next_of. rewrite Hnd. simpl. rewrite Hnext.
    do 3 f_equal. lia.
  - intros (_ & nd & Hnd & Hseg) Hfuel. destruct fuel as [|fuel]; [lia|].
    pose proof Hseg as Hseg0. simpl in Hseg. destruct Hseg as (Hnext & _).
    cbn [from_walk]. unfold next_of at 1. rewrite Hnd. simpl. rewrite Hnext.
    rewrite ?bool_decide_eq_false_2 by done.
    rewrite (IH fuel r); [| by rewrite <- Hnext | simpl in Hfuel; lia].
    f_equal. f_equal; [f_equal|].
    + destruct rest as [|r1 rest]; [reflexivity|].
      change (last (r :: r1 :: rest)) with (last (r1 :: rest)).
      destruct (proj2 (last_is_Some (r1 :: rest)) ltac:(done)) as [y ->].
      reflexivity.
    + simpl length. lia.
Qed.

(** *** The operations as a user sees them *)

(** X1: [new LinkedList(...args)] holds exactly the arguments, in
    order: iterating the list yields them and the size is their number. *)
Theorem linkedlist_constructor_holds_args (args : list T) :
  exists s l,
    new [] empty args = Done (s, l) /\
    list_rep s l args /\
    values (length args) s l = Some args /\
    _size l = Z.of_nat (length args).
Proof.
  destruct (new_rep [] empty [] args (empty_rep [])) as (s & l & Hnew & Hrep).
  exists s, l. split; [done|]. split; [done|].
  split; [by apply values_rep|]. by destruct Hrep as (rs & _ & _ & Hsize & _).
Qed.

(** X2: on a list that stands for [vs], [insert(value)] returns and the
    list then stands for [vs] followed by [value]. *)
Theorem linkedlist_insert_appends (s : store T) (l : t) (vs : list T) (value : T) :
  list_rep s l vs ->
  exists s' l',
    insert s l value = Done (s', l') /\
    list_rep s' l' (vs ++ [value]) /\
    values (S (length vs)) s' l' = Some (vs ++ [value]).
Proof.
  intros Hrep. destruct (insert_rep s l vs value Hrep) as (s' & l' & Hins & Hrep').
  exists s', l'. split; [done|]. split; [done|].
  apply values_rep; [done|]. rewrite length_app. simpl. lia.
Qed.

Lemma data_of_last (s : store T) (rs : list ref) (vs : list T) (t0 : ref) :
  data_of s rs vs -> last rs = Some t0 -> data <$> s !! t0 = last vs.
Proof.
  intros Hdata Hlast. apply last_Some in Hlast as [rs' ->].
  apply Forall2_app_inv_l in Hdata as (vs' & v1 & _ & H1 & ->).
  destruct v1 as [|v v1]; [by apply Forall2_nil_inv_r in H1|].
  apply Forall2_cons in H1 as [Hv H1]. apply Forall2_nil_inv_l in H1 as ->.
  by rewrite last_snoc.
Qed.

(** X3: on a list that stands for [vs], iteration yields [vs],
    [peekFirst()] is the first and, when there is one, [peek()] the last
    element, and [isEmpty()] holds exactly when [vs] is empty. *)
Theorem linkedlist_reads (s : store T) (l : t) (vs : list T) :
  list_rep s l vs ->
  values (length vs) s l = Some vs /\
  peekFirst s l = head vs /\
  (vs <> [] -> peek s l = last vs) /\
  (isEmpty l = true <-> vs = []).
Proof.
  intros Hrep. split; [by apply values_rep|].
  destruct Hrep as (rs & Hchain & Hdata & Hsize & Htail).
  split; [|split].
  - unfold peekFirst, chain in *. destruct Hdata as [|r v rs vs Hr Hdata].
    + simpl in Hchain. by rewrite Hchain.
    + simpl in Hchain. destruct Hchain as (-> & _). simpl. exact Hr.
  - intros Hne. unfold peek.
    assert (rs <> []) as Hrs.
    { intros ->. apply Forall2_nil_inv_l in Hdata. done. }
    rewrite (Htail Hrs).
    destruct (proj2 (last_is_Some rs) Hrs) as [t0 Ht0]. rewrite Ht0. simpl.
    by apply (data_of_last s rs).
  - unfold isEmpty. rewrite Hsize. split.
    + intros Hz%bool_decide_eq_true. destruct vs; [done | simpl in Hz; lia].
    + intros ->. done.
Qed.

(** X4: on a list that stands for [vs], [search(value)] tells whether
    [value] is among [vs], and [find(predicate)] returns the first element of
    [vs] that satisfies the predicate, or [null]. *)
Theorem linkedlist_search_find (s : store T) (l : t) (vs : list T)
    (value : T) (predicate : T -> bool) :
  list_rep s l vs ->
  search (length vs) s l value = Done (bool_decide (value ∈ vs)) /\
  find (length vs) s l predicate = Done (List.find predicate vs).
Proof.
  intros (rs & Hchain & Hdata & _ & _). split.
  - by apply (search_loop_spec _ _ _ _ rs).
  - by apply (find_loop_spec _ _ _ _ rs).
Qed.

(** X5: on a list that stands for [vs], [deleteBy(filterFn)] removes
    the first element that satisfies [filterFn] and returns [true], or
    returns [false] and changes nothing when there is none; [delete(value)]
    does the same for the first element equal to [value]. *)
Theorem linkedlist_delete_first_match (s : store T) (l : t) (vs : list T)
    (filterFn : T -> bool) (value : T) :
  list_rep s l vs ->
  (exists b s' l',
      deleteBy (length vs) s l filterFn = Done (b, s', l') /\
      match remove_first filterFn vs with
      | Some vs' => b = true /\ list_rep s' l' vs'
      | None => b = false /\ s' = s /\ l' = l
      end) /\
  (exists b s' l',
      delete (length vs) s l value = Done (b, s', l') /\
      match remove_first (fun d => bool_decide (d = value)) vs with
      | Some vs' => b = true /\ list_rep s' l' vs'
      | None => b = false /\ s' = s /\ l' = l
      end).
Proof.
  intros Hrep. split; [by apply deleteBy_rep|].
  unfold delete. by apply deleteBy_rep.
Qed.


(** X7: [pop()] on a list of two elements or more returns the last
    element and the list then stands for the others; on an empty list it
    returns [undefined] and changes nothing. *)
Theorem linkedlist_pop_removes_last (s : store T) (l : t) (vs : list T) :
  list_rep s l vs -> length vs <> 1 ->
  exists s' l', pop (length vs) s l = Done (last vs, s', l') /\
                list_rep s' l' (removelast vs).
Proof.
  intros Hrep Hlen.
  destruct vs as [|b vs _] using rev_ind.
  - exists s, l. split; [|done].
    destruct Hrep as (rs & Hchain & Hdata & _ & _).
    apply Forall2_nil_inv_r in Hdata as ->.
    unfold chain in Hchain. simpl in Hchain. unfold pop. rewrite Hchain.
    by destruct (_tail l).
  - destruct vs as [|a vs _] using rev_ind; [done|].
    rewrite <- app_assoc in Hrep. cbn [app] in Hrep.
    destruct (pop_rep (length ((vs ++ [a]) ++ [b])) s l vs a b Hrep)
      as (s' & l' & Hpop & Hrep').
    { rewrite !length_app. simpl. lia. }
    exists s', l'. rewrite last_snoc, removelast_last. done.
Qed.

(** X8: on a chain of Nodes that ends in [null], [cycle(root)] returns
    [null] and [from(root)] returns a list that stands for the values of the
    chain, the chain being left as it is. *)
Theorem linkedlist_from_chain (fuel : nat) (s : store T) (root : ref)
    (rs : list ref) (vs : list T) :
  chain s (Some root) rs -> data_of s rs vs -> length rs < fuel ->
  cycle fuel s (Some root) = Done None /\
  exists l, from fuel s root = Done (s, l) /\ list_rep s l vs.
Proof.
  intros Hchain Hdata Hfuel.
  destruct (cycle_meet_chain fuel s (Some root) rs 0 Hchain) as [f Hmeet];
    [lia | lia | by left |].
  assert (cycle fuel s (Some root) = Done None) as Hcycle.
  { unfold cycle. by rewrite Hmeet. }
  split; [exact Hcycle|]. unfold from. rewrite Hcycle.
  destruct rs as [|r0 rest]; [unfold chain in Hchain; simpl in Hchain; done|].
  assert (r0 = root) as ->.
  { unfold chain in Hchain. simpl in Hchain. by destruct Hchain as [[= <-] _]. }
  rewrite (from_walk_chain fuel s root rest false 1 Hchain)
    by (simpl in Hfuel; lia).
  eexists. split; [reflexivity|].
  exists (root :: rest). cbn [_head _tail _size].
  split; [done|]. split; [done|]. split.
  - rewrite <- (data_of_length _ _ _ Hdata). simpl length. lia.
  - intros _. destruct rest as [|r1 rest]; [reflexivity|].
    change (last (root :: r1 :: rest)) with (last (r1 :: rest)).
    destruct (proj2 (last_is_Some (r1 :: rest)) ltac:(done)) as [y ->].
    reflexivity.
Qed.
End ListFacts.

Lemma rep123 : list_rep store123 list123 [1; 2; 3]%Z.
Proof.
  exists [0; 1; 2]. split; [|split; [|split]].
  - unfold chain. simpl.
    repeat (split; [reflexivity|]; eexists; split; [reflexivity|]).
    reflexivity.
  - repeat constructor.
  - reflexivity.
  - intros _. reflexivity.
Qed.

Lemma chain123 : chain store123 (Some 0) [0; 1; 2] /\
                 data_of store123 [0; 1; 2] [1; 2; 3]%Z.
Proof.
  split.
  - unfold chain. simpl.
    repeat (split; [reflexivity|]; eexists; split; [reflexivity|]).
    reflexivity.
  - repeat constructor.
Qed.

Lemma linkedlist_insert_appends_witness :
  exists s' l',
    LinkedList.insert store123 list123 4%Z = Done (s', l') /\
    list_rep s' l' ([1; 2; 3] ++ [4])%Z /\
    LinkedList.values 4 s' l' = Some ([1; 2; 3] ++ [4])%Z.
Proof. apply (linkedlist_insert_appends store123 list123 [1; 2; 3]%Z 4%Z rep123). Defined.

Lemma linkedlist_reads_witness :
  LinkedList.values 3 store123 list123 = Some [1; 2; 3]%Z /\
  LinkedList.peekFirst store123 list123 = head [1; 2; 3]%Z /\
  ([1; 2; 3]%Z <> [] -> LinkedList.peek store123 list123 = last [1; 2; 3]%Z) /\
  (LinkedList.isEmpty list123 = true <-> [1; 2; 3]%Z = []).
Proof. apply (linkedlist_reads store123 list123 [1; 2; 3]%Z rep123). Defined.

Lemma linkedlist_search_find_witness :
  LinkedList.search 3 store123 list123 2%Z
    = Done (bool_decide (2%Z ∈ [1; 2; 3]%Z)) /\
  LinkedList.find 3 store123 list123 (Z.ltb 1)
    = Done (List.find (Z.ltb 1) [1; 2; 3]%Z).
Proof.
  apply (linkedlist_search_find store123 list123 [1; 2; 3]%Z 2%Z (Z.ltb 1) rep123).
Defined.

Lemma linkedlist_delete_first_match_witness :
  (exists b s' l',
      LinkedList.deleteBy 3 store123 list123 (Z.ltb 1) = Done (b, s', l') /\
      match remove_first (Z.ltb 1) [1; 2; 3]%Z with
      | Some vs' => b = true /\ list_rep s' l' vs'
      | None => b = false /\ s' = store123 /\ l' = list123
      end) /\
  (exists b s' l',
      LinkedList.delete 3 store123 list123 3%Z = Done (b, s', l') /\
      match remove_first (fun d => bool_decide (d = 3%Z)) [1; 2; 3]%Z with
      | Some vs' => b = true /\ list_rep s' l' vs'
      | None => b = false /\ s' = store123 /\ l' = list123
      end).
Proof.
  apply (linkedlist_delete_first_match store123 list123 [1; 2; 3]%Z (Z.ltb 1) 3%Z rep123).
Defined.


Lemma linkedlist_pop_removes_last_witness :
  exists s' l',
    LinkedList.pop (length [1; 2; 3]%Z) store123 list123
      = Done (last [1; 2; 3]%Z, s', l') /\
    list_rep s' l' (removelast [1; 2; 3]%Z).
Proof.
  apply (linkedlist_pop_removes_last store123 list123 [1; 2; 3]%Z rep123).
  simpl. lia.
Defined.

Lemma linkedlist_from_chain_witness :
  LinkedList.cycle 4 store123 (Some 0) = Done None /\
  exists l, LinkedList.from 4 store123 0 = Done (store123, l) /\
            list_rep store123 l [1; 2; 3]%Z.
Proof.
  apply (linkedlist_from_chain 4 store123 0 [0; 1; 2] [1; 2; 3]%Z).
  - apply chain123.
  - apply chain123.
  - simpl. lia.
Defined.


(** ** MinHeap: the elements and the order of a heap *)

Section HeapElements.
Context {T : Type} (compare : T -> T -> Z).
Import MinHeap.

(** [popMin] takes the first element of a non-empty array out and keeps
    the others, whatever the comparator. *)
Lemma popMin_perm (x : T) (t : list T) :
  exists h', popMin compare (x :: t) = (Some x, h') /\ x :: t ≡ₚ x :: h'.
Proof.
  unfold popMin. cbn [lookup list_lookup].
  destruct (last (x :: t)) as [l|] eqn:Hlast;
    [|by apply last_None in Hlast].
  eexists. split; [reflexivity|].
  destruct (decide (t = [])) as [->|Hne].
  - simpl. by rewrite heapifyDown_perm.
  - destruct (exists_last Hne) as (t' & l' & ->).
    rewrite last_cons, last_snoc in Hlast. injection Hlast as <-.
    change (<[0:=l']> (x :: t' ++ [l'])) with ((l' :: t') ++ [l']).
    rewrite removelast_last, heapifyDown_perm. constructor.
    by rewrite Permutation_app_comm.
Qed.

(** X9: whatever the comparator, a sequence of [insert] and [popMin]
    calls neither loses nor invents an element: the values returned by
    [popMin] together with the final heap are the initial heap together with
    the inserted values, as multisets. *)
Theorem minheap_keeps_elements (ops : list op) (h : list T) :
  fst (run compare ops h) ++ snd (run compare ops h) ≡ₚ h ++ inserted ops.
Proof.
  revert h. induction ops as [|[v|] ops IH]; intros h.
  - simpl. by rewrite app_nil_r.
  - cbn [run inserted]. rewrite IH, insert_perm.
    cbn [app]. apply Permutation_middle.
  - cbn [run inserted]. destruct h as [|x t].
    + rewrite popMin_empty. specialize (IH []).
      destruct (run compare ops []) as [out h'']. exact IH.
    + destruct (popMin_perm x t) as (h' & -> & Hperm).
      specialize (IH h'). destruct (run compare ops h') as [out h''].
      cbn [fst snd] in *. rewrite Hperm. cbn [app]. by rewrite IH.
Qed.

Lemma pops_all (k : nat) (h : list T) :
  length h <= k ->
  fst (run compare (repeat PopMin k) h) ≡ₚ h /\
  snd (run compare (repeat PopMin k) h) = [].
Proof.
  revert h. induction k as [|k IH]; intros h Hlen.
  - destruct h; [done | simpl in Hlen; lia].
  - cbn [repeat run]. destruct h as [|x t].
    + rewrite popMin_empty. destruct (IH [] ltac:(simpl; lia)) as [H1 H2].
      destruct (run compare (repeat PopMin k) []) as [out h'']. done.
    + destruct (popMin_perm x t) as (h' & -> & Hperm).
      assert (length h' <= k) as Hlen'.
      { apply Permutation_length in Hperm. simpl in *. lia. }
      destruct (IH h' Hlen') as [H1 H2].
      destruct (run compare (repeat PopMin k) h') as [out h''].
      cbn [fst snd] in *. split; [|done]. by rewrite Hperm, H1.
Qed.
End HeapElements.

Section HeapOrderKept.
Context {T : Type} (compare : T -> T -> Z) (Hto : total_order compare).
Import MinHeap.

(** X10: for a comparator that is a total order, the constructor turns
    any array into a heap of the same elements: every element is not before
    its parent. *)
Theorem minheap_constructor_builds_heap (a : list T) :
  heap_ordered compare (new compare (Some a)) /\ new compare (Some a) ≡ₚ a.
Proof. split; [by apply new_heap | apply new_perm]. Qed.

(** X11: for a comparator that is a total order, [insert] keeps the
    heap order and adds exactly the value. *)
Theorem minheap_insert_keeps_heap (h : list T) (value : T) :
  heap_ordered compare h ->
  heap_ordered compare (insert compare h value) /\
  insert compare h value ≡ₚ value :: h.
Proof. intros Hh. split; [by apply insert_heap | apply insert_perm]. Qed.

(** X12: for a comparator that is a total order, [popMin] on a
    non-empty heap returns an element that is not after any other, and
    leaves a heap of the remaining elements. *)
Theorem minheap_popMin_removes_least (h : list T) :
  heap_ordered compare h -> h <> [] ->
  exists x h',
    popMin compare h = (Some x, h') /\ least compare x h /\
    h ≡ₚ x :: h' /\ heap_ordered compare h'.
Proof.
  intros Hh Hne. destruct h as [|x t]; [done|].
  destruct (popMin_nonempty compare Hto x t) as (h' & Hpop & Hperm & Hh').
  exists x, h'. split; [done|]. split; [by apply root_least|].
  split; [done | by apply Hh'].
Qed.

(** X13: for a comparator that is a total order, building a heap from
    an array and calling [popMin] once per element returns the elements of
    the array in non-decreasing order and leaves the heap empty. *)
Theorem minheap_sorts (a : list T) :
  let r := run compare (repeat PopMin (length a)) (new compare (Some a)) in
  Sorted (not_after compare) (fst r) /\ fst r ≡ₚ a /\ snd r = [].
Proof.
  cbn zeta.
  destruct (pops_sorted compare Hto (length a) (new compare (Some a))
              (new_heap compare Hto (Some a))) as [Hs _].
  destruct (pops_all compare (length a) (new compare (Some a))) as [Hp He].
  { by rewrite (Permutation_length (new_perm compare a)). }
  split; [done|]. split; [|done]. by rewrite Hp, new_perm.
Qed.
End HeapOrderKept.

Lemma minheap_constructor_builds_heap_witness :
  heap_ordered numeric (MinHeap.new numeric (Some [5; 3; 8; 1]%Z)) /\
  MinHeap.new numeric (Some [5; 3; 8; 1]%Z) ≡ₚ [5; 3; 8; 1]%Z.
Proof.
  apply (minheap_constructor_builds_heap numeric numeric_total_order [5; 3; 8; 1]%Z).
Defined.

Lemma heap_1385 : heap_ordered numeric [1; 3; 8; 5]%Z.
Proof.
  intros c Hc _ x y Hx Hy. unfold numeric.
  destruct c as [|[|[|[|c]]]]; try lia; try discriminate;
    vm_compute in Hx, Hy; simplify_eq; lia.
Qed.

Lemma minheap_insert_keeps_heap_witness :
  heap_ordered numeric (MinHeap.insert numeric [1; 3; 8; 5]%Z 0%Z) /\
  MinHeap.insert numeric [1; 3; 8; 5]%Z 0%Z ≡ₚ 0%Z :: [1; 3; 8; 5]%Z.
Proof.
  apply (minheap_insert_keeps_heap numeric numeric_total_order
           [1; 3; 8; 5]%Z 0%Z heap_1385).
Defined.

Lemma minheap_popMin_removes_least_witness :
  exists x h',
    MinHeap.popMin numeric [1; 3; 8; 5]%Z = (Some x, h') /\
    least numeric x [1; 3; 8; 5]%Z /\
    [1; 3; 8; 5]%Z ≡ₚ x :: h' /\ heap_ordered numeric h'.
Proof.
  apply (minheap_popMin_removes_least numeric numeric_total_order
           [1; 3; 8; 5]%Z heap_1385).
  discriminate.
Defined.

Lemma minheap_sorts_witness :
  let r := MinHeap.run numeric (repeat MinHeap.PopMin (length [5; 3; 8; 1]%Z))
             (MinHeap.new numeric (Some [5; 3; 8; 1]%Z)) in
  Sorted (not_after numeric) (fst r) /\ fst r ≡ₚ [5; 3; 8; 1]%Z /\ snd r = [].
Proof. apply (minheap_sorts numeric numeric_total_order [5; 3; 8; 1]%Z). Defined.


(** ** Queue: first in, first out *)

Section QueueFacts.
Context {T : Type}.
Import QueueNodes.

Lemma enqueue_rep (s : LinkedList.store T) (q : t) (vs : list T) (value : T) :
  queue_rep s q vs ->
  exists s' q', enqueue s q value = Done (s', q') /\
                queue_rep s' q' (vs ++ [value]).
Proof.
  intros Hrep.
  destruct (insert_rep s _ vs value Hrep) as (s' & l' & Hins & Hrep').
  unfold LinkedList.insert in Hins. unfold enqueue.
  destruct (LinkedList.alloc s value) as [newNode s1].
  cbn [LinkedList._head LinkedList._tail LinkedList._size] in Hins.
  destruct (_head q); [destruct (_tail q); [|discriminate Hins]|];
    injection Hins as <- <-; eexists _, _; (split; [reflexivity|]);
    exact Hrep'.
Qed.

Lemma dequeue_rep (s : LinkedList.store T) (q : t) (vs : list T) :
  queue_rep s q vs ->
  exists q', dequeue s q = Done (head vs, q') /\ queue_rep s q' (tail vs) /\
             peek s q = Done (head vs) /\ (vs = [] -> q' = q).
Proof.
  intros Hrep. destruct vs as [|v vs].
  - pose proof (shift_empty s _ Hrep) as Hs. unfold LinkedList.shift in Hs.
    cbn [LinkedList._head] in Hs. unfold dequeue, peek.
    destruct (_head q) eqn:Hh; [discriminate Hs|].
    exists q. split; [done|]. split; [|done].
    unfold queue_rep. by destruct q.
  - destruct (shift_rep s _ v vs Hrep) as (h & l' & Hs & Hv & Hrep').
    unfold LinkedList.shift in Hs. cbn [LinkedList._head] in Hs.
    unfold dequeue, peek. destruct (_head q) as [h0|]; [|discriminate Hs].
    injection Hs as <- <-. unfold LinkedList.next_of in Hrep'.
    destruct (s !! h0) as [hd|] eqn:Hhd; [|discriminate Hv].
    simpl in Hv. injection Hv as ->. eexists. split; [reflexivity|].
    split; [exact Hrep'|]. split; [reflexivity | discriminate].
Qed.

Lemma queue_new_rep (s : LinkedList.store T) (q : t) (vs args : list T) :
  queue_rep s q vs ->
  exists s' q', new s q args = Done (s', q') /\ queue_rep s' q' (vs ++ args).
Proof.
  revert s q vs. induction args as [|a args IH]; intros s q vs Hrep.
  - exists s, q. split; [done|]. by rewrite app_nil_r.
  - destruct (enqueue_rep s q vs a Hrep) as (s1 & q1 & Henq & Hrep1).
    destruct (IH s1 q1 _ Hrep1) as (s2 & q2 & Hnew & Hrep2).
    exists s2, q2. cbn [new]. rewrite Henq. split; [done|].
    by rewrite <- app_assoc in Hrep2.
Qed.

Lemma run_rep (ops : list (op T)) (s : LinkedList.store T) (q : t) (vs : list T) :
  queue_rep s q vs ->
  exists out s' q' vs',
    run ops s q = Done (out, s', q') /\ queue_rep s' q' vs' /\
    dequeued out ++ vs' = vs ++ enqueued ops.
Proof.
  revert s q vs. induction ops as [|[v|] ops IH]; intros s q vs Hrep.
  - exists [], s, q, vs. split; [done|]. split; [done|].
    by rewrite app_nil_r.
  - destruct (enqueue_rep s q vs v Hrep) as (s1 & q1 & Henq & Hrep1).
    destruct (IH s1 q1 _ Hrep1) as (out & s2 & q2 & vs2 & Hrun & Hrep2 & Heq).
    exists out, s2, q2, vs2. cbn [run enqueued]. rewrite Henq.
    split; [done|]. split; [done|]. by rewrite Heq, <- app_assoc.
  - destruct (dequeue_rep s q vs Hrep) as (q1 & Hdeq & Hrep1 & _ & _).
    destruct (IH s q1 _ Hrep1) as (out & s2 & q2 & vs2 & Hrun & Hrep2 & Heq).
    exists (head vs :: out), s2, q2, vs2. cbn [run enqueued].
    rewrite Hdeq, Hrun. split; [done|]. split; [done|].
    unfold dequeued in *. destruct vs as [|v vs]; [exact Heq|].
    cbn [head tail] in *. change (v :: omap id out ++ vs2 = v :: vs ++ enqueued ops).
    by rewrite Heq.
Qed.

(** X14: [enqueue] on a queue that holds [vs] succeeds and the queue
    then holds [vs] followed by the value; this is so also after the queue
    was emptied, when [#tail] still refers to a removed Node. *)
Theorem queue_enqueue_appends (s : LinkedList.store T) (q : t) (vs : list T) (value : T) :
  queue_rep s q vs ->
  exists s' q', enqueue s q value = Done (s', q') /\
                queue_rep s' q' (vs ++ [value]).
Proof. apply enqueue_rep. Qed.

(** X15: on a queue that holds [vs], [dequeue] returns the first value
    and the queue then holds the others, or returns [null] and leaves the
    queue as it is when there is none; [peek] returns the same value,
    [isEmpty] tells whether there is none and [size] is their number. *)
Theorem queue_dequeue_removes_first (s : LinkedList.store T) (q : t) (vs : list T) :
  queue_rep s q vs ->
  (exists q', dequeue s q = Done (head vs, q') /\ queue_rep s q' (tail vs) /\
              (vs = [] -> q' = q)) /\
  peek s q = Done (head vs) /\
  (isEmpty q = true <-> vs = []) /\
  size q = Z.of_nat (length vs).
Proof.
  intros Hrep.
  destruct (dequeue_rep s q vs Hrep) as (q' & Hdeq & Hrep' & Hpeek & Hsame).
  split; [|split; [done|split]].
  - by exists q'.
  - destruct Hrep as (rs & Hchain & Hdata & _ & _).
    unfold isEmpty, chain in *. cbn [LinkedList._head] in Hchain.
    rewrite bool_decide_eq_true. destruct Hdata as [|r v rs vs Hr Hdata].
    + simpl in Hchain. done.
    + simpl in Hchain. destruct Hchain as (-> & _). done.
  - by destruct Hrep as (rs & _ & _ & Hsize & _).
Qed.

(** X16: first in, first out. After the constructor and any sequence
    of [enqueue] and [dequeue] calls, no call throws, and the values
    returned by the [dequeue] calls, followed by the values still in the
    queue, are the constructor's arguments followed by the enqueued values,
    in that order. *)
Theorem queue_fifo (s : LinkedList.store T) (args : list T) (ops : list (op T)) :
  exists s1 q1 out s2 q2 vs,
    new s empty args = Done (s1, q1) /\
    run ops s1 q1 = Done (out, s2, q2) /\
    queue_rep s2 q2 vs /\
    dequeued out ++ vs = args ++ enqueued ops.
Proof.
  destruct (queue_new_rep s empty [] args (empty_rep s)) as (s1 & q1 & Hnew & Hrep1).
  destruct (run_rep ops s1 q1 _ Hrep1) as (out & s2 & q2 & vs & Hrun & Hrep2 & Heq).
  by exists s1, q1, out, s2, q2, vs.
Qed.

(** X17: the reading of a queue as a list of items, used by the
    breadth-first search, is what the Nodes implement: when the two agree,
    [enqueue] and [dequeue] keep them in agreement and [dequeue], [peek],
    [isEmpty] and [size] return the same on both. *)
Theorem queue_list_reading (s : LinkedList.store T) (q : t) (a : Queue.t T) (value : T) :
  queue_models s q a ->
  (exists s' q', enqueue s q value = Done (s', q') /\
                 queue_models s' q' (Queue.enqueue a value)) /\
  (exists q', dequeue s q = Done (fst (Queue.dequeue a), q') /\
              queue_models s q' (snd (Queue.dequeue a))) /\
  peek s q = Done (Queue.peek a) /\
  isEmpty q = Queue.isEmpty a /\
  size q = Queue.size a.
Proof.
  intros [Hrep Hsize]. split; [|split; [|split; [|split]]].
  - destruct (enqueue_rep s q _ value Hrep) as (s' & q' & Henq & Hrep').
    exists s', q'. split; [done|]. split; [done|].
    destruct Hrep as (_ & _ & _ & Hsz & _).
    destruct Hrep' as (_ & _ & _ & Hsz' & _).
    cbn [LinkedList._size Queue._size Queue.enqueue] in *.
    rewrite length_app in Hsz'. simpl in Hsz'. lia.
  - destruct (dequeue_rep s q _ Hrep) as (q' & Hdeq & Hrep' & _ & Hsame).
    exists q'. unfold Queue.dequeue.
    destruct (Queue.items a) as [|v vs] eqn:Hitems.
    + split; [done|]. rewrite (Hsame eq_refl). cbn [snd].
      split; [|done]. rewrite Hitems. rewrite (Hsame eq_refl) in Hrep'.
      exact Hrep'.
    + split; [done|]. split; [done|].
      destruct Hrep as (_ & _ & _ & Hsz & _).
      destruct Hrep' as (_ & _ & _ & Hsz' & _).
      cbn [LinkedList._size Queue._size tail snd length] in *. lia.
  - by destruct (dequeue_rep s q _ Hrep) as (q' & _ & _ & Hpeek & _).
  - destruct Hrep as (rs & Hchain & Hdata & _ & _).
    unfold isEmpty, Queue.isEmpty, chain in *. cbn [LinkedList._head] in Hchain.
    destruct Hdata as [|r v rs vs Hr Hdata]; simpl in Hchain.
    + by rewrite Hchain.
    + by destruct Hchain as (-> & _).
  - done.
Qed.
End QueueFacts.

Lemma queue_rep123 : queue_rep store123 queue123 [1; 2; 3]%Z.
Proof. exact rep123. Qed.

Lemma queue_enqueue_appends_witness :
  exists s' q', QueueNodes.enqueue store123 queue123 4%Z = Done (s', q') /\
                queue_rep s' q' ([1; 2; 3]%Z ++ [4%Z]).
Proof.
  apply (queue_enqueue_appends store123 queue123 [1; 2; 3]%Z 4%Z queue_rep123).
Defined.

Lemma queue_dequeue_removes_first_witness :
  (exists q', QueueNodes.dequeue store123 queue123
                = Done (head [1; 2; 3]%Z, q') /\
              queue_rep store123 q' (tail [1; 2; 3]%Z) /\
              ([1; 2; 3]%Z = [] -> q' = queue123)) /\
  QueueNodes.peek store123 queue123 = Done (head [1; 2; 3]%Z) /\
  (QueueNodes.isEmpty queue123 = true <-> [1; 2; 3]%Z = []) /\
  QueueNodes.size queue123 = Z.of_nat (length [1; 2; 3]%Z).
Proof.
  apply (queue_dequeue_removes_first store123 queue123 [1; 2; 3]%Z queue_rep123).
Defined.

Lemma queue_list_reading_witness :
  (exists s' q', QueueNodes.enqueue store123 queue123 4%Z = Done (s', q') /\
                 queue_models s' q' (Queue.enqueue (Queue.mk [1; 2; 3]%Z 3) 4%Z)) /\
  (exists q', QueueNodes.dequeue store123 queue123
                = Done (fst (Queue.dequeue (Queue.mk [1; 2; 3]%Z 3)), q') /\
              queue_models store123 q' (snd (Queue.dequeue (Queue.mk [1; 2; 3]%Z 3)))) /\
  QueueNodes.peek store123 queue123 = Done (Queue.peek (Queue.mk [1; 2; 3]%Z 3)) /\
  QueueNodes.isEmpty queue123 = Queue.isEmpty (Queue.mk [1; 2; 3]%Z 3) /\
  QueueNodes.size queue123 = Queue.size (Queue.mk [1; 2; 3]%Z 3).
Proof.
  apply (queue_list_reading store123 queue123 (Queue.mk [1; 2; 3]%Z 3) 4%Z).
  split; [exact queue_rep123 | reflexivity].
Defined.


(** ** Graph: nodes and edges of the graphs the class builds *)

Section MapShape.
Context {K V : Type} `{EqDecision K}.

Lemma get_None_keys (m : list (K * V)) (k : K) :
  JsMap.get m k = None <-> k ∉ JsMap.keys m.
Proof.
  induction m as [|[k0 v0] m IH]; simpl.
  - split; [intros _; apply not_elem_of_nil | done].
  - rewrite not_elem_of_cons. destruct (decide (k0 = k)) as [->|Hne].
    + split; [discriminate | by intros [? _] ].
    + rewrite IH. split; [by intros ? | by intros [_ ?] ].
Qed.

Lemma has_keys (m : list (K * V)) (k : K) :
  JsMap.has m k = bool_decide (k ∈ JsMap.keys m).
Proof.
  unfold JsMap.has. destruct (JsMap.get m k) as [v|] eqn:Hg.
  - symmetry. apply bool_decide_eq_true. by eapply get_keys.
  - symmetry. apply bool_decide_eq_false. by apply get_None_keys.
Qed.

Lemma set_absent (m : list (K * V)) (k : K) (v : V) :
  JsMap.get m k = None -> JsMap.set m k v = m ++ [(k, v)].
Proof.
  induction m as [|[k0 v0] m IH]; simpl; [done|].
  destruct (decide (k0 = k)); [discriminate|]. intros Hg. by rewrite IH.
Qed.

Lemma set_present_keys (m : list (K * V)) (k : K) (v0 v : V) :
  JsMap.get m k = Some v0 -> JsMap.keys (JsMap.set m k v) = JsMap.keys m.
Proof.
  induction m as [|[k1 v1] m IH]; simpl; [discriminate|].
  destruct (decide (k1 = k)); [done|]. intros Hg.
  unfold JsMap.keys in *. cbn [map fst]. by rewrite IH.
Qed.
End MapShape.

Section GraphBuild.
Context {T : Type} `{JsKey T}.
Import Graph.

Lemma getAllEdges_cons (n : T) (l : list (GraphNode T)) (g : adjacency) :
  getAllEdges ((n, l) :: g)
  = map (fun a => mkEdge n (node a) (weight a)) l ++ getAllEdges g.
Proof. reflexivity. Qed.

Lemma getAllEdges_app (g1 g2 : @adjacency T) :
  getAllEdges (g1 ++ g2) = getAllEdges g1 ++ getAllEdges g2.
Proof.
  unfold getAllEdges, JsMap.entries. by rewrite map_app, concat_app.
Qed.

Lemma addNode_absent (g : adjacency) (value : T) :
  value ∉ getAllNodes g -> addNode g value = (true, g ++ [(value, [])]).
Proof.
  intros Hn. unfold addNode. rewrite has_keys, bool_decide_eq_false_2 by done.
  simpl. rewrite set_absent; [done|]. by apply get_None_keys.
Qed.

Lemma addNode_old (g : adjacency) (value : T) :
  value ∈ getAllNodes g -> addNode g value = (false, g).
Proof.
  intros Hn. unfold addNode. by rewrite has_keys, bool_decide_eq_true_2.
Qed.

Lemma addNode_nodes (g : adjacency) (value x : T) :
  x ∈ getAllNodes (snd (addNode g value)) <-> x ∈ getAllNodes g \/ x = value.
Proof.
  destruct (decide (value ∈ getAllNodes g)) as [Hin|Hout].
  - rewrite addNode_old by done. simpl. split; [by left|].
    intros [?| ->]; done.
  - rewrite addNode_absent by done. simpl. unfold getAllNodes, JsMap.keys.
    rewrite map_app, elem_of_app. simpl. by rewrite list_elem_of_singleton.
Qed.

Lemma addNode_edges (g : adjacency) (value : T) :
  getAllEdges (snd (addNode g value)) = getAllEdges g.
Proof.
  destruct (decide (value ∈ getAllNodes g)) as [Hin|Hout].
  - by rewrite addNode_old.
  - rewrite addNode_absent by done. simpl. rewrite getAllEdges_app.
    apply app_nil_r.
Qed.

Lemma addNode_NoDup (g : adjacency) (value : T) :
  NoDup (getAllNodes g) -> NoDup (getAllNodes (snd (addNode g value))).
Proof.
  intros Hnd. destruct (decide (value ∈ getAllNodes g)) as [Hin|Hout].
  - by rewrite addNode_old.
  - rewrite addNode_absent by done. simpl. unfold getAllNodes, JsMap.keys.
    rewrite map_app. simpl. apply NoDup_app. split; [done|].
    split; [|apply NoDup_singleton].
    intros x Hx ->%list_elem_of_singleton. by apply Hout.
Qed.

Lemma push_at_nodes (g : adjacency) (k : T) (e : GraphNode T) :
  getAllNodes (push_at g k e) = getAllNodes g.
Proof.
  unfold push_at. destruct (JsMap.get g k) as [l|] eqn:Hg; [|done].
  by eapply set_present_keys.
Qed.

Lemma push_at_edges (g : adjacency) (k : T) (e : GraphNode T) :
  k ∈ getAllNodes g ->
  getAllEdges (push_at g k e)
  ≡ₚ getAllEdges g ++ [mkEdge k (node e) (weight e)].
Proof.
  unfold push_at. induction g as [|[k0 l0] g IH]; intros Hin.
  - by apply elem_of_nil in Hin.
  - simpl. destruct (decide (k0 = k)) as [->|Hne].
    + rewrite !getAllEdges_cons.
      rewrite map_app. simpl. rewrite <- !app_assoc.
      apply Permutation_app_head, Permutation_app_comm.
    + assert (k ∈ getAllNodes g) as Hin'.
      { apply elem_of_cons in Hin as [->|?]; done. }
      specialize (IH Hin'). destruct (JsMap.get g k) as [l|] eqn:Hg.
      * rewrite !getAllEdges_cons. by rewrite IH, app_assoc.
      * apply get_None_keys in Hg. done.
Qed.

Lemma addEdge_nodes (g : adjacency) (u v : T) (w : option Z)
    (d : option bool) (x : T) :
  x ∈ getAllNodes (snd (addEdge g u v w d))
  <-> x ∈ getAllNodes g \/ x = u \/ x = v.
Proof.
  unfold addEdge. cbn [snd].
  destruct (default true d); rewrite ?push_at_nodes, !addNode_nodes; tauto.
Qed.

Lemma addEdge_NoDup (g : adjacency) (u v : T) (w : option Z) (d : option bool) :
  NoDup (getAllNodes g) -> NoDup (getAllNodes (snd (addEdge g u v w d))).
Proof.
  intros Hnd. unfold addEdge. cbn [snd].
  destruct (default true d); rewrite ?push_at_nodes;
    by apply addNode_NoDup, addNode_NoDup.
Qed.

Lemma addEdge_edges (g : adjacency) (u v : T) (w : option Z) (d : option bool) :
  getAllEdges (snd (addEdge g u v w d))
  ≡ₚ getAllEdges g ++ added_edges u v w d.
Proof.
  unfold addEdge, added_edges. cbn [snd].
  set (g2 := snd (addNode (snd (addNode g u)) v)).
  assert (u ∈ getAllNodes g2) as Hu.
  { apply addNode_nodes. left. apply addNode_nodes. by right. }
  assert (v ∈ getAllNodes g2) as Hv.
  { apply addNode_nodes. by right. }
  assert (getAllEdges g2 = getAllEdges g) as Hg2.
  { unfold g2. by rewrite !addNode_edges. }
  destruct (default true d).
  - rewrite push_at_edges by (by rewrite push_at_nodes).
    rewrite push_at_edges by done. rewrite Hg2, <- app_assoc. done.
  - rewrite push_at_edges by done. by rewrite Hg2.
Qed.

(** X18: [addNode] returns [true] exactly when the value is not yet a
    node; it then becomes the last node, with no neighbors, and an
    [addNode] of a node changes nothing. No edge is added or lost either
    way, and a second [addNode] of the same value returns [false]. *)
Theorem graph_addNode_once (g : adjacency) (value : T) :
  let g' := snd (addNode g value) in
  fst (addNode g value) = negb (bool_decide (value ∈ getAllNodes g)) /\
  (value ∉ getAllNodes g ->
     getAllNodes g' = getAllNodes g ++ [value] /\
     getNeighbors g' value = Some []) /\
  (value ∈ getAllNodes g -> g' = g) /\
  getAllEdges g' = getAllEdges g /\
  addNode g' value = (false, g').
Proof.
  cbn zeta. split; [|split; [|split; [|split] ] ].
  - destruct (decide (value ∈ getAllNodes g)) as [Hin|Hout].
    + by rewrite addNode_old, bool_decide_eq_true_2.
    + by rewrite addNode_absent, bool_decide_eq_false_2.
  - intros Hout. rewrite addNode_absent by done. simpl. split.
    + unfold getAllNodes, JsMap.keys. by rewrite map_app.
    + unfold getNeighbors. rewrite <- set_absent by (by apply get_None_keys).
      apply get_set_eq.
  - intros Hin. by rewrite addNode_old.
  - apply addNode_edges.
  - apply addNode_old, addNode_nodes. by right.
Qed.

(** X19: [addEdge] adds to the edges of the graph the edge from
    [from] to [to] and, unless the call is directed, the edge back, both
    with the given weight or 1; the nodes afterwards are the nodes before
    and the two ends. *)
Theorem graph_addEdge_adds (g : adjacency) (from to : T)
    (weight : option Z) (undirected : option bool) :
  let g' := snd (addEdge g from to weight undirected) in
  getAllEdges g' ≡ₚ getAllEdges g ++ added_edges from to weight undirected /\
  (forall x, x ∈ getAllNodes g' <-> x ∈ getAllNodes g \/ x = from \/ x = to).
Proof. cbn zeta. split; [apply addEdge_edges | apply addEdge_nodes]. Qed.

Lemma built_shape (g : adjacency) :
  built g -> NoDup (getAllNodes g) /\ closed g.
Proof.
  induction 1 as [|g value Hb [IHn IHc]|g u v w d Hb [IHn IHc] ].
  - split; [constructor|]. intros e He. by apply elem_of_nil in He.
  - split; [by apply addNode_NoDup|]. intros e He.
    rewrite addNode_edges in He. destruct (IHc e He) as [Hf Ht].
    rewrite !addNode_nodes. auto.
  - split; [by apply addEdge_NoDup|]. intros e He.
    rewrite addEdge_edges in He. rewrite !addEdge_nodes.
    apply elem_of_app in He as [He|He].
    + destruct (IHc e He) as [Hf Ht]. auto.
    + unfold added_edges in He. apply elem_of_cons in He as [->|He].
      * simpl. auto.
      * destruct (default true d); [|by apply elem_of_nil in He].
        apply list_elem_of_singleton in He as ->. simpl. auto.
Qed.

(** X20: in a graph built from [new Graph()] by [addNode] and
    [addEdge] calls no node is listed twice and both ends of every edge are
    nodes. *)
Theorem graph_built_closed (g : adjacency) :
  built g -> NoDup (getAllNodes g) /\ closed g.
Proof. apply built_shape. Qed.

(** X21: in a graph built with undirected [addEdge] calls only, every
    edge has its reverse with the same weight, as often as itself: reversing
    every edge of [getAllEdges] gives the same edges again. *)
Theorem graph_undirected_symmetric (g : adjacency) :
  built_undirected g -> map reverse_edge (getAllEdges g) ≡ₚ getAllEdges g.
Proof.
  induction 1 as [|g value Hb IH|g u v w d Hb IH Hd].
  - done.
  - by rewrite addNode_edges.
  - rewrite addEdge_edges, map_app, IH. apply Permutation_app_head.
    unfold added_edges. rewrite Hd. simpl. unfold reverse_edge. simpl.
    apply perm_swap.
Qed.
End GraphBuild.

Lemma city_built : built_undirected Graph.cityMap.
Proof.
  unfold Graph.cityMap.
  repeat (apply undirected_addEdge; [|reflexivity]). apply undirected_new.
Qed.

Lemma city_built_any : built Graph.cityMap.
Proof.
  unfold Graph.cityMap. repeat apply built_addEdge. apply built_new.
Qed.

Lemma graph_built_closed_witness :
  NoDup (Graph.getAllNodes Graph.cityMap) /\ closed Graph.cityMap.
Proof. apply (graph_built_closed Graph.cityMap city_built_any). Defined.

Lemma graph_undirected_symmetric_witness :
  map reverse_edge (Graph.getAllEdges Graph.cityMap)
  ≡ₚ Graph.getAllEdges Graph.cityMap.
Proof. apply (graph_undirected_symmetric Graph.cityMap city_built). Defined.


(** ** DepthFirstSearch: the recursive search *)

Section DfsFacts.
Context {T : Type} `{JsKey T}.
Import Graph.
Variable adj : @adjacency T.
Variable start target : T.
Local Abbreviation search_each := (search_each adj target).
Local Abbreviation candidates := (candidates adj start).
Local Abbreviation explored := (explored adj target).
Local Abbreviation delivers := (delivers adj start target).
Local Abbreviation dfs_result_ok := (dfs_result_ok adj start target).
Local Abbreviation all_truthy := (Forall (fun v : T => truthy v = true)).

Lemma search_S (fuel' : nat) (n : T) (path visited : list T) :
  search (S fuel') target adj n path visited =
  if negb (truthy n) || JsSet.has visited n then Done (None, visited)
  else if decide (n = target) then Done (Some path, visited)
  else search_each fuel' path (default [] (JsMap.get adj n))
         (JsSet.add visited n).
Proof. reflexivity. Qed.

Lemma search_each_cons (fuel' : nat) (path : list T) (e : GraphNode T)
    (ns : list (GraphNode T)) (visited : list T) :
  search_each fuel' path (e :: ns) visited =
  if negb (JsSet.has visited (node e)) then
    match search fuel' target adj (node e) (path ++ [node e]) visited with
    | Done (Some path_found, visited) => Done (Some path_found, visited)
    | Done (None, visited) => search_each fuel' path ns visited
    | Throws => Throws
    | Timeout => Timeout
    end
  else search_each fuel' path ns visited.
Proof. reflexivity. Qed.

Lemma visited_bound (vis : list T) :
  NoDup vis -> (forall x, x ∈ vis -> x ∈ candidates) ->
  length vis <= length candidates.
Proof. intros Hnd Hsub. by apply submseteq_length, NoDup_submseteq. Qed.

Lemma delivers_nothing (vis reached : list T) :
  NoDup vis -> (forall x, x ∈ vis -> x ∈ candidates) ->
  (forall w, w ∈ reached -> truthy w = true -> w ∈ vis) ->
  delivers vis reached (Done (None, vis)).
Proof.
  intros Hnd Hsub Hr. exists None, vis. split; [done|]. split; [done|].
  split; [done|]. split; [done|]. split; [done|]. intros u Hu Hu'. done.
Qed.

(** The loop delivers when the calls with [fuel'] do. *)
Lemma search_each_delivers (fuel' : nat) (n : T) (path : list T) :
  (forall (m : T) (path' vis : list T),
     NoDup vis -> (forall x, x ∈ vis -> x ∈ candidates) ->
     m ∈ candidates -> length candidates < fuel' + length vis ->
     path_to adj start path' m -> (truthy m = true -> all_truthy path') ->
     delivers vis [m] (search fuel' target adj m path' vis)) ->
  path_to adj start path n -> all_truthy path ->
  forall (ns : list (GraphNode T)) (v1 : list T),
    (forall e, e ∈ ns -> node e ∈ neighbors_of adj n) ->
    NoDup v1 -> (forall x, x ∈ v1 -> x ∈ candidates) ->
    length candidates < fuel' + length v1 ->
    delivers v1 (map node ns) (search_each fuel' path ns v1).
Proof.
  intros IHfuel Hpath Htr.
  induction ns as [|e ns IHns]; intros v1 Hns Hnd Hsub Hfuel.
  { apply delivers_nothing; [done | done |].
    intros w Hw. by apply elem_of_nil in Hw. }
  assert (forall e0, e0 ∈ ns -> node e0 ∈ neighbors_of adj n) as Hns'.
  { intros e0 He0. apply Hns. by right. }
  rewrite search_each_cons. unfold JsSet.has.
  case_bool_decide as Hev; cbn [negb].
  - destruct (IHns v1 Hns' Hnd Hsub Hfuel)
      as (r & v' & -> & Hnd' & Hsub' & Hmono & Hres).
    exists r, v'. split; [done|]. split; [done|]. split; [done|].
    split; [done|]. destruct r as [p|]; [done|].
    destruct Hres as [Hall Hexp]. split; [|done].
    intros w Hw Hwt. cbn [map] in Hw.
    apply elem_of_cons in Hw as [->|Hw]; auto.
  - assert (node e ∈ neighbors_of adj n) as He by (apply Hns; left).
    destruct (IHfuel (node e) (path ++ [node e]) v1 Hnd Hsub)
      as (r & v2 & -> & Hnd2 & Hsub2 & Hmono2 & Hres2).
    { right. by eapply neighbors_candidates. }
    { done. }
    { by eapply path_step. }
    { intros Hte. apply Forall_app. split; [done|]. by apply Forall_singleton. }
    destruct r as [p|].
    { exists (Some p), v2. do 4 (split; [done|]). done. }
    destruct Hres2 as [Hall2 Hexp2].
    assert (length v1 <= length v2) as Hlen.
    { by apply submseteq_length, NoDup_submseteq. }
    destruct (IHns v2 Hns' Hnd2 Hsub2 ltac:(lia))
      as (r & v3 & -> & Hnd3 & Hsub3 & Hmono3 & Hres3).
    exists r, v3. split; [done|]. split; [done|]. split; [done|].
    split; [by auto|]. destruct r as [p|]; [done|].
    destruct Hres3 as [Hall3 Hexp3]. split.
    + intros w Hw Hwt. cbn [map] in Hw.
      apply elem_of_cons in Hw as [->|Hw]; [|by auto].
      apply Hmono3, Hall2; [left | done].
    + intros u Hu Hu1. destruct (decide (u ∈ v2)) as [Hu2|Hu2].
      * destruct (Hexp2 u Hu2 Hu1) as [Hut Hnb]. split; [done|]. auto.
      * by apply Hexp3.
Qed.

Lemma search_delivers (fuel : nat) :
  forall (n : T) (path vis : list T),
    NoDup vis -> (forall x, x ∈ vis -> x ∈ candidates) ->
    n ∈ candidates -> length candidates < fuel + length vis ->
    path_to adj start path n -> (truthy n = true -> all_truthy path) ->
    delivers vis [n] (search fuel target adj n path vis).
Proof.
  induction fuel as [|fuel' IHfuel]; intros n path vis Hnd Hsub Hn Hfuel Hpath Htr.
  { pose proof (visited_bound vis Hnd Hsub). lia. }
  rewrite search_S. unfold JsSet.has, JsSet.add.
  destruct (truthy n) eqn:Htn; cbn [negb orb].
  2:{ apply delivers_nothing; [done | done |].
      intros w ->%list_elem_of_singleton Hw. congruence. }
  case_bool_decide as Hvis.
  { apply delivers_nothing; [done | done |].
    by intros w ->%list_elem_of_singleton _. }
  destruct (decide (n = target)) as [->|Hnt].
  { exists (Some path), vis. do 4 (split; [done|]). auto. }
  unfold JsSet.has. rewrite bool_decide_eq_false_2 by done.
  set (vis1 := vis ++ [n]).
  assert (NoDup vis1) as Hnd1.
  { apply NoDup_app. split; [done|]. split; [|apply NoDup_singleton].
    intros x Hx ->%list_elem_of_singleton. done. }
  assert (forall x, x ∈ vis1 -> x ∈ candidates) as Hsub1.
  { intros x [Hx| ->%list_elem_of_singleton]%elem_of_app; auto. }
  assert (length candidates < fuel' + length vis1) as Hfuel1.
  { unfold vis1. rewrite length_app. change (length [n]) with 1. lia. }
  destruct (search_each_delivers fuel' n path IHfuel Hpath (Htr eq_refl)
              (default [] (JsMap.get adj n)) vis1)
    as (r & v' & -> & Hnd' & Hsub' & Hmono & Hres); [|done|done|done|].
  { intros e He. unfold neighbors_of. apply list_elem_of_fmap. eauto. }
  exists r, v'. split; [done|]. split; [done|]. split; [done|].
  assert (forall x, x ∈ vis -> x ∈ v') as Hmono0.
  { intros x Hx. apply Hmono, elem_of_app. by left. }
  assert (n ∈ v') as Hnv.
  { apply Hmono, elem_of_app. right. by apply list_elem_of_singleton. }
  split; [done|]. destruct r as [p|]; [done|].
  destruct Hres as [Hall Hexp]. split.
  - by intros w ->%list_elem_of_singleton _.
  - intros u Hu Hu0. destruct (decide (u = n)) as [->|Hun].
    + split; [done|]. intros w Hw Hwt. by apply Hall.
    + apply Hexp; [done|]. intros [?| ->%list_elem_of_singleton]%elem_of_app; done.
Qed.

(** A set that holds [start] and is explored holds the end of every path
    of truthy nodes. *)
Lemma explored_reaches (vis : list T) :
  start ∈ vis -> explored [] vis ->
  forall p w, path_to adj start p w -> all_truthy p -> w ∈ vis.
Proof.
  intros Hs Hexp p w Hp. induction Hp as [|p u v Hp IH Hv]; intros Htr; [done|].
  apply Forall_app in Htr as [Htr Hv']. rewrite Forall_singleton in Hv'.
  destruct (Hexp u (IH Htr)) as [_ Hnb]; [apply not_elem_of_nil|].
  apply Hnb; [exact Hv | exact Hv'].
Qed.

(** X22: for a truthy start node and enough depth, the recursive
    search returns a path from [start] to [target] whose nodes are all
    truthy, or [null] when the graph has no such path: it finds the target
    whenever it can be reached without passing a falsy node (0, the empty
    string), and only then. *)
Theorem dfs_finds_truthy_path (fuel : nat) :
  truthy start = true ->
  2 + length (getAllEdges adj) <= fuel ->
  exists r, DepthFirstSearch fuel adj start target = Done r /\ dfs_result_ok r.
Proof.
  intros Hts Hfuel. unfold DepthFirstSearch. rewrite Hts. cbn [negb].
  destruct (search_delivers fuel start [start] [])
    as (r & vis & -> & Hnd & Hsub & _ & Hres).
  - constructor.
  - intros x Hx. by apply elem_of_nil in Hx.
  - left.
  - change (length (start :: map to (getAllEdges adj)) < fuel + 0).
    cbn [length]. rewrite length_map. lia.
  - constructor.
  - intros _. by apply Forall_singleton.
  - exists r. split; [done|]. destruct r as [p|]; [exact Hres|].
    destruct Hres as [Hall Hexp]. intros p' Hp' Htr.
    assert (target ∈ vis) as Ht.
    { eapply explored_reaches; [|done|done|done]. apply Hall; [left | done]. }
    destruct (Hexp target Ht) as [Hne _]; [apply not_elem_of_nil | done].
Qed.
End DfsFacts.

Lemma dfs_finds_truthy_path_witness :
  exists r, Graph.DepthFirstSearch 20 Graph.cityMap "A"%string "Z"%string = Done r /\
            dfs_result_ok Graph.cityMap "A"%string "Z"%string r.
Proof.
  apply (dfs_finds_truthy_path Graph.cityMap "A"%string "Z"%string 20).
  - reflexivity.
  - vm_compute. lia.
Defined.


(** ** DFS: the search with a Stack *)

Section StackSearchFacts.
Context {T : Type} `{JsKey T}.
Import Graph StackSearch.
Variable adj : @adjacency T.
Variable start target : T.
Local Abbreviation dfs_inv := (dfs_inv adj start target).
Local Abbreviation path_result_ok := (path_result_ok adj start target).

Lemma push_neighbors_spec (path : list T) (ns : list (GraphNode T))
    (visited : list T) (stack : list (T * list T)) :
  push_neighbors path ns visited stack =
  stack ++ entries_of path (filter (fun w => w ∉ visited) (map node ns)).
Proof.
  unfold push_neighbors. revert stack.
  induction ns as [|e ns IH]; intros stack; simpl.
  - by rewrite app_nil_r.
  - rewrite IH. unfold JsSet.has, Stack.push.
    rewrite filter_cons. case_bool_decide as Hv; simpl.
    + by rewrite decide_False by (by intros ?).
    + rewrite decide_True by done. simpl. by rewrite <- app_assoc.
Qed.

Lemma pushes_left_mono (visited : list T) (v : T) (g : adjacency) :
  pushes_left (visited ++ [v]) g <= pushes_left visited g.
Proof.
  unfold pushes_left. induction g as [|[k l] g IH]; simpl; [done|].
  destruct (decide (k ∈ visited)) as [Hk|Hk].
  - rewrite !bool_decide_eq_true_2; [lia | done | apply elem_of_app; by left].
  - rewrite (bool_decide_eq_false_2 (k ∈ visited)) by done.
    case_bool_decide; lia.
Qed.

Lemma pushes_left_visit (visited : list T) (v : T) (g : adjacency) :
  v ∉ visited ->
  pushes_left (visited ++ [v]) g + length (default [] (JsMap.get g v))
  <= pushes_left visited g.
Proof.
  intros Hv. unfold pushes_left. induction g as [|[k l] g IH]; simpl; [done|].
  destruct (decide (k = v)) as [->|Hne].
  - pose proof (pushes_left_mono visited v g) as Hm. unfold pushes_left in Hm.
    rewrite bool_decide_eq_true_2 by (apply elem_of_app; right; by left).
    rewrite bool_decide_eq_false_2 by done. simpl. lia.
  - assert (bool_decide (k ∈ visited ++ [v]) = bool_decide (k ∈ visited)) as ->.
    { apply bool_decide_ext. rewrite elem_of_app, list_elem_of_singleton. tauto. }
    lia.
Qed.

Lemma pushes_left_all (g : adjacency) :
  pushes_left [] g = length (getAllEdges g).
Proof.
  induction g as [|[k l] g IH]; [done|].
  rewrite getAllEdges_cons, length_app, length_map, <- IH.
  unfold pushes_left. cbn [map sum_list_with].
  by rewrite bool_decide_eq_false_2 by apply not_elem_of_nil.
Qed.

(** With an empty stack the visited nodes are all that can be reached. *)
Lemma dfs_inv_empty (visited : list T) :
  dfs_inv [] visited -> path_result_ok None.
Proof.
  intros [_ Hvis Hstart] p' Hp'.
  assert (forall p w, path_to adj start p w -> w ∈ visited) as Hall.
  { intros p w Hp. induction Hp as [|p u v Hp IH Hv].
    - destruct Hstart as [?|Hs]; [done | by apply elem_of_nil in Hs].
    - destruct (Hvis u IH) as [_ Hnb].
      destruct (Hnb v Hv) as [?|Hs]; [done | by apply elem_of_nil in Hs]. }
  destruct (Hvis target (Hall _ _ Hp')) as [Hne _]. done.
Qed.

(** Dropping an entry whose node is visited. *)
Lemma dfs_inv_skip (rest : list (T * list T)) (v : T) (p visited : list T) :
  dfs_inv (rest ++ [(v, p)]) visited -> v ∈ visited -> dfs_inv rest visited.
Proof.
  intros [Hpaths Hvis Hstart] Hv.
  apply Forall_app in Hpaths as [Hrest _].
  assert (forall w, w ∈ visited \/ w ∈ map fst (rest ++ [(v, p)]) ->
                    w ∈ visited \/ w ∈ map fst rest) as Hdrop.
  { intros w [?|Hw]; [by left|]. rewrite map_app, elem_of_app in Hw.
    destruct Hw as [?|Hw]; [by right|].
    apply list_elem_of_singleton in Hw as ->. by left. }
  split; [done| |by apply Hdrop].
  intros u Hu. destruct (Hvis u Hu) as [Hne Hnb]. split; [done|]. auto.
Qed.

(** Visiting the node of the top entry. *)
Lemma dfs_inv_visit (rest : list (T * list T)) (v : T) (p visited : list T) :
  dfs_inv (rest ++ [(v, p)]) visited -> v <> target ->
  dfs_inv
    (rest ++ entries_of p (filter (fun w => w ∉ visited ++ [v])
                             (neighbors_of adj v)))
    (visited ++ [v]).
Proof.
  intros [Hpaths Hvis Hstart] Hvt.
  apply Forall_app in Hpaths as [Hrest Hv]. rewrite Forall_singleton in Hv.
  simpl in Hv.
  assert (forall w, w ∈ visited \/ w ∈ map fst (rest ++ [(v, p)]) ->
                    w ∈ visited ++ [v] \/
                    w ∈ map fst (rest ++ entries_of p
                                   (filter (fun w => w ∉ visited ++ [v])
                                      (neighbors_of adj v)))) as Hkeep.
  { intros w [?|Hw]; [left; apply elem_of_app; by left|].
    rewrite map_app, elem_of_app in Hw. destruct Hw as [?|Hw].
    - right. rewrite map_app, elem_of_app. by left.
    - apply list_elem_of_singleton in Hw as ->. left.
      apply elem_of_app. right. by left. }
  split.
  - apply Forall_app. split; [done|]. unfold entries_of.
    apply Forall_forall. intros e (w & -> & Hw)%list_elem_of_fmap.
    apply list_elem_of_filter in Hw as [_ Hw]. simpl. by eapply path_step.
  - intros u [Hu| ->%list_elem_of_singleton]%elem_of_app.
    + destruct (Hvis u Hu) as [Hne Hnb]. split; [done|]. auto.
    + split; [done|]. intros w Hw.
      destruct (decide (w ∈ visited ++ [v])) as [?|Hout]; [by left|].
      right. rewrite map_app, entries_of_nodes, elem_of_app. right.
      by apply list_elem_of_filter.
  - by apply Hkeep.
Qed.

Lemma DFS_loop_correct (fuel : nat) :
  forall (stack : list (T * list T)) (visited : list T),
    dfs_inv stack visited ->
    length stack + pushes_left visited adj < fuel ->
    exists r, DFS_loop fuel adj target stack visited = Done r /\
              path_result_ok r.
Proof.
  induction fuel as [|fuel' IH]; intros stack visited Hinv Hfuel; [lia|].
  cbn [DFS_loop]. unfold Stack.isEmpty, Stack.pop.
  destruct stack as [|e0 stack0] using rev_ind.
  { exists None. split; [done|]. by eapply dfs_inv_empty. }
  clear IHstack0. destruct e0 as [v p].
  rewrite length_app in *. cbn [length] in *.
  rewrite bool_decide_eq_false_2 by lia.
  rewrite last_snoc, removelast_last. unfold JsSet.has, JsSet.add.
  case_bool_decide as Hv.
  { apply IH; [by eapply dfs_inv_skip | lia]. }
  unfold JsSet.has. rewrite bool_decide_eq_false_2 by done.
  destruct (decide (v = target)) as [->|Hvt].
  { exists (Some p). split; [done|]. destruct Hinv as [Hpaths _ _].
    apply Forall_app in Hpaths as [_ Hp]. rewrite Forall_singleton in Hp.
    exact Hp. }
  rewrite push_neighbors_spec. unfold getNeighbors.
  fold (neighbors_of adj v). apply IH; [by apply dfs_inv_visit|].
  rewrite length_app. unfold entries_of. rewrite length_map.
  pose proof (pushes_left_visit visited v adj Hv) as Hp.
  pose proof (length_filter (fun w => w ∉ visited ++ [v]) (neighbors_of adj v)) as Hf.
  unfold neighbors_of in Hf at 2. rewrite length_map in Hf. lia.
Qed.

(** X23: the search with a Stack, given enough turns, returns a path
    from [start] to [target], or [null] when the graph has none. It has no
    test of the truth value of a node: a start node 0 or an empty string is
    searched from like any other. *)
Theorem stack_dfs_finds_path (fuel : nat) :
  2 + length (getAllEdges adj) <= fuel ->
  exists r, DFS fuel adj start target = Done r /\ path_result_ok r.
Proof.
  intros Hfuel. unfold DFS, Stack.new. cbn [default].
  apply DFS_loop_correct.
  - split.
    + apply Forall_singleton. constructor.
    + intros u Hu. by apply elem_of_nil in Hu.
    + right. left.
  - rewrite pushes_left_all. simpl. lia.
Qed.
End StackSearchFacts.

Lemma stack_dfs_finds_path_witness :
  exists r, StackSearch.DFS 20 Graph.cityMap "A"%string "Z"%string = Done r /\
            path_result_ok Graph.cityMap "A"%string "Z"%string r.
Proof.
  apply (stack_dfs_finds_path Graph.cityMap "A"%string "Z"%string 20).
  vm_compute. lia.
Defined.


(** ** Stack and MinMaxStack: last in, first out *)

Section StackFacts.
Context {T : Type}.
Import Stack.

Lemma next_from_snoc (s : list T) (x : T) (n : nat) :
  n <= length s -> next_from (s ++ [x]) n = next_from s n.
Proof.
  induction n as [|n IH]; intros Hn; [done|]. cbn [next_from].
  rewrite IH by lia. by rewrite lookup_app_l by lia.
Qed.

Lemma iterator_rev (s : list T) : iterator s = map Some (rev s).
Proof.
  unfold iterator. induction s as [|x s IH] using rev_ind; [done|].
  rewrite length_app, Nat.add_comm. cbn [length Nat.add next_from].
  rewrite next_from_snoc by done. rewrite IH, rev_app_distr. cbn [rev app map].
  by rewrite lookup_app_r, Nat.sub_diag by done.
Qed.

Lemma pops_rev (s : list T) : pops (length s) s = map Some (rev s).
Proof.
  induction s as [|x s IH] using rev_ind; [done|].
  rewrite length_app, Nat.add_comm. cbn [length Nat.add pops].
  unfold pop. cbn [fst snd]. rewrite last_snoc, removelast_last, IH.
  by rewrite rev_app_distr.
Qed.

(** X24: last in, first out. [pop] after [push] returns the pushed
    value and leaves the stack as it was before; [peak] after [push] is the
    pushed value; on an empty stack both return [null] and [pop] changes
    nothing; and the iterator yields the elements in the order in which
    [pop] would return them, top first. *)
Theorem stack_lifo (s : list T) (x : T) :
  pop (push s x) = (Some x, s) /\
  peak (push s x) = Some x /\
  size (push s x) = S (size s) /\
  pop (new None) = (None, @nil T) /\
  peak (@new T None) = None /\
  (isEmpty s = true <-> s = []) /\
  iterator s = pops (size s) s.
Proof.
  unfold pop, push, peak, size, isEmpty. split; [|split; [|split] ].
  - by rewrite last_snoc, removelast_last.
  - rewrite length_app. cbn [length]. rewrite bool_decide_eq_false_2 by lia.
    cbn [negb]. rewrite lookup_app_r by lia.
    by replace (length s + 1 - 1 - length s) with 0 by lia.
  - rewrite length_app. simpl. lia.
  - split; [done|]. split; [done|]. split.
    + rewrite bool_decide_eq_true. by destruct s.
    + by rewrite iterator_rev, pops_rev.
Qed.
End StackFacts.

Section MinMaxRoundTrip.
Context {T : Type} (compare : T -> T -> Z).
Import MinMaxStack.

Lemma updateMinStack_grows (s : t T) (value : T) :
  stack s <> [] ->
  exists m, updateMinStack compare s value = mk (stack s) (minStack s ++ [m]) (maxStack s).
Proof.
  intros Hne. unfold updateMinStack.
  destruct (bool_decide (length (minStack s) = 0) || _) eqn:Hc; [eauto|].
  apply orb_false_iff in Hc as [Hlen _]. apply bool_decide_eq_false in Hlen.
  unfold getMin, isEmpty, Stack.isEmpty.
  rewrite bool_decide_eq_false_2 by (by destruct (stack s)). cbn [negb].
  destruct (minStack s !! (length (minStack s) - 1)) as [m|] eqn:Hm; [eauto|].
  apply lookup_ge_None in Hm. lia.
Qed.

Lemma updateMaxStack_grows (s : t T) (value : T) :
  stack s <> [] ->
  exists m, updateMaxStack compare s value = mk (stack s) (minStack s) (maxStack s ++ [m]).
Proof.
  intros Hne. unfold updateMaxStack.
  destruct (bool_decide (length (maxStack s) = 0) || _) eqn:Hc; [eauto|].
  apply orb_false_iff in Hc as [Hlen _]. apply bool_decide_eq_false in Hlen.
  unfold getMax, isEmpty, Stack.isEmpty.
  rewrite bool_decide_eq_false_2 by (by destruct (stack s)). cbn [negb].
  destruct (maxStack s !! (length (maxStack s) - 1)) as [m|] eqn:Hm; [eauto|].
  apply lookup_ge_None in Hm. lia.
Qed.

(** X25: whatever the comparator and the state, [pop] after [push]
    returns the pushed value and restores the stack with both shadow
    stacks, so that [getMin] and [getMax] are again what they were before
    the [push]. *)
Theorem minmax_push_pop_restores (s : t T) (value : T) :
  pop (push compare s value) = (Some value, s) /\
  getMin (snd (pop (push compare s value))) = getMin s /\
  getMax (snd (pop (push compare s value))) = getMax s.
Proof.
  assert (pop (push compare s value) = (Some value, s)) as Heq.
  { unfold push.
    set (s1 := mk (Stack.push (stack s) value) (minStack s) (maxStack s)).
    assert (stack s1 <> []) as Hne1.
    { unfold s1, Stack.push. cbn [stack]. by destruct (stack s). }
    destruct (updateMinStack_grows s1 value Hne1) as [m ->].
    destruct (updateMaxStack_grows (mk (stack s1) (minStack s1 ++ [m]) (maxStack s1))
                value Hne1) as [M ->].
    unfold pop, Stack.pop, s1, Stack.push. cbn [stack minStack maxStack].
    rewrite last_snoc, !removelast_last. by destruct s. }
  rewrite Heq. done.
Qed.
End MinMaxRoundTrip.


(** ** dijkstra: what it returns on the graphs the class builds *)

Section DistFacts.
Import Graph.

Lemma dist_lt_irrefl (d : distance) : dist_lt d d = false.
Proof. destruct d; simpl; [|done]. apply bool_decide_eq_false. lia. Qed.

Lemma dist_lt_asym (a b : distance) : dist_lt a b = true -> dist_lt b a = false.
Proof.
  destruct a, b; simpl; try done.
  rewrite bool_decide_eq_true, bool_decide_eq_false. lia.
Qed.

Lemma dist_lt_false_trans (a b c : distance) :
  dist_lt a b = false -> dist_lt b c = false -> dist_lt a c = false.
Proof.
  destruct a, b, c; simpl; try done.
  rewrite !bool_decide_eq_false. lia.
Qed.

Lemma dist_lt_Fin_false (t : Z) (c : distance) :
  dist_lt (Fin t) c = false -> exists dv, c = Fin dv /\ (dv <= t)%Z.
Proof.
  destruct c as [dv|]; simpl; [|done].
  rewrite bool_decide_eq_false. intros Hlt. exists dv. split; [done | lia].
Qed.
End DistFacts.

Section DijkstraSearch.
Context {T : Type} `{JsKey T}.
Import Graph.
Variable g : @adjacency T.
Variable src : T.
Hypothesis Hclosed : closed g.
Hypothesis Hweights : forall e, e ∈ getAllEdges g -> (0 <= edge_weight e)%Z.
Local Abbreviation dj_inv := (dj_inv g src).
Local Abbreviation dijkstra_result_ok := (dijkstra_result_ok g src).

Lemma edge_of_entry (a : @adjacency T) (u : T) (e : GraphNode T) :
  e ∈ default [] (JsMap.get a u) ->
  mkEdge u (node e) (weight e) ∈ getAllEdges a /\ u ∈ getAllNodes a.
Proof.
  induction a as [|[k l] a IH]; simpl; [intros He; by apply elem_of_nil in He|].
  rewrite getAllEdges_cons, elem_of_app.
  destruct (decide (k = u)) as [->|Hne]; simpl.
  - intros He. split; [left | left].
    apply list_elem_of_fmap. by exists e.
  - intros He. destruct (IH He) as [H1 H2]. split; [by right | by right].
Qed.

Lemma entry_facts (u : T) (e : GraphNode T) :
  e ∈ default [] (JsMap.get g u) ->
  u ∈ getAllNodes g /\ node e ∈ getAllNodes g /\ (0 <= weight e)%Z /\
  node e ∈ neighbors_of g u.
Proof.
  intros He. destruct (edge_of_entry g u e He) as [Hedge Hu].
  split; [done|]. split; [exact (proj2 (Hclosed _ Hedge))|].
  split; [exact (Hweights _ Hedge)|].
  unfold neighbors_of. apply list_elem_of_fmap. by exists e.
Qed.

Lemma lowered_refl (visited : list T) (m : nodeMap_t) : lowered visited m m.
Proof.
  intros n d p Hg. exists d, p. split; [done|]. split; [apply dist_lt_irrefl | done].
Qed.

Lemma lowered_trans (visited : list T) (m1 m2 m3 : nodeMap_t) :
  lowered visited m1 m2 -> lowered visited m2 m3 -> lowered visited m1 m3.
Proof.
  intros H12 H23 n d p Hg.
  destruct (H12 n d p Hg) as (d2 & p2 & Hg2 & Hd2 & Hv2).
  destruct (H23 n d2 p2 Hg2) as (d3 & p3 & Hg3 & Hd3 & Hv3).
  exists d3, p3. split; [done|]. split; [by eapply dist_lt_false_trans|].
  intros Hn. destruct (Hv2 Hn) as [-> ->]. by apply Hv3.
Qed.

Lemma lowered_set (visited : list T) (m : nodeMap_t) (n0 : T)
    (curr new : distance) (pc p0 : option T) :
  JsMap.get m n0 = Some (curr, pc) -> n0 ∉ visited ->
  dist_lt new curr = true ->
  lowered visited m (JsMap.set m n0 (new, p0)).
Proof.
  intros Hg Hn0 Hlt n d p Hn. destruct (decide (n0 = n)) as [<-|Hne].
  - exists new, p0. rewrite get_set_eq. split; [done|].
    rewrite Hg in Hn. injection Hn as <- <-.
    split; [by apply dist_lt_asym | done].
  - exists d, p. rewrite get_set_ne by done. split; [done|].
    split; [apply dist_lt_irrefl | done].
Qed.

Lemma settled_lowered (visited : list T) (m m' : nodeMap_t) (u : T)
    (e : GraphNode T) :
  u ∈ visited -> lowered visited m m' ->
  settled visited m u e -> settled visited m' u e.
Proof.
  intros Hu Hlow [Hv|(du & pu & dv & pv & Hgu & Hge & Hle)]; [by left|].
  right. destruct (Hlow u _ _ Hgu) as (d' & p' & Hgu' & _ & Hsame).
  destruct (Hsame Hu) as [-> ->].
  destruct (Hlow (node e) _ _ Hge) as (d2 & p2 & Hge' & Hd2 & _).
  apply dist_lt_Fin_false in Hd2 as (dv' & -> & Hle').
  exists du, pu, dv', p2. split; [done|]. split; [done | lia].
Qed.

(** A visited node has an entry with a distance when it is a node. *)
Lemma visited_entry (R visited : list T) (m : nodeMap_t)
    (h : list (GraphNode T)) (u : T) :
  dj_inv R visited m h -> u ∈ visited -> u ∈ getAllNodes g ->
  exists du pu, JsMap.get m u = Some (Fin du, pu) /\ (0 <= du)%Z.
Proof.
  intros Hinv Hu Hnode.
  destruct (proj1 (dj_keys _ _ _ _ _ _ Hinv u) Hnode) as [[d p] Hg].
  destruct (dj_visited _ _ _ _ _ _ Hinv u Hu) as [->|(d' & p' & Hg')].
  - destruct (dj_root _ _ _ _ _ _ Hinv _ _ Hg) as [-> ->].
    exists 0%Z, None. done.
  - rewrite Hg in Hg'. injection Hg' as -> ->. destruct d' as [du|].
    + exists du, (Some p'). split; [done|]. by eapply dj_nonneg.
    + by apply (dj_inf _ _ _ _ _ _ Hinv) in Hg.
Qed.

(** Lowering the entry of the neighbor [e] of the visited node [u] and
    inserting it into the queue. *)
Lemma dj_inv_update (R visited : list T) (m : nodeMap_t)
    (h h1 : list (GraphNode T)) (u : T) (e : GraphNode T) (du : Z)
    (pu : option T) (curr : distance) (pc : option T) :
  dj_inv R visited m h -> u ∈ visited ->
  e ∈ default [] (JsMap.get g u) -> node e ∉ visited ->
  JsMap.get m u = Some (Fin du, pu) ->
  JsMap.get m (node e) = Some (curr, pc) ->
  dist_lt (Fin (du + weight e)) curr = true ->
  h1 ≡ₚ e :: h ->
  dj_inv R visited
    (JsMap.set m (node e) (Fin (du + weight e), Some u)) h1.
Proof.
  intros Hinv Hu He Hev Hgu Hge Hlt Hh1.
  destruct (entry_facts u e He) as (Hun & Hen & Hw & Hnb).
  pose proof (dj_nonneg _ _ _ _ _ _ Hinv _ _ _ Hgu) as Hdu.
  assert (node e <> src) as Hes.
  { intros Heq. rewrite Heq in Hge.
    destruct (dj_root _ _ _ _ _ _ Hinv _ _ Hge) as [-> _].
    simpl in Hlt. apply bool_decide_eq_true in Hlt. lia. }
  pose proof (lowered_set visited m (node e) curr _ pc (Some u) Hge Hev Hlt)
    as Hlow.
  assert (forall x, x ∈ h -> x ∈ h1) as Hsub.
  { intros x Hx. rewrite Hh1. by right. }
  destruct Hinv as [Hkeys Hnn Hroot Hinf Hpred Hfin Hheap Hvis Hnd Hsrc HR Hset].
  split.
  - intros n. rewrite Hkeys. destruct (decide (node e = n)) as [<-|Hne].
    + rewrite get_set_eq, Hge. split; eauto.
    + by rewrite get_set_ne.
  - intros n d p. destruct (decide (node e = n)) as [<-|Hne].
    + rewrite get_set_eq. intros [= <- <-]. lia.
    + rewrite get_set_ne by done. apply Hnn.
  - intros d p. rewrite get_set_ne by done. apply Hroot.
  - intros n p. destruct (decide (node e = n)) as [<-|Hne].
    + rewrite get_set_eq. discriminate.
    + rewrite get_set_ne by done. apply Hinf.
  - intros n d p. destruct (decide (node e = n)) as [<-|Hne].
    + rewrite get_set_eq. intros [= <- <-]. split; [done|].
      apply list_elem_of_lookup in Hu as [i Hi]. exists i. split; [done|].
      intros j Hj. exfalso. apply Hev. by eapply list_elem_of_lookup_2.
    + rewrite get_set_ne by done. apply Hpred.
  - intros n d p. destruct (decide (node e = n)) as [<-|Hne].
    + intros _. right. rewrite Hh1. left.
    + rewrite get_set_ne by done. intros Hg.
      destruct (Hfin n d p Hg) as [?|Hin]; [by left|]. right.
      apply list_elem_of_fmap in Hin as (x & -> & Hx).
      apply list_elem_of_fmap. exists x. auto.
  - intros x Hx. rewrite Hh1 in Hx.
    destruct (decide (node e = node x)) as [Heq|Hne].
    + right. rewrite <- Heq, get_set_eq. eauto.
    + apply elem_of_cons in Hx as [->|Hx]; [done|].
      rewrite get_set_ne by done. by apply Hheap.
  - intros u' Hu'. destruct (decide (node e = u')) as [<-|Hne]; [done|].
    rewrite get_set_ne by done. by apply Hvis.
  - done.
  - destruct Hsrc as [?|Hin]; [by left|]. right.
    apply list_elem_of_fmap in Hin as (x & -> & Hx).
    apply list_elem_of_fmap. exists x. auto.
  - done.
  - intros u' e' Hu' He'. eapply settled_lowered; [by apply HR | done | by apply Hset].
Qed.

(** The [for] loop over the neighbors [ns] of the visited node [u]. *)
Lemma relax_inv (R visited : list T) (sel : GraphNode T) :
  node sel ∈ visited ->
  forall (ns : list (GraphNode T)) (m : nodeMap_t) (h : list (GraphNode T)),
    (forall e, e ∈ ns -> e ∈ default [] (JsMap.get g (node sel))) ->
    dj_inv R visited m h ->
    exists m' h',
      relax visited sel ns m h = Done (m', h') /\
      dj_inv R visited m' h' /\ lowered visited m m' /\
      length h' <= length h + length ns /\
      forall e, e ∈ ns -> settled visited m' (node sel) e.
Proof.
  intros Hu. induction ns as [|e ns IH]; intros m h Hns Hinv.
  { exists m, h. split; [done|]. split; [done|]. split; [apply lowered_refl|].
    split; [simpl; lia|]. intros e He. by apply elem_of_nil in He. }
  assert (forall e0, e0 ∈ ns -> e0 ∈ default [] (JsMap.get g (node sel))) as Hns'.
  { intros e0 He0. apply Hns. by right. }
  assert (e ∈ default [] (JsMap.get g (node sel))) as He by (apply Hns; left).
  destruct (entry_facts _ e He) as (Hun & Hen & Hw & Hnb).
  cbn [relax]. unfold JsSet.has. case_bool_decide as Hev.
  { destruct (IH m h Hns' Hinv) as (m' & h' & -> & Hinv' & Hlow & Hlen & Hset).
    exists m', h'. split; [done|]. split; [done|]. split; [done|].
    split; [simpl; lia|]. intros e0 [->|He0]%elem_of_cons; [by left | by apply Hset]. }
  destruct (proj1 (dj_keys _ _ _ _ _ _ Hinv (node e)) Hen) as [[curr pc] Hge].
  destruct (visited_entry _ _ _ _ _ Hinv Hu Hun) as (du & pu & Hgu & Hdu).
  rewrite Hge, Hgu. cbn [dist_add].
  destruct (dist_lt (Fin (du + weight e)) curr) eqn:Hlt.
  - pose proof (dj_inv_update R visited m h
                  (MinHeap.insert compareNodes h e) (node sel) e du pu curr pc
                  Hinv Hu He Hev Hgu Hge Hlt (insert_perm _ _ _)) as Hinv1.
    pose proof (lowered_set visited m (node e) curr _ pc (Some (node sel))
                  Hge Hev Hlt) as Hlow1.
    destruct (IH _ _ Hns' Hinv1) as (m' & h' & -> & Hinv' & Hlow & Hlen & Hset).
    exists m', h'. split; [done|]. split; [done|].
    split; [by eapply lowered_trans|]. split.
    { rewrite (Permutation_length (insert_perm compareNodes h e)) in Hlen.
      simpl in *. lia. }
    intros e0 [->|He0]%elem_of_cons; [|by apply Hset].
    eapply settled_lowered; [done | exact Hlow|]. right.
    assert (node e <> node sel) as Hne by (intros Heq; by rewrite Heq in Hev).
    exists du, pu, (du + weight e)%Z, (Some (node sel)).
    rewrite get_set_ne by done. rewrite get_set_eq. split; [done|]. split; [done | lia].
  - destruct (IH m h Hns' Hinv) as (m' & h' & -> & Hinv' & Hlow & Hlen & Hset).
    exists m', h'. split; [done|]. split; [done|]. split; [done|].
    split; [simpl; lia|].
    intros e0 [->|He0]%elem_of_cons; [|by apply Hset].
    eapply settled_lowered; [done | exact Hlow|]. right.
    apply dist_lt_Fin_false in Hlt as (dv & -> & Hle).
    exists du, pu, dv, pc. done.
Qed.

(** A second look at the neighbors of a node whose entries are settled
    changes nothing. *)
Lemma relax_settled (visited : list T) (sel : GraphNode T)
    (ns : list (GraphNode T)) (m : nodeMap_t) (h : list (GraphNode T)) :
  (forall e, e ∈ ns -> settled visited m (node sel) e) ->
  relax visited sel ns m h = Done (m, h).
Proof.
  induction ns as [|e ns IH]; intros Hset; [done|].
  cbn [relax]. unfold JsSet.has.
  assert (forall e0, e0 ∈ ns -> settled visited m (node sel) e0) as Hset'.
  { intros e0 He0. apply Hset. by right. }
  destruct (Hset e ltac:(left)) as [Hv|(du & pu & dv & pv & Hgu & Hge & Hle)].
  - rewrite bool_decide_eq_true_2 by done. by apply IH.
  - case_bool_decide; [by apply IH|]. rewrite Hge, Hgu. cbn [dist_add dist_lt].
    rewrite bool_decide_eq_false_2 by lia. by apply IH.
Qed.

(** Taking a node that is visited already out of the queue. *)
Lemma dj_inv_shrink (R visited : list T) (m : nodeMap_t) (x : GraphNode T)
    (t h1 : list (GraphNode T)) :
  dj_inv R visited m (x :: t) -> t ≡ₚ h1 -> node x ∈ visited ->
  dj_inv R visited m h1.
Proof.
  intros [Hkeys Hnn Hroot Hinf Hpred Hfin Hheap Hvis Hnd Hsrc HR Hset] Hperm Hx.
  assert (forall n, n ∈ visited \/ n ∈ map node (x :: t) ->
                    n ∈ visited \/ n ∈ map node h1) as Hdrop.
  { intros n [?|Hn]; [by left|]. cbn [map] in Hn.
    apply elem_of_cons in Hn as [->|Hn]; [by left|]. right. by rewrite <- Hperm. }
  split; try done.
  - intros n d p Hg. apply Hdrop. by eapply Hfin.
  - intros y Hy. apply Hheap. right. by rewrite Hperm.
  - by apply Hdrop.
Qed.

(** Taking a node out of the queue and visiting it. *)
Lemma dj_inv_visit (visited : list T) (m : nodeMap_t) (x : GraphNode T)
    (t h1 : list (GraphNode T)) :
  dj_inv visited visited m (x :: t) -> t ≡ₚ h1 -> node x ∉ visited ->
  dj_inv visited (visited ++ [node x]) m h1.
Proof.
  intros [Hkeys Hnn Hroot Hinf Hpred Hfin Hheap Hvis Hnd Hsrc HR Hset] Hperm Hx.
  assert (forall n, n ∈ visited \/ n ∈ map node (x :: t) ->
                    n ∈ visited ++ [node x] \/ n ∈ map node h1) as Hdrop.
  { intros n [?|Hn]; [left; apply elem_of_app; by left|]. cbn [map] in Hn.
    apply elem_of_cons in Hn as [->|Hn].
    - left. apply elem_of_app. right. by left.
    - right. by rewrite <- Hperm. }
  split; try done.
  - intros n d p Hg. destruct (Hpred n d p Hg) as [Hnb (i & Hi & Hlt)].
    split; [done|]. exists i. split; [by apply lookup_app_l_Some|].
    intros j Hj. pose proof (lookup_lt_Some _ _ _ Hi) as Hil.
    destruct (decide (j < length visited)) as [Hjl|Hjl].
    + rewrite lookup_app_l in Hj by done. by apply Hlt.
    + lia.
  - intros n d p Hg. apply Hdrop. by eapply Hfin.
  - intros y Hy. apply Hheap. right. by rewrite Hperm.
  - intros u [Hu| ->%list_elem_of_singleton]%elem_of_app; [by apply Hvis|].
    apply Hheap. left.
  - apply NoDup_app. split; [done|]. split; [|apply NoDup_singleton].
    intros y Hy ->%list_elem_of_singleton. done.
  - by apply Hdrop.
  - intros u Hu. apply elem_of_app. by left.
  - intros u e Hu He. destruct (Hset u e Hu He) as [Hv|Hrest]; [|by right].
    left. apply elem_of_app. by left.
Qed.

(** The entries of a node whose loop is over are settled. *)
Lemma dj_inv_settle (R visited : list T) (m : nodeMap_t)
    (h : list (GraphNode T)) (u : T) :
  dj_inv R visited m h -> u ∈ visited ->
  (forall e, e ∈ default [] (JsMap.get g u) -> settled visited m u e) ->
  dj_inv (R ++ [u]) visited m h.
Proof.
  intros [Hkeys Hnn Hroot Hinf Hpred Hfin Hheap Hvis Hnd Hsrc HR Hset] Hu Hnew.
  split; try done.
  - intros u' [Hu'| ->%list_elem_of_singleton]%elem_of_app; auto.
  - intros u' e [Hu'| ->%list_elem_of_singleton]%elem_of_app; auto.
Qed.

Lemma dijkstra_loop_inv (fuel : nat) :
  forall (visited : list T) (m : nodeMap_t) (h : list (GraphNode T)),
    dj_inv visited visited m h ->
    length h + pushes_left visited g < fuel ->
    exists m' visited',
      dijkstra_loop fuel g visited m h = Done m' /\
      dj_inv visited' visited' m' [].
Proof.
  induction fuel as [|fuel' IH]; intros visited m h Hinv Hfuel; [lia|].
  cbn [dijkstra_loop]. destruct h as [|x t].
  { exists m, visited. done. }
  change (MinHeap.isEmpty (x :: t)) with false. cbv beta iota.
  destruct (popMin_perm compareNodes x t) as (h1 & -> & Hperm).
  apply Permutation_cons_inv in Hperm.
  unfold getNeighbors, JsSet.add, JsSet.has. cbn [length] in Hfuel.
  case_bool_decide as Hv.
  - rewrite relax_settled.
    2:{ intros e He. by eapply dj_settled. }
    apply IH; [by eapply dj_inv_shrink|].
    rewrite <- (Permutation_length Hperm). lia.
  - pose proof (dj_inv_visit visited m x t h1 Hinv Hperm Hv) as Hinv1.
    assert (node x ∈ visited ++ [node x]) as Hx1.
    { apply elem_of_app. right. left. }
    destruct (relax_inv visited (visited ++ [node x]) x Hx1
                (default [] (JsMap.get g (node x))) m h1 (fun e He => He) Hinv1)
      as (m' & h' & -> & Hinv' & Hlow & Hlen & Hset).
    apply IH; [by apply dj_inv_settle|].
    pose proof (pushes_left_visit visited (node x) g Hv) as Hp.
    rewrite <- (Permutation_length Hperm) in Hlen. lia.
Qed.

(** The map and the queue the loop starts with. *)
Lemma init_get (nodes : list T) (acc : nodeMap_t) (n : T) :
  JsMap.get
    (fold_left
       (fun m n => JsMap.set m n (if decide (n = src) then Fin 0 else Infinity, None))
       nodes acc) n
  = if bool_decide (n ∈ nodes)
    then Some (if decide (n = src) then Fin 0 else Infinity, None)
    else JsMap.get acc n.
Proof.
  revert acc. induction nodes as [|a nodes IH]; intros acc; [done|].
  cbn [fold_left]. rewrite IH.
  destruct (decide (n ∈ nodes)) as [Hin|Hout].
  - rewrite !bool_decide_eq_true_2; [done | by right | done].
  - rewrite (bool_decide_eq_false_2 (n ∈ nodes)) by done.
    destruct (decide (a = n)) as [->|Hne].
    + rewrite get_set_eq. by rewrite bool_decide_eq_true_2 by left.
    + rewrite get_set_ne by done. rewrite bool_decide_eq_false_2; [done|].
      intros [->|?]%elem_of_cons; done.
Qed.

Lemma dj_inv_init :
  dj_inv [] []
    (fold_left
       (fun m n => JsMap.set m n (if decide (n = src) then Fin 0 else Infinity, None))
       (getAllNodes g) [])
    [mkGraphNode src 0%Z].
Proof.
  split.
  - intros n. rewrite init_get. case_bool_decide as Hn.
    + split; [eauto | done].
    + split; [done|]. simpl. by intros [? ?].
  - intros n d p. rewrite init_get. case_bool_decide; [|done].
    destruct (decide (n = src)); [|done]. intros [= <- <-]. lia.
  - intros d p. rewrite init_get. case_bool_decide; [|done].
    rewrite decide_True by done. by intros [= <- <-].
  - intros n p. rewrite init_get. case_bool_decide; [|done].
    by intros [= _ <-].
  - intros n d p. rewrite init_get. case_bool_decide; [|done]. discriminate.
  - intros n d p. rewrite init_get. case_bool_decide; [|done].
    destruct (decide (n = src)) as [->|]; [|done]. intros _. right. left.
  - intros x ->%list_elem_of_singleton. by left.
  - intros u Hu. by apply elem_of_nil in Hu.
  - constructor.
  - right. left.
  - done.
  - intros u e Hu. by apply elem_of_nil in Hu.
Qed.

(** Every visited node is [src] or the end of an edge. *)
Lemma dj_visited_bound (visited : list T) (m : nodeMap_t)
    (h : list (GraphNode T)) :
  dj_inv visited visited m h -> length visited <= 1 + length (getAllEdges g).
Proof.
  intros Hinv.
  assert (length visited <= length (src :: map to (getAllEdges g))) as Hle.
  { apply submseteq_length, NoDup_submseteq; [by eapply dj_nodup|].
    intros u Hu. destruct (dj_visited _ _ _ _ _ _ Hinv u Hu) as [->|(d & p & Hg)];
      [left|]. right.
    destruct (dj_pred _ _ _ _ _ _ Hinv _ _ _ Hg) as [Hnb _].
    by eapply neighbors_candidates. }
  simpl in Hle. by rewrite length_map in Hle.
Qed.

(** The walk along the predecessors from a visited node. *)
Lemma walk_back_chain (visited : list T) (m : nodeMap_t) :
  dj_inv visited visited m [] ->
  forall (i : nat) (c : T) (d : distance) (pr : option T) (acc : list T)
         (fuel : nat),
    visited !! i = Some c -> JsMap.get m c = Some (d, pr) -> i < fuel ->
    exists chain,
      walk_back fuel m (Some c) acc = Done (acc ++ chain) /\
      path_to g src (rev chain) c.
Proof.
  intros Hinv i. induction i as [i IH] using lt_wf_ind.
  intros c d pr acc fuel Hi Hg Hfuel.
  destruct fuel as [|fuel']; [lia|]. cbn [walk_back]. rewrite Hg.
  destruct pr as [p|].
  - destruct (dj_pred _ _ _ _ _ _ Hinv _ _ _ Hg) as [Hnb (i' & Hi' & Hlt)].
    specialize (Hlt i Hi).
    assert (p ∈ getAllNodes g) as Hp.
    { unfold neighbors_of in Hnb.
      apply list_elem_of_fmap in Hnb as (e & _ & He).
      by destruct (edge_of_entry g p e He). }
    destruct (proj1 (dj_keys _ _ _ _ _ _ Hinv p) Hp) as [[dp pp] Hgp].
    destruct (IH i' Hlt p dp pp (acc ++ [c]) fuel' Hi' Hgp ltac:(lia))
      as (chain & -> & Hpath).
    exists (c :: chain). split; [by rewrite <- app_assoc|].
    cbn [rev]. by eapply path_step.
  - exists [c]. split; [by destruct fuel'|].
    destruct (dj_visited _ _ _ _ _ _ Hinv c) as [->|(d' & p' & Hg')].
    + by eapply list_elem_of_lookup_2.
    + constructor.
    + rewrite Hg in Hg'. discriminate Hg'.
Qed.

(** When the queue is empty, the end of every path from [src] is [src]
    or a visited node with a predecessor. *)
Lemma dj_reach (visited : list T) (m : nodeMap_t) :
  dj_inv visited visited m [] ->
  forall p w, path_to g src p w ->
    w = src \/ exists d pr, JsMap.get m w = Some (d, Some pr).
Proof.
  intros Hinv p w Hp. induction Hp as [|p u v Hp IH Hv]; [by left|].
  assert (u ∈ visited) as Hu.
  { destruct IH as [->|(d & pr & Hg)].
    - destruct (dj_src _ _ _ _ _ _ Hinv) as [?|Hs]; [done | by apply elem_of_nil in Hs].
    - destruct (dj_pred _ _ _ _ _ _ Hinv _ _ _ Hg) as [_ (i & Hi & _)].
      destruct d as [du|]; [|by apply (dj_inf _ _ _ _ _ _ Hinv) in Hg].
      destruct (dj_finite _ _ _ _ _ _ Hinv _ _ _ Hg) as [?|Hs];
        [done | by apply elem_of_nil in Hs]. }
  unfold neighbors_of in Hv. apply list_elem_of_fmap in Hv as (e & -> & He).
  assert (node e ∈ visited) as Hev.
  { destruct (dj_settled _ _ _ _ _ _ Hinv u e Hu He)
      as [?|(du & pu & dv & pv & _ & Hge & _)]; [done|].
    destruct (dj_finite _ _ _ _ _ _ Hinv _ _ _ Hge) as [?|Hs];
      [done | by apply elem_of_nil in Hs]. }
  by apply (dj_visited _ _ _ _ _ _ Hinv).
Qed.

Lemma no_negative_edge :
  existsb (fun edge : Edge T => bool_decide (edge_weight edge < 0)%Z)
    (getAllEdges g) = false.
Proof.
  destruct (existsb _ _) eqn:Hex; [|done].
  apply existsb_exists in Hex as (e & He & Hneg).
  apply list_elem_of_In in He. apply bool_decide_eq_true in Hneg.
  pose proof (Hweights e He). lia.
Qed.

(** The loop of [dijkstra] ends, in a state with an empty queue. *)
Lemma dijkstra_loop_ends (fuel : nat) :
  2 + length (getAllEdges g) <= fuel ->
  exists m visited,
    dijkstra_loop fuel g []
      (fold_left
         (fun m n => JsMap.set m n (if decide (n = src) then Fin 0 else Infinity, None))
         (getAllNodes g) [])
      (MinHeap.insert compareNodes (MinHeap.new compareNodes None)
         (mkGraphNode src 0%Z)) = Done m /\
    dj_inv visited visited m [].
Proof.
  intros Hfuel.
  change (MinHeap.insert compareNodes (MinHeap.new compareNodes None)
            (mkGraphNode src 0%Z)) with [mkGraphNode src 0%Z].
  apply dijkstra_loop_inv; [apply dj_inv_init|].
  rewrite pushes_left_all. simpl. lia.
Qed.


(** X27: on such a graph, [dijkstra] for a target that is not a node
    of the graph does not return: after its loop has ended, the walk back
    from the target reads the entry of the target, which is [undefined],
    and throws. *)
Theorem dijkstra_unknown_target_throws (fuel : nat) (dst : T) :
  dst ∉ getAllNodes g -> 2 + length (getAllEdges g) <= fuel ->
  dijkstra fuel g src dst = Throws.
Proof.
  intros Hdst Hfuel. unfold dijkstra. rewrite no_negative_edge.
  destruct (dijkstra_loop_ends fuel Hfuel) as (m & visited & -> & Hinv).
  destruct fuel as [|fuel']; [lia|]. cbn [walk_back].
  destruct (JsMap.get m dst) as [[d pr]|] eqn:Hg; [|done].
  exfalso. apply Hdst. apply (dj_keys _ _ _ _ _ _ Hinv). eauto.
Qed.
End DijkstraSearch.

Lemma city_closed : closed Graph.cityMap.
Proof. exact (proj2 (built_shape Graph.cityMap city_built_any)). Qed.

Lemma city_weights (e : Graph.Edge string) :
  e ∈ Graph.getAllEdges Graph.cityMap -> (0 <= Graph.edge_weight e)%Z.
Proof.
  revert e. apply Forall_forall. vm_compute. repeat constructor; discriminate.
Qed.


Lemma dijkstra_unknown_target_throws_witness :
  Graph.dijkstra 20 Graph.cityMap "A"%string "Q"%string = Throws.
Proof.
  apply (dijkstra_unknown_target_throws Graph.cityMap "A"%string city_closed
           city_weights 20 "Q"%string).
  - vm_compute. intros Hin. repeat (apply elem_of_cons in Hin as [Hin|Hin];
      [discriminate Hin|]). by apply elem_of_nil in Hin.
  - vm_compute. lia.
Defined.


(** ** LinkedList: [cycle] and [from] on a chain that runs into a cycle *)

Section LassoArith.
Variables mu lam : nat.
Hypothesis Hlam : 0 < lam.
Local Abbreviation pos := (lasso_pos mu lam).

Lemma mod_S (a : nat) :
  S a mod lam = if S (a mod lam) =? lam then 0 else S (a mod lam).
Proof.
  pose proof (Nat.div_mod_eq a lam) as Ha.
  pose proof (Nat.mod_upper_bound a lam ltac:(lia)) as Hr.
  destruct (Nat.eqb_spec (S (a mod lam)) lam) as [Heq|Hne].
  - symmetry. apply (Nat.mod_unique _ _ (S (a / lam))); [lia | nia].
  - symmetry. apply (Nat.mod_unique _ _ (a / lam)); [lia | nia].
Qed.

Lemma pos_lt (k : nat) : pos k < mu + lam.
Proof.
  unfold lasso_pos. destruct (Nat.ltb_spec k mu); [lia|].
  pose proof (Nat.mod_upper_bound (k - mu) lam ltac:(lia)). lia.
Qed.

Lemma pos_S (k : nat) :
  pos (S k) = if S (pos k) <? mu + lam then S (pos k) else mu.
Proof.
  unfold lasso_pos.
  destruct (Nat.ltb_spec k mu) as [Hk|Hk].
  - destruct (Nat.ltb_spec (S k) mu) as [Hk'|Hk'].
    + destruct (Nat.ltb_spec (S k) (mu + lam)); lia.
    + replace (S k - mu) with 0 by lia. rewrite Nat.Div0.mod_0_l.
      destruct (Nat.ltb_spec (S k) (mu + lam)); lia.
  - destruct (Nat.ltb_spec (S k) mu) as [Hk'|Hk']; [lia|].
    replace (S k - mu) with (S (k - mu)) by lia. rewrite mod_S.
    pose proof (Nat.mod_upper_bound (k - mu) lam ltac:(lia)) as Hr.
    destruct (Nat.eqb_spec (S ((k - mu) mod lam)) lam) as [Heq|Hne];
      destruct (Nat.ltb_spec (S (mu + (k - mu) mod lam)) (mu + lam)); lia.
Qed.

Lemma pos_small (k : nat) : k < mu + lam -> pos k = k.
Proof.
  intros Hk. unfold lasso_pos. destruct (Nat.ltb_spec k mu); [done|].
  rewrite Nat.mod_small by lia. lia.
Qed.

(** After a multiple of [lam] steps beyond the lead-in the walk is where
    it was. *)
Lemma pos_shift (K j : nat) :
  mu <= K -> K mod lam = 0 ->
  (mu <= j -> pos (K + j) = pos j) /\ (j < mu -> pos (K + j) <> pos j).
Proof.
  intros HK Hmod. unfold lasso_pos. split; intros Hj.
  - destruct (Nat.ltb_spec (K + j) mu); [lia|].
    destruct (Nat.ltb_spec j mu); [lia|]. f_equal.
    apply Nat.Div0.div_exact in Hmod.
    replace (K + j - mu) with (j - mu + (K / lam) * lam) by lia.
    apply Nat.Div0.mod_add.
  - destruct (Nat.ltb_spec (K + j) mu); [lia|].
    destruct (Nat.ltb_spec j mu); lia.
Qed.

Lemma pos_meet (K : nat) :
  1 <= K -> pos K = pos (2 * K) -> mu <= K /\ K mod lam = 0.
Proof.
  intros HK. unfold lasso_pos.
  destruct (Nat.ltb_spec K mu) as [Hk|Hk].
  - destruct (Nat.ltb_spec (2 * K) mu); lia.
  - destruct (Nat.ltb_spec (2 * K) mu); [lia|]. intros Heq. split; [done|].
    assert ((K - mu) mod lam = (2 * K - mu) mod lam) as Hm by lia.
    pose proof (Nat.div_mod_eq (K - mu) lam) as H1.
    pose proof (Nat.div_mod_eq (2 * K - mu) lam) as H2.
    pose proof (Nat.mod_upper_bound (K - mu) lam ltac:(lia)) as Hr.
    symmetry.
    apply (Nat.mod_unique _ _ ((2 * K - mu) / lam - (K - mu) / lam)); [lia|].
    rewrite <- Hm in H2.
    assert ((K - mu) / lam <= (2 * K - mu) / lam) as Hq.
    { apply Nat.Div0.div_le_mono. lia. }
    rewrite Nat.mul_sub_distr_l. lia.
Qed.

(** A number of steps at which slow and fast are at the same Node. *)
Lemma meeting_exists :
  exists K0, 1 <= K0 /\ K0 <= mu + lam /\ pos K0 = pos (2 * K0).
Proof.
  set (q := (Nat.max mu 1 + lam - 1) / lam).
  pose proof (Nat.div_mod_eq (Nat.max mu 1 + lam - 1) lam) as Hd.
  pose proof (Nat.mod_upper_bound (Nat.max mu 1 + lam - 1) lam ltac:(lia)) as Hr.
  fold q in Hd. exists (lam * q).
  assert (Nat.max mu 1 <= lam * q) as Hlo by lia.
  assert (lam * q <= mu + lam) as Hhi by lia.
  split; [lia|]. split; [done|].
  assert ((lam * q) mod lam = 0) as Hmod.
  { rewrite Nat.mul_comm. apply Nat.Div0.mod_mul. }
  replace (2 * (lam * q)) with (lam * q + lam * q) by lia.
  symmetry. apply pos_shift; [lia | done | lia].
Qed.
End LassoArith.

Section LassoFacts.
Context {T : Type}.
Import LinkedList.
Variable s : store T.
Variable root : ref.
Variable rs : list ref.
Variable mu : nat.
Hypothesis Hlasso : lasso s root rs mu.
Local Abbreviation lam := (length rs - mu).
Local Abbreviation pos := (lasso_pos mu (length rs - mu)).

Lemma lasso_lam : 0 < lam /\ mu + lam = length rs.
Proof. destruct Hlasso as (_ & _ & Hmu). lia. Qed.

Lemma lasso_root : rs !! 0 = Some root.
Proof.
  destruct Hlasso as (Hseg & _ & Hmu). destruct rs as [|r rs']; [simpl in Hmu; lia|].
  simpl in Hseg. destruct Hseg as [[= ->] _]. done.
Qed.

(** The Node after the one at index [i]. *)
Lemma lasso_next (i : nat) (r : ref) :
  rs !! i = Some r ->
  next_of s r = rs !! (if S i <? length rs then S i else mu).
Proof.
  intros Hi. destruct Hlasso as (Hseg & _ & Hmu).
  rewrite (seg_lookup_next _ _ _ _ _ _ Hseg Hi).
  destruct (Nat.ltb_spec (S i) (length rs)) as [Hlt|Hge].
  - destruct (lookup_lt_is_Some_2 rs (S i) Hlt) as [r' ->]. done.
  - by rewrite (lookup_ge_None_2 rs (S i)) by lia.
Qed.

(** The Node reached after [k] steps, and the one after it. *)
Lemma lasso_at (k : nat) :
  exists r, rs !! pos k = Some r /\ next_of s r = rs !! pos (S k).
Proof.
  destruct lasso_lam as [Hlam Hn].
  pose proof (pos_lt mu lam Hlam k) as Hk. rewrite Hn in Hk.
  destruct (lookup_lt_is_Some_2 rs (pos k) Hk) as [r Hr].
  exists r. split; [done|]. rewrite (lasso_next _ _ Hr).
  by rewrite (pos_S mu lam Hlam k), Hn.
Qed.

Lemma lasso_inj (a b : nat) : rs !! pos a = rs !! pos b -> pos a = pos b.
Proof.
  destruct (lasso_at a) as (r & Hr & _). rewrite Hr. intros Hb.
  destruct Hlasso as (_ & Hnd & _). by eapply NoDup_lookup.
Qed.

(** The first loop of [cycle], from [k] steps on. *)
Lemma cycle_meet_lasso (K0 : nat) :
  pos K0 = pos (2 * K0) ->
  forall (d k fuel : nat),
    k + d = K0 -> 1 <= d -> d <= fuel ->
    exists K, k < K /\ K <= K0 /\ pos K = pos (2 * K) /\
      cycle_meet fuel s (rs !! pos k) (rs !! pos (2 * k))
      = Done (true, rs !! pos K).
Proof.
  intros HK0. induction d as [|d IH]; intros k fuel Hk Hd Hfuel; [lia|].
  destruct fuel as [|fuel']; [lia|]. cbn [cycle_meet].
  destruct (lasso_at k) as (sl & Hsl & Hsl').
  destruct (lasso_at (2 * k)) as (f & Hf & Hf').
  destruct (lasso_at (S (2 * k))) as (fn & Hfn & Hfn').
  rewrite Hf, Hf', Hfn, Hsl, Hsl', Hfn'.
  replace (S (S (2 * k))) with (2 * S k) by lia.
  case_bool_decide as Heq.
  - exists (S k). split; [lia|]. split; [lia|].
    pose proof (lasso_inj _ _ Heq) as Hp. split; [done|]. by rewrite Hp.
  - destruct d as [|d'].
    { exfalso. apply Heq. replace (S k) with K0 by lia. by rewrite HK0. }
    destruct (IH (S k) fuel' ltac:(lia) ltac:(lia) ltac:(lia))
      as (K & HkK & HK & HpK & ->).
    exists K. split; [lia|]. done.
Qed.

(** The second loop of [cycle], after [j] steps. *)
Lemma cycle_entry_lasso (K : nat) :
  mu <= K -> K mod lam = 0 ->
  forall (d j fuel : nat),
    j + d = mu -> d < fuel ->
    cycle_entry fuel s (rs !! pos j) (rs !! pos (K + j)) = Done (rs !! mu).
Proof.
  intros HK Hmod. destruct lasso_lam as [Hlam Hn].
  induction d as [|d IH]; intros j fuel Hj Hfuel.
  - destruct fuel as [|fuel']; [lia|]. cbn [cycle_entry].
    destruct (pos_shift mu lam Hlam K j HK Hmod) as [Hsame _].
    rewrite Hsame by lia. rewrite bool_decide_eq_true_2 by done.
    rewrite pos_small by lia. by replace j with mu by lia.
  - destruct fuel as [|fuel']; [lia|]. cbn [cycle_entry].
    destruct (pos_shift mu lam Hlam K j HK Hmod) as [_ Hdiff].
    rewrite bool_decide_eq_false_2.
    2:{ intros Heq. apply lasso_inj in Heq. apply Hdiff; [lia | done]. }
    destruct (lasso_at j) as (sl & Hsl & Hsl').
    destruct (lasso_at (K + j)) as (f & Hf & Hf').
    rewrite Hsl, Hf, Hsl', Hf'.
    replace (S (K + j)) with (K + S j) by lia. apply IH; lia.
Qed.

Lemma cycle_lasso (fuel : nat) :
  length rs <= fuel -> cycle fuel s (Some root) = Done (rs !! mu).
Proof.
  intros Hfuel. destruct lasso_lam as [Hlam Hn].
  destruct (meeting_exists mu lam Hlam) as (K0 & HK0 & HK0n & HpK0).
  destruct (cycle_meet_lasso K0 HpK0 K0 0 fuel ltac:(lia) ltac:(lia) ltac:(lia))
    as (K & HK1 & HK & HpK & Hmeet).
  destruct (pos_meet mu lam Hlam K ltac:(lia) HpK) as [HmuK Hmod].
  unfold cycle. change (2 * 0) with 0 in Hmeet.
  rewrite (pos_small mu lam Hlam 0), lasso_root in Hmeet by lia.
  rewrite Hmeet.
  pose proof (cycle_entry_lasso K HmuK Hmod mu 0 fuel ltac:(lia) ltac:(lia)) as He.
  rewrite (pos_small mu lam Hlam 0), lasso_root in He by lia.
  by rewrite Nat.add_0_r in He.
Qed.
End LassoFacts.

Section LassoFrom.
Context {T : Type}.
Import LinkedList.
Variable s : store T.
Variable root : ref.
Variable rs : list ref.
Variable mu : nat.
Hypothesis Hlasso : lasso s root rs mu.
Variable lastr : ref.
Hypothesis Hlast : last rs = Some lastr.

Lemma lasso_entry : is_Some (rs !! mu).
Proof. destruct Hlasso as (_ & _ & Hmu). by apply lookup_lt_is_Some_2. Qed.

Lemma lasso_not_entry (i : nat) (r : ref) :
  rs !! i = Some r -> i <> mu -> rs !! mu <> Some r.
Proof.
  intros Hi Hne Hmu. destruct Hlasso as (_ & Hnd & _).
  apply Hne. by eapply NoDup_lookup.
Qed.

(** The loop of [from] once it has passed the entry of the cycle: from
    the Node at index [i] it goes on to the last Node and cuts there. *)
Lemma from_walk_round (d : nat) :
  forall (i : nat) (t : ref) (c : Z) (fuel : nat),
    i + d + 1 = length rs -> mu <= i -> rs !! i = Some t -> d < fuel ->
    from_walk fuel s (rs !! mu) true t c
    = Done (set_next s lastr None, lastr, (c + Z.of_nat d)%Z).
Proof.
  destruct lasso_entry as [entry Hentry].
  induction d as [|d IH]; intros i t c fuel Hi Hmu Ht Hfuel;
    (destruct fuel as [|fuel']; [lia|]); cbn [from_walk];
    rewrite (lasso_next s root rs mu Hlasso i t Ht).
  - rewrite (proj2 (Nat.ltb_ge _ _)) by lia. rewrite Hentry. cbv beta iota.
    rewrite bool_decide_eq_true_2 by done.
    rewrite last_lookup in Hlast. replace (pred (length rs)) with i in Hlast by lia.
    rewrite Ht in Hlast. injection Hlast as ->. by rewrite Z.add_0_r.
  - rewrite (proj2 (Nat.ltb_lt _ _)) by lia.
    destruct (lookup_lt_is_Some_2 rs (S i) ltac:(lia)) as [nx Hnx]. rewrite Hnx.
    cbv beta iota. rewrite bool_decide_eq_false_2
      by (apply (lasso_not_entry (S i)); [done | lia]).
    rewrite (IH (S i) nx (c + 1)%Z fuel') by (done || lia). do 2 f_equal. lia.
Qed.

(** The loop of [from] before it has met the entry of the cycle. *)
Lemma from_walk_lead (d : nat) :
  forall (i : nat) (t : ref) (c : Z) (fuel : nat),
    i + d = (if mu =? 0 then length rs - 1 else mu - 1) ->
    rs !! i = Some t -> d + (length rs - mu) < fuel ->
    from_walk fuel s (rs !! mu) false t c
    = Done (set_next s lastr None, lastr,
            (c + Z.of_nat (d + 1 + (length rs - 1 - mu)))%Z).
Proof.
  destruct lasso_entry as [entry Hentry].
  pose proof Hlasso as (_ & _ & Hmun).
  induction d as [|d IH]; intros i t c fuel Hi Ht Hfuel;
    (destruct fuel as [|fuel']; [lia|]); cbn [from_walk];
    rewrite (lasso_next s root rs mu Hlasso i t Ht).
  - assert ((if S i <? length rs then S i else mu) = mu) as ->.
    { destruct (Nat.eqb_spec mu 0); destruct (Nat.ltb_spec (S i) (length rs)); lia. }
    rewrite Hentry. cbv beta iota. rewrite bool_decide_eq_true_2 by done.
    rewrite <- Hentry.
    rewrite (from_walk_round (length rs - 1 - mu) mu entry (c + 1)%Z fuel')
      by (done || lia).
    do 2 f_equal. lia.
  - assert (S i < length rs /\ S i <> mu) as [Hlt Hne].
    { destruct (Nat.eqb_spec mu 0); lia. }
    rewrite (proj2 (Nat.ltb_lt _ _)) by lia.
    destruct (lookup_lt_is_Some_2 rs (S i) Hlt) as [nx Hnx]. rewrite Hnx.
    cbv beta iota. rewrite bool_decide_eq_false_2
      by (by apply (lasso_not_entry (S i))).
    rewrite (IH (S i) nx (c + 1)%Z fuel') by (done || lia). do 2 f_equal. lia.
Qed.

Lemma from_lasso (fuel : nat) :
  2 * length rs <= fuel ->
  from fuel s root
  = Done (set_next s lastr None,
          mk (Some root) (Some lastr)
             (Z.of_nat (if mu =? 0 then 2 * length rs else length rs))).
Proof.
  intros Hfuel. pose proof Hlasso as (_ & _ & Hmun).
  unfold from. rewrite (cycle_lasso s root rs mu Hlasso) by lia.
  rewrite (from_walk_lead (if mu =? 0 then length rs - 1 else mu - 1) 0 root 1%Z fuel).
  - do 3 f_equal. destruct (Nat.eqb_spec mu 0); lia.
  - done.
  - exact (lasso_root s root rs mu Hlasso).
  - destruct (Nat.eqb_spec mu 0); lia.
Qed.

(** After the cut the Nodes are a chain that ends. *)
Lemma lasso_cut : chain (set_next s lastr None) (Some root) rs.
Proof.
  destruct Hlasso as (Hseg & Hnd & Hmu).
  destruct rs as [|r0 rs0 _] using rev_ind; [simpl in Hmu; lia|].
  rewrite last_snoc in Hlast. injection Hlast as ->.
  apply seg_set_last with (m := (rs0 ++ [lastr]) !! mu); [done|].
  apply NoDup_app in Hnd as (_ & Hdisj & _). intros Hin.
  apply (Hdisj _ Hin). left.
Qed.
End LassoFrom.

Section LassoTheorems.
Context {T : Type}.
Import LinkedList.

(** X28: on a chain of distinct Nodes that runs into a cycle, [cycle],
    given a turn for each Node, returns the Node where the cycle begins,
    whether this is the root or a later Node. *)
Theorem linkedlist_cycle_finds_entry (fuel : nat) (s : store T) (root : ref)
    (rs : list ref) (mu : nat) :
  lasso s root rs mu -> length rs <= fuel ->
  cycle fuel s (Some root) = Done (rs !! mu).
Proof. intros Hlasso. by apply cycle_lasso. Qed.

(** X29: on such a chain [from], given enough turns, cuts the cycle
    after the last Node: afterwards the Nodes are a chain that ends, with
    their values untouched, the head of the list is the root and its tail
    the last Node. The recorded size is the number of Nodes when the cycle
    begins after the root, and twice that number when it begins at the
    root, the loop then going round a second time before it cuts. *)
Theorem linkedlist_from_cuts_cycle (fuel : nat) (s : store T) (root : ref)
    (rs : list ref) (mu : nat) (vs : list T) :
  lasso s root rs mu -> data_of s rs vs -> 2 * length rs <= fuel ->
  exists s' l,
    from fuel s root = Done (s', l) /\
    chain s' (Some root) rs /\ data_of s' rs vs /\
    _head l = Some root /\ _tail l = last rs /\
    _size l = Z.of_nat (if mu =? 0 then 2 * length rs else length rs) /\
    (1 <= mu -> list_rep s' l vs).
Proof.
  intros Hlasso Hdata Hfuel.
  destruct (last rs) as [lastr|] eqn:Hlast.
  2:{ apply last_None in Hlast. destruct Hlasso as (_ & _ & Hmu).
      rewrite Hlast in Hmu. simpl in Hmu. lia. }
  pose proof (lasso_cut s root rs mu Hlasso lastr Hlast) as Hchain.
  assert (data_of (set_next s lastr None) rs vs) as Hdata'.
  { eapply data_of_frame; [|exact Hdata]. intros r _. apply set_next_data. }
  eexists _, _. split; [by apply from_lasso|].
  split; [done|]. split; [done|]. cbn [_head _tail _size].
  split; [done|]. split; [done|]. split; [done|].
  intros Hmu. exists rs. cbn [_head _tail _size].
  split; [done|]. split; [done|]. split.
  - destruct (Nat.eqb_spec mu 0); [lia|].
    by rewrite (data_of_length _ _ _ Hdata).
  - done.
Qed.
End LassoTheorems.

Lemma lasso_rho4 : lasso rho4 0 rho4_nodes 1.
Proof.
  split; [|split].
  - simpl. repeat (split; [reflexivity|]; eexists; split; [reflexivity|]).
    reflexivity.
  - unfold rho4_nodes. repeat constructor; rewrite ?elem_of_cons, ?elem_of_nil; lia.
  - simpl. lia.
Qed.

Lemma linkedlist_cycle_finds_entry_witness :
  LinkedList.cycle 4 rho4 (Some 0) = Done (rho4_nodes !! 1).
Proof.
  apply (linkedlist_cycle_finds_entry 4 rho4 0 rho4_nodes 1 lasso_rho4).
  simpl. lia.
Defined.

Lemma data_rho4 : data_of rho4 rho4_nodes [1; 2; 3; 4]%Z.
Proof. repeat constructor. Qed.

Lemma linkedlist_from_cuts_cycle_witness :
  exists s' l,
    LinkedList.from 8 rho4 0 = Done (s', l) /\
    chain s' (Some 0) rho4_nodes /\ data_of s' rho4_nodes [1; 2; 3; 4]%Z /\
    LinkedList._head l = Some 0 /\ LinkedList._tail l = last rho4_nodes /\
    LinkedList._size l
    = Z.of_nat (if 1 =? 0 then 2 * length rho4_nodes else length rho4_nodes) /\
    (1 <= 1 -> list_rep s' l [1; 2; 3; 4]%Z).
Proof.
  apply (linkedlist_from_cuts_cycle 8 rho4 0 rho4_nodes 1 [1; 2; 3; 4]%Z
           lasso_rho4 data_rho4).
  simpl. lia.
Defined.

(** X30: the path that [dijkstra] returns need not be one of least
    weight, also on a graph built by undirected [addEdge] calls with
    positive weights. The queue is ordered by the weight of the edge
    through which a node was reached, not by its distance, and a node taken
    from the queue is never lowered again: on the graph [detour] the target
    is taken from the queue with distance 6 before the node from which it
    has distance 4 is looked at. *)
Theorem dijkstra_not_always_least :
  exists (g : list (string * list (Graph.GraphNode string))) (a b : string)
         (p p' : list string) (w w' : Z),
    built_undirected g /\
    (forall e, e ∈ Graph.getAllEdges g -> (0 < Graph.edge_weight e)%Z) /\
    Graph.dijkstra 20 g a b = Done (Some p) /\
    Graph.path_weight g p = Some w /\
    Graph.path_to g a p' b /\ Graph.path_weight g p' = Some w' /\ (w' < w)%Z.
Proof.
  exists detour, "A"%string, "T"%string, ["A"; "M"; "N"; "T"]%string,
         ["A"; "P"; "T"]%string, 6%Z, 4%Z.
  split.
  { unfold detour. repeat (apply undirected_addEdge; [|reflexivity]).
    apply undirected_new. }
  split.
  { apply Forall_forall. vm_compute. repeat constructor. }
  split; [vm_compute; reflexivity|]. split; [vm_compute; reflexivity|].
  split.
  { apply (Graph.path_step detour "A"%string ["A"; "P"]%string "P"%string "T"%string).
    - apply (Graph.path_step detour "A"%string ["A"]%string "A"%string "P"%string).
      + constructor.
      + vm_compute. repeat constructor.
    - vm_compute. repeat constructor. }
  split; [vm_compute; reflexivity | lia].
Qed.
